(** * Route computation engine of the smart navigator ([src/lib/pathfinding.ts])

    A shallow embedding of [calculateDistance], [calculateBearing],
    [PriorityQueue], [generateGraph], [findShortestPath],
    [searchNearbyPlaces] and the fallback of [searchLocations], of the handler
    of the route page ([src/pages/Index.tsx]) and of the route line and
    markers of the map ([src/components/RouteMap.tsx]), followed by the
    properties of the engine.

    Modelling conventions.
    - A finite JavaScript number is an exact rational ([Q]); the one
      non-finite value the engine itself introduces, [Infinity] (the initial
      tentative distance), is a constructor of [number].  [NaN] is not
      represented.
    - The host's [Math] object is not code of the engine: its transcendental
      functions are the fields of a [MathLib] record that every definition
      takes as a parameter.  [Math.floor], [Math.round], [Math.min] and
      [Math.max] are exact on rationals and are defined here.
    - [Math.random()] is a stream [rnd : nat -> Q]: [rnd k] is the value
      returned by the [k]-th call made during one route computation.
    - [Map<string, _>] is a [gmap string _]; arrays are lists.
    - The two [while] loops of [findShortestPath] take fuel; running out of
      fuel is the outcome [OutOfFuel]. *)

From Stdlib Require Import QArith Qround Qabs ZArith List String Ascii
  DecimalString DecimalZ DecimalPos Lia Lqa Sorting.Sorted Permutation.
From stdpp Require Import gmap strings list fin_maps.
Import ListNotations.

(** ** Numbers *)

Inductive number : Type :=
| Fin (q : Q)
| Infinity.

(** [a + b] *)
Definition nadd (a b : number) : number :=
  match a, b with
  | Fin x, Fin y => Fin (x + y)
  | _, _ => Infinity
  end.

(** [a < b] *)
Definition nlt (a b : number) : bool :=
  match a, b with
  | Fin x, Fin y => if Qlt_le_dec x y then true else false
  | Fin _, Infinity => true
  | Infinity, _ => false
  end.

(** The mathematical order behind [<], as a proposition. *)
Definition nle (a b : number) : Prop :=
  match a, b with
  | Fin x, Fin y => (x <= y)%Q
  | _, Infinity => True
  | Infinity, Fin _ => False
  end.

(** ToBoolean on a number: [0] is falsy, everything else here is truthy. *)
Definition truthy (a : number) : bool :=
  match a with
  | Fin x => negb (Qeq_bool x 0)
  | Infinity => true
  end.

(** [v || dflt] where [v] is the result of [Map.prototype.get] on a map of
    numbers ([None] is [undefined]). *)
Definition orNumber (v : option number) (dflt : number) : number :=
  match v with
  | Some a => if truthy a then a else dflt
  | None => dflt
  end.

(** [Math.floor], [Math.round] (halves round up), [Math.min], [Math.max]. *)
Definition Math_floor (x : Q) : Z := Qfloor x.
Definition Math_round (x : Q) : Z := Qfloor (x + (1 # 2)).
Definition Math_min (a b : Z) : Z := Z.min a b.
Definition Math_max (a b : Z) : Z := Z.max a b.

(** [x % m] on numbers: the remainder has the sign of the dividend. *)
Definition Qtrunc (x : Q) : Z := if Qlt_le_dec x 0 then Qceiling x else Qfloor x.
Definition number_rem (x m : Q) : Q := (x - m * inject_Z (Qtrunc (x / m)))%Q.

(** The host's [Math] object. *)
Record MathLib : Type := {
  Math_sin : Q -> Q;
  Math_cos : Q -> Q;
  Math_sqrt : Q -> Q;
  Math_atan2 : Q -> Q -> Q;
  Math_PI : Q
}.

(** ** Strings *)

Definition lower_ascii (c : ascii) : ascii :=
  let n := nat_of_ascii c in
  if (65 <=? n)%nat && (n <=? 90)%nat then ascii_of_nat (n + 32) else c.

Fixpoint toLowerCase (s : string) : string :=
  match s with
  | EmptyString => EmptyString
  | String c s' => String (lower_ascii c) (toLowerCase s')
  end.

(** Template-literal rendering of an integer-valued number. *)
Definition string_of_Z (z : Z) : string := NilZero.string_of_int (Z.to_int z).

(** Template-literal rendering of [k / 10] for an integer [k], the shape of
    [Math.round(x * 10) / 10]: at most one decimal digit, none when it is 0
    (the rendering of numbers below 10^21 in magnitude). *)
Definition string_of_tenths (k : Z) : string :=
  let a := Z.abs k in
  let whole := string_of_Z (a / 10) in
  let frac := (a mod 10)%Z in
  ((if (k <? 0)%Z then "-" else "") ++
   whole ++ (if (frac =? 0)%Z then "" else "." ++ string_of_Z frac))%string.

(** ** Data model *)

Module Location.
Record t : Type := mk {
    lat : Q;
    lng : Q;
    name : string;
    category : option string
  }.
End Location.

Module GraphNode.
Record t : Type := mk {
    id : string;
    lat : Q;
    lng : Q;
    name : string;
    category : option string
  }.
End GraphNode.

Module GraphEdge.
Record t : Type := mk {
    from : string;
    to : string;
    weight : Q;
    distance : Q
  }.
End GraphEdge.

Module Direction.
Record t : Type := mk {
    instruction : string;
    distance : Q;
    direction : option string
  }.
End Direction.

Module RouteResult.
Record t : Type := mk {
    path : list GraphNode.t;
    totalDistance : string;
    totalTime : string;
    algorithm : string;
    directions : list Direction.t
  }.
End RouteResult.

(** An entry of the adjacency list. *)
Module Neighbor.
Record t : Type := mk {
  nodeId : string;
  weight : Q;
  distance : Q
}.
End Neighbor.

(** The mutable state of the search: [distances], [previous] and the items of
    [pq]. *)
Module Solver.
Record t : Type := mk {
  distances : gmap string number;
  previous : gmap string (option string);
  pq : list (string * number)
}.
End Solver.

Inductive RouteType : Type := shortest | safest.

(** Outcome of a run: a value, a [TypeError] thrown by the engine, or fuel
    exhausted inside one of the two [while] loops. *)
Inductive outcome (A : Type) : Type :=
| Returned (a : A)
| TypeError
| OutOfFuel.
Arguments Returned {A} a.
Arguments TypeError {A}.
Arguments OutOfFuel {A}.

#[global] Instance outcome_ret : MRet outcome := fun A a => Returned a.

#[global] Instance outcome_bind : MBind outcome := fun A B k o =>
  match o with
  | Returned a => k a
  | TypeError => TypeError
  | OutOfFuel => OutOfFuel
  end.

(** ** PriorityQueue *)

Module PriorityQueue.
Section Queue.
Context {T : Type}.

Definition item : Type := (T * number)%type.
Definition element (it : item) : T := fst it.
Definition priority (it : item) : number := snd it.

(** [a.priority - b.priority > 0]; [Infinity - Infinity] is [NaN], which the
    sort reads as 0. *)
Definition after (a b : item) : bool := nlt (priority b) (priority a).

(** [Array.prototype.sort] is stable: an element moves past exactly the
    elements that compare strictly greater. *)
Fixpoint insert (x : item) (l : list item) : list item :=
  match l with
  | [] => [x]
  | y :: l' => if after x y then y :: insert x l' else x :: l
  end.

Fixpoint sort (l : list item) : list item :=
  match l with
  | [] => []
  | x :: l' => insert x (sort l')
  end.

Definition enqueue (e : T) (p : number) (items : list item) : list item :=
  sort (items ++ [(e, p)]).

(** [items.shift()?.element] together with the shortened array. *)
Definition dequeue (items : list item) : option T * list item :=
  match items with
  | [] => (None, [])
  | it :: rest => (Some (element it), rest)
  end.

Definition isEmpty (items : list item) : bool :=
  match items with
  | [] => true
  | _ :: _ => false
  end.

End Queue.
End PriorityQueue.

(** ** Geo-math *)

Section GeoMath.
Variable M : MathLib.
Local Open Scope Q_scope.

Definition toRadians (degrees : Q) : Q := degrees * (Math_PI M / 180).

(** Haversine formula. *)
Definition calculateDistance (lat1 lon1 lat2 lon2 : Q) : Q :=
  let R := 6371 in
  let dLat := toRadians (lat2 - lat1) in
  let dLon := toRadians (lon2 - lon1) in
  let a :=
    Math_sin M (dLat / 2) * Math_sin M (dLat / 2) +
    Math_cos M (toRadians lat1) * Math_cos M (toRadians lat2) *
    Math_sin M (dLon / 2) * Math_sin M (dLon / 2) in
  let c := 2 * Math_atan2 M (Math_sqrt M a) (Math_sqrt M (1 - a)) in
  R * c.

Definition compass : list string :=
  ["North"; "Northeast"; "East"; "Southeast"; "South"; "Southwest"; "West";
   "Northwest"]%string.

(** [directions[index]]: [None] is [undefined]. *)
Definition compass_at (index : Z) : option string :=
  if (index <? 0)%Z then None else nth_error compass (Z.to_nat index).

Definition calculateBearing (lat1 lon1 lat2 lon2 : Q) : option string :=
  let dLon := toRadians (lon2 - lon1) in
  let lat1Rad := toRadians lat1 in
  let lat2Rad := toRadians lat2 in
  let y := Math_sin M dLon * Math_cos M lat2Rad in
  let x := Math_cos M lat1Rad * Math_sin M lat2Rad -
           Math_sin M lat1Rad * Math_cos M lat2Rad * Math_cos M dLon in
  let bearing := number_rem (Math_atan2 M y x * 180 / Math_PI M + 360) 360 in
  let index := Z.rem (Math_round (bearing / 45)) 8 in
  compass_at index.

End GeoMath.

(** ** Graph synthesis *)

Section Engine.
Variable M : MathLib.
Variable rnd : nat -> Q.
Local Open Scope Q_scope.

Definition distanceBetween (a b : GraphNode.t) : Q :=
  calculateDistance M (GraphNode.lat a) (GraphNode.lng a)
                      (GraphNode.lat b) (GraphNode.lng b).

(** [{ id, ...location }] *)
Definition nodeOf (id : string) (l : Location.t) : GraphNode.t :=
  GraphNode.mk id (Location.lat l) (Location.lng l) (Location.name l)
               (Location.category l).

Definition numWaypointsOf (distance : Q) : Z :=
  Math_min (Math_max (Math_floor (distance / 100)) 2) 8.

(** Body of the waypoint loop at index [i], which makes call number [i - 1]
    of [Math.random()]. *)
Definition waypoint (source destination : Location.t) (numWaypoints : Z)
    (i : nat) : GraphNode.t :=
  let ratio := inject_Z (Z.of_nat i) / inject_Z numWaypoints in
  let lat := Location.lat source +
             (Location.lat destination - Location.lat source) * ratio in
  let lng := Location.lng source +
             (Location.lng destination - Location.lng source) * ratio in
  let variation := 0.01 * (rnd (i - 1)%nat - 0.5) in
  GraphNode.mk ("waypoint_" ++ string_of_Z (Z.of_nat i))%string
               (lat + variation) (lng + variation)
               ("Waypoint " ++ string_of_Z (Z.of_nat i))%string
               (Some "waypoint"%string).

(** Body of the inner edge loop; [k] counts the calls of [Math.random()] made
    so far. *)
Definition connect (routeType : RouteType) (k : nat) (node1 node2 : GraphNode.t)
    : GraphEdge.t * nat :=
  let dist := distanceBetween node1 node2 in
  match routeType with
  | shortest =>
      (GraphEdge.mk (GraphNode.id node1) (GraphNode.id node2) dist dist, k)
  | safest =>
      let safetyFactor := 0.8 + rnd k * 0.4 in
      (GraphEdge.mk (GraphNode.id node1) (GraphNode.id node2)
                    (dist * (2 - safetyFactor)) dist, S k)
  end.

(** [for (let j = i + 1; j < nodes.length; j++)] *)
Fixpoint connectFrom (routeType : RouteType) (k : nat) (node1 : GraphNode.t)
    (later : list GraphNode.t) : list GraphEdge.t * nat :=
  match later with
  | [] => ([], k)
  | node2 :: later' =>
      let (e, k1) := connect routeType k node1 node2 in
      let (es, k2) := connectFrom routeType k1 node1 later' in
      (e :: es, k2)
  end.

(** [for (let i = 0; i < nodes.length; i++)] *)
Fixpoint connectAll (routeType : RouteType) (k : nat) (nodes : list GraphNode.t)
    : list GraphEdge.t * nat :=
  match nodes with
  | [] => ([], k)
  | node1 :: later =>
      let (es1, k1) := connectFrom routeType k node1 later in
      let (es2, k2) := connectAll routeType k1 later in
      (es1 ++ es2, k2)
  end.

Definition generateGraph (source destination : Location.t)
    (routeType : RouteType) : list GraphNode.t * list GraphEdge.t :=
  let sourceNode := nodeOf "source" source in
  let destNode := nodeOf "destination" destination in
  let distance := calculateDistance M (Location.lat source) (Location.lng source)
                    (Location.lat destination) (Location.lng destination) in
  let numWaypoints := numWaypointsOf distance in
  let waypoints :=
    List.map (waypoint source destination numWaypoints)
             (seq 1 (Z.to_nat numWaypoints - 1)) in
  let nodes := [sourceNode; destNode] ++ waypoints in
  let edges := fst (connectAll routeType (Z.to_nat numWaypoints - 1) nodes) in
  (nodes, edges).

(** ** Shortest-path search

    [findShortestPath] is one function in the source; its commented phases
    are named here: adjacency list, Dijkstra loop, path reconstruction,
    totals, directions. *)

Definition pushTo (key : string) (x : Neighbor.t)
    (graph : gmap string (list Neighbor.t)) : gmap string (list Neighbor.t) :=
  match graph !! key with
  | Some l => <[key := l ++ [x]]> graph
  | None => graph
  end.

Definition addEdge (graph : gmap string (list Neighbor.t)) (edge : GraphEdge.t)
    : gmap string (list Neighbor.t) :=
  let g1 := pushTo (GraphEdge.from edge)
              (Neighbor.mk (GraphEdge.to edge) (GraphEdge.weight edge)
                           (GraphEdge.distance edge)) graph in
  pushTo (GraphEdge.to edge)
    (Neighbor.mk (GraphEdge.from edge) (GraphEdge.weight edge)
                 (GraphEdge.distance edge)) g1.

Definition buildAdjacency (nodes : list GraphNode.t) (edges : list GraphEdge.t)
    : gmap string (list Neighbor.t) :=
  fold_left addEdge edges
    (fold_left (fun g node => <[GraphNode.id node := []]> g) nodes ∅).

(** Callback of the [nodes.forEach] that initializes [distances] and
    [previous]. *)
Definition initNode (st : Solver.t) (node : GraphNode.t) : Solver.t :=
  Solver.mk
    (<[GraphNode.id node :=
         if decide (GraphNode.id node = "source"%string)
         then Fin 0 else Infinity]> (Solver.distances st))
    (<[GraphNode.id node := None]> (Solver.previous st))
    (Solver.pq st).

Definition initialize (nodes : list GraphNode.t) : Solver.t :=
  let st := fold_left initNode nodes (Solver.mk ∅ ∅ []) in
  Solver.mk (Solver.distances st) (Solver.previous st)
            (PriorityQueue.enqueue "source"%string (Fin 0) (Solver.pq st)).

(** Body of [for (const neighbor of neighbors)]. *)
Definition relax (currentNodeId : string) (st : Solver.t) (neighbor : Neighbor.t)
    : Solver.t :=
  let altDistance :=
    nadd (orNumber (Solver.distances st !! currentNodeId) (Fin 0))
         (Fin (Neighbor.weight neighbor)) in
  if nlt altDistance
         (orNumber (Solver.distances st !! Neighbor.nodeId neighbor) Infinity)
  then
    Solver.mk
      (<[Neighbor.nodeId neighbor := altDistance]> (Solver.distances st))
      (<[Neighbor.nodeId neighbor := Some currentNodeId]> (Solver.previous st))
      (PriorityQueue.enqueue (Neighbor.nodeId neighbor) altDistance (Solver.pq st))
  else st.

(** [while (!pq.isEmpty())] *)
Fixpoint dijkstraLoop (fuel : nat) (graph : gmap string (list Neighbor.t))
    (st : Solver.t) : outcome Solver.t :=
  if PriorityQueue.isEmpty (Solver.pq st) then Returned st
  else
    match fuel with
    | O => OutOfFuel
    | S fuel' =>
        let (dequeued, items) := PriorityQueue.dequeue (Solver.pq st) in
        let st1 := Solver.mk (Solver.distances st) (Solver.previous st) items in
        match dequeued with
        | None => Returned st1
        | Some currentNodeId =>
            if decide (currentNodeId = ""%string) then Returned st1
            else if decide (currentNodeId = "destination"%string) then Returned st1
            else
              let neighbors := default [] (graph !! currentNodeId) in
              dijkstraLoop fuel' graph
                (fold_left (relax currentNodeId) neighbors st1)
        end
    end.

(** [previous.get(currentId) || null]: [undefined], [null] and the empty
    string are falsy. *)
Definition orNull (v : option (option string)) : option string :=
  match v with
  | Some (Some s) => if decide (s = ""%string) then None else Some s
  | _ => None
  end.

(** [while (currentId !== null)] *)
Fixpoint reconstructPath (fuel : nat) (nodes : list GraphNode.t)
    (previous : gmap string (option string)) (currentId : option string)
    (path : list GraphNode.t) : outcome (list GraphNode.t) :=
  match currentId with
  | None => Returned path
  | Some cid =>
      match fuel with
      | O => OutOfFuel
      | S fuel' =>
          let path' :=
            match List.find (fun n => bool_decide (GraphNode.id n = cid)) nodes with
            | Some node => node :: path
            | None => path
            end in
          reconstructPath fuel' nodes previous (orNull (previous !! cid)) path'
      end
  end.

(** The pairs [(path[i], path[i + 1])] for [i = 0 .. path.length - 2]. *)
Fixpoint legs (path : list GraphNode.t) : list (GraphNode.t * GraphNode.t) :=
  match path with
  | current :: rest =>
      match rest with
      | next :: _ => (current, next) :: legs rest
      | [] => []
      end
  | [] => []
  end.

Definition sumDistances (path : list GraphNode.t) : Q :=
  fold_left (fun totalDistance leg => totalDistance + distanceBetween (fst leg) (snd leg))
            (legs path) 0.

(** Body of the directions loop at index [i] for a path of [n] nodes. *)
Definition directionAt (n i : nat) (current next : GraphNode.t)
    : outcome Direction.t :=
  let distance := distanceBetween current next in
  let bearing :=
    calculateBearing M (GraphNode.lat current) (GraphNode.lng current)
                       (GraphNode.lat next) (GraphNode.lng next) in
  instruction ←
    (if (i =? 0)%nat then
       Returned ("Start your journey from " ++ GraphNode.name current)%string
     else if (i =? n - 2)%nat then
       Returned ("Arrive at " ++ GraphNode.name next)%string
     else
       match bearing with
       | Some b =>
           Returned ("Continue " ++ toLowerCase b ++ " towards " ++
                     GraphNode.name next)%string
       | None => TypeError
       end);
  mret (Direction.mk instruction (inject_Z (Math_round (distance * 10)) / 10) bearing).

Fixpoint directionsFrom (n i : nat) (ls : list (GraphNode.t * GraphNode.t))
    : outcome (list Direction.t) :=
  match ls with
  | [] => Returned []
  | leg :: ls' =>
      d ← directionAt n i (fst leg) (snd leg);
      ds ← directionsFrom n (S i) ls';
      mret (d :: ds)
  end.

Definition generateDirections (path : list GraphNode.t) : outcome (list Direction.t) :=
  directionsFrom (length path) 0 (legs path).

(** Everything [findShortestPath] does once the graph is generated. *)
Definition solve (fuel : nat) (nodes : list GraphNode.t) (edges : list GraphEdge.t)
    : outcome RouteResult.t :=
  let graph := buildAdjacency nodes edges in
  st ← dijkstraLoop fuel graph (initialize nodes);
  path ← reconstructPath fuel nodes (Solver.previous st) (Some "destination"%string) [];
  let totalDistance := sumDistances path in
  directions ← generateDirections path;
  let totalTime := Math_round (totalDistance * 1.2) in
  mret (RouteResult.mk path
          (string_of_tenths (Math_round (totalDistance * 10)) ++ " km")%string
          (string_of_Z totalTime ++ " min")%string
          "Dijkstra's"%string
          directions).

Definition findShortestPath (fuel : nat) (source destination : Location.t)
    (routeType : RouteType) : outcome RouteResult.t :=
  let (nodes, edges) := generateGraph source destination routeType in
  solve fuel nodes edges.

End Engine.

Arguments generateGraph M rnd source destination routeType : assert.
Arguments findShortestPath M rnd fuel source destination routeType : assert.

(** ** Nearby places ([searchNearbyPlaces]) *)

(** The object literal [placeTypes], its keys in source order. *)
Definition placeTypes : list (string * list string) :=
  [("restaurant", ["Pizza Palace"; "Burger Haven"; "Sushi Express"; "Coffee Corner"]);
   ("hotel", ["Grand Hotel"; "Budget Inn"; "Luxury Resort"; "Business Lodge"]);
   ("police", ["Police Station Central"; "Security Post"; "Emergency Services"]);
   ("train", ["Central Station"; "Metro Hub"; "Railway Terminal"]);
   ("airport", ["International Airport"; "Regional Airfield"; "Heliport"]);
   ("all", ["Shopping Mall"; "Bank"; "Hospital"; "School"; "Park"])]%string.

(** The property names an object literal inherits from [Object.prototype];
    their values are functions, or the prototype itself for [__proto__]. *)
Definition objectPrototype : list string :=
  ["constructor"; "__defineGetter__"; "__defineSetter__"; "hasOwnProperty";
   "__lookupGetter__"; "__lookupSetter__"; "isPrototypeOf"; "propertyIsEnumerable";
   "toString"; "valueOf"; "__proto__"; "toLocaleString"]%string.

(** The value of [placeTypes[key]]: an own array of names, a value found on
    the prototype, or [undefined]. *)
Inductive property : Type :=
| OwnNames (names : list string)
| Inherited
| Undefined.

Definition ownProperty (key : string) (o : list (string * list string))
    : option (list string) :=
  snd <$> List.find (fun kv => bool_decide (fst kv = key)) o.

Definition placeTypes_get (type : string) : property :=
  match ownProperty type placeTypes with
  | Some names => OwnNames names
  | None => if bool_decide (type ∈ objectPrototype) then Inherited else Undefined
  end.

(** [s.split(',')[0]] *)
Fixpoint beforeComma (s : string) : string :=
  match s with
  | EmptyString => EmptyString
  | String c s' => if Ascii.eqb c "," then EmptyString else String c (beforeComma s')
  end.

(** Callback of [names.map]; the element at [index] makes calls number
    [2 * index] and [2 * index + 1] of [Math.random()]. *)
Definition nearbyPlace (rnd : nat -> Q) (location : Location.t) (type : string)
    (index : nat) (name : string) : Location.t :=
  Location.mk
    (Location.lat location + (rnd (2 * index)%nat - 0.5) * 0.02)%Q
    (Location.lng location + (rnd (2 * index + 1)%nat - 0.5) * 0.02)%Q
    (name ++ " Near " ++ beforeComma (Location.name location))%string
    (Some (if decide (type = "all"%string) then "place"%string else type)).

(** The body of the [try] block: [names.map] is not a function when
    [placeTypes[type]] is a value found on the prototype. *)
Definition nearbyPlaces_try (rnd : nat -> Q) (location : Location.t) (type : string)
    : outcome (list Location.t) :=
  names ←
    match placeTypes_get type with
    | OwnNames names => Returned names
    | Inherited => TypeError
    | Undefined => Returned (default [] (ownProperty "all" placeTypes))
    end;
  mret (imap (nearbyPlace rnd location type) names).

(** The value the promise resolves to; the [catch] block returns [[]]. *)
Definition searchNearbyPlaces (rnd : nat -> Q) (location : Location.t) (type : string)
    : list Location.t :=
  match nearbyPlaces_try rnd location type with
  | Returned places => places
  | _ => []
  end.

(** ** Location search: the fallback of [searchLocations] *)




(** ** The route page ([pages/Index.tsx]) *)

Module Toast.
Record t : Type := mk {
  title : string;
  description : string;
  variant : option string
}.
End Toast.

(** The state of the page that [handleCalculateRoute] reads and writes, and
    the toasts shown so far. *)
Module Page.
Record t : Type := mk {
  source : option Location.t;
  destination : option Location.t;
  route : option RouteResult.t;
  routeType : RouteType;
  isCalculating : bool;
  toasts : list Toast.t
}.
End Page.

Section RoutePage.
Variable M : MathLib.
Variable rnd : nat -> Q.
Variable fuel : nat.

(** The handler runs to completion unless [findShortestPath] does not return. *)
Definition handleCalculateRoute (page : Page.t) : outcome Page.t :=
  match Page.source page, Page.destination page with
  | Some source, Some destination =>
      match findShortestPath M rnd fuel source destination (Page.routeType page) with
      | Returned result =>
          Returned
            (Page.mk (Page.source page) (Page.destination page) (Some result)
               (Page.routeType page) false
               (Page.toasts page ++
                [Toast.mk "Route Calculated"
                   ((match Page.routeType page with
                     | shortest => "Shortest"
                     | safest => "Safest"
                     end) ++ " route found: " ++ RouteResult.totalDistance result
                    ++ " km, " ++ RouteResult.totalTime result ++ " minutes")%string
                   None]))
      | TypeError =>
          Returned
            (Page.mk (Page.source page) (Page.destination page) (Page.route page)
               (Page.routeType page) false
               (Page.toasts page ++
                [Toast.mk "Route Calculation Failed"
                   "Unable to calculate route. Please try again."
                   (Some "destructive"%string)]))
      | OutOfFuel => OutOfFuel
      end
  | _, _ =>
      Returned
        (Page.mk (Page.source page) (Page.destination page) (Page.route page)
           (Page.routeType page) (Page.isCalculating page)
           (Page.toasts page ++
            [Toast.mk "Missing Locations"
               "Please select both source and destination locations."
               (Some "destructive"%string)]))
  end.

End RoutePage.

(** ** The route map ([components/RouteMap.tsx]) *)

(** [Array.prototype.slice(start, end)] *)
Definition slice {A : Type} (start final : Z) (l : list A) : list A :=
  let len := Z.of_nat (length l) in
  let k := if (start <? 0)%Z then Z.max (len + start) 0 else Z.min start len in
  let e := if (final <? 0)%Z then Z.max (len + final) 0 else Z.min final len in
  firstn (Z.to_nat (e - k)) (skipn (Z.to_nat k) l).

(** The positions of the polyline. *)
Definition routeCoordinates (route : option RouteResult.t) : list (Q * Q) :=
  match route with
  | Some r => List.map (fun node => (GraphNode.lat node, GraphNode.lng node))
                       (RouteResult.path r)
  | None => []
  end.

(** The nodes that get a waypoint marker. *)
Definition waypointMarkers (route : option RouteResult.t) : list GraphNode.t :=
  match route with
  | Some r => slice 1 (-1) (RouteResult.path r)
  | None => []
  end.

(** ** A reference [Math] on rationals

    Truncated power series, results rounded down to 12 decimal places.  It
    serves to run the engine on concrete coordinates. *)

Module RefMath.
Local Open Scope Q_scope.

(** Round down to 18 decimal places (working precision). *)
Definition chop (q : Q) : Q :=
  Qmake (Qfloor (q * 1000000000000000000)) 1000000000000000000.

(** Round down to 12 decimal places (results). *)
Definition snap (q : Q) : Q := Qmake (Qfloor (q * 1000000000000)) 1000000000000.

Definition PI : Q := 3.141592653589793.

(** [1 - x2/(k(k+1)) * (1 - x2/((k+2)(k+3)) * ...)], [n] factors: with
    [k = 2] the series of [sin x / x], with [k = 1] the series of [cos x]. *)
Fixpoint trig_series (n : nat) (k : Z) (x2 : Q) : Q :=
  match n with
  | O => 1
  | S n' => chop (1 - x2 / inject_Z (k * (k + 1)) * trig_series n' (k + 2) x2)
  end.

Definition sin (x : Q) : Q :=
  let x := chop x in snap (x * trig_series 16 2 (chop (x * x))).

Definition cos (x : Q) : Q :=
  let x := chop x in snap (trig_series 16 1 (chop (x * x))).

(** Integer square root at 12 decimal places; 0 on negative arguments,
    where [Math.sqrt] is [NaN]. *)
Definition sqrt (x : Q) : Q :=
  if Qlt_le_dec 0 x
  then Qmake (Z.sqrt (Qfloor (x * 1000000000000000000000000))) 1000000000000
  else 0.

(** [1/k - t2 * (1/(k+2) - t2 * ...)], [n] factors: with [k = 1] the series
    of [atan t / t]. *)
Fixpoint atan_series (n : nat) (k : Z) (t2 : Q) : Q :=
  match n with
  | O => 1 / inject_Z k
  | S n' => chop (1 / inject_Z k - t2 * atan_series n' (k + 2) t2)
  end.

(** Halve the angle: [atan t = 2 * atan (t / (1 + sqrt (1 + t^2)))]. *)
Definition half_arg (t : Q) : Q := chop (t / (1 + sqrt (1 + t * t))).

(** [atan t] for [0 <= t <= 1]. *)
Definition atan_unit (t : Q) : Q :=
  let u := half_arg (half_arg (chop t)) in
  4 * (u * atan_series 8 1 (chop (u * u))).

(** [atan t] for [0 <= t]. *)
Definition atan_pos (t : Q) : Q :=
  if Qlt_le_dec 1 t then PI / 2 - atan_unit (/ t) else atan_unit t.

Definition atan2_raw (y x : Q) : Q :=
  match Qcompare x 0, Qcompare y 0 with
  | Gt, Lt => - atan_pos (- y / x)
  | Gt, _ => atan_pos (y / x)
  | Lt, Lt => - (PI - atan_pos (y / x))
  | Lt, _ => PI - atan_pos (- y / x)
  | Eq, Gt => PI / 2
  | Eq, Lt => - (PI / 2)
  | Eq, Eq => 0
  end.

(** The result carries the sign of [y], as the exact function does. *)
Definition atan2 (y x : Q) : Q :=
  let r := snap (atan2_raw y x) in
  if Qlt_le_dec y 0
  then (if Qlt_le_dec r 0 then r else 0)
  else (if Qlt_le_dec r 0 then 0 else r).

Definition lib : MathLib :=
  {| Math_sin := sin; Math_cos := cos; Math_sqrt := sqrt;
     Math_atan2 := atan2; Math_PI := PI |}.

End RefMath.


(** ** Concrete inputs used in examples *)

Definition newYork : Location.t := Location.mk 40.7128 (-74.0060) "New York" None.
Definition newark : Location.t := Location.mk 40.9 (-74.2) "Newark" None.

(** A [Math.random()] that always returns 0.5 (no jitter). *)
Definition rndHalf (k : nat) : Q := 0.5.

(** A [Math.random()] that always returns 0. *)
Definition rndZero (k : nat) : Q := 0.

(** Two nodes one degree of longitude apart on the equator, joined by one
    edge, and the same two nodes with no edge. *)
Definition nodeA : GraphNode.t := GraphNode.mk "source" 0 0 "A" None.
Definition nodeB : GraphNode.t := GraphNode.mk "destination" 0 1 "B" None.
Definition edgeAB : GraphEdge.t := GraphEdge.mk "source" "destination" 111 111.

(** Two street corners about 111 m apart, and a [Math.random()] that always
    returns 0.9. *)
Definition cornerA : Location.t := Location.mk 0 0 "Corner A" None.
Definition cornerB : Location.t := Location.mk 0 0.001 "Corner B" None.
Definition rndNine (k : nat) : Q := 0.9.

(** The first edge of the graph synthesized between the two corners in the
    safest mode. *)
Definition cornerEdge : GraphEdge.t :=
  Eval vm_compute in
    hd edgeAB (snd (generateGraph RefMath.lib rndNine cornerA cornerB safest)).

(** The state in which the loop stops on the graph from New York to Newark. *)
Definition newarkState : Solver.t :=
  let g := generateGraph RefMath.lib rndHalf newYork newark shortest in
  match dijkstraLoop 10 (buildAdjacency (fst g) (snd g)) (initialize (fst g)) with
  | Returned st => st
  | _ => Solver.mk ∅ ∅ []
  end.

(** The reference [Math] with the result of [atan2] clipped to [-PI, PI],
    the range of the exact function. *)
Definition clippedMath : MathLib :=
  {| Math_sin := RefMath.sin; Math_cos := RefMath.cos; Math_sqrt := RefMath.sqrt;
     Math_atan2 := fun y x =>
       let r := RefMath.atan2 y x in
       if Qlt_le_dec r (- RefMath.PI) then (- RefMath.PI)%Q
       else if Qlt_le_dec RefMath.PI r then RefMath.PI else r;
     Math_PI := RefMath.PI |}.

(** The state in which the loop stops on the graph of two nodes and one
    edge. *)
Definition edgeState : Solver.t :=
  match dijkstraLoop 2 (buildAdjacency [nodeA; nodeB] [edgeAB])
          (initialize [nodeA; nodeB]) with
  | Returned st => st
  | _ => Solver.mk ∅ ∅ []
  end.


(** * Vocabulary of the properties *)

(** Every item is no larger than the items behind it. *)
Fixpoint ordered {T : Type} (l : list (@PriorityQueue.item T)) : Prop :=
  match l with
  | [] => True
  | x :: l' =>
      (forall y, y ∈ l' -> nle (PriorityQueue.priority x) (PriorityQueue.priority y))
      /\ ordered l'
  end.

(** The entries one edge contributes to the list of node [x], in push order. *)
Definition entriesOf (x : string) (e : GraphEdge.t) : list Neighbor.t :=
  (if decide (GraphEdge.from e = x)
   then [Neighbor.mk (GraphEdge.to e) (GraphEdge.weight e) (GraphEdge.distance e)]
   else []) ++
  (if decide (GraphEdge.to e = x)
   then [Neighbor.mk (GraphEdge.from e) (GraphEdge.weight e) (GraphEdge.distance e)]
   else []).

Definition ids (nodes : list GraphNode.t) : list string :=
  List.map GraphNode.id nodes.

(** The predecessor map sends every id of [ns] to a non-empty id of [ns]:
    a backward walk that enters [ns] never meets [null]. *)
Definition cyclic (ns : list string) (previous : gmap string (option string)) : Prop :=
  forall x, x ∈ ns -> exists y, previous !! x = Some (Some y) /\ y ∈ ns /\ y <> ""%string.

Definition queuedIn (ns : list string) (pq : list (string * number)) : Prop :=
  forall it, it ∈ pq -> PriorityQueue.element it ∈ ns.

(** The tentative distance relaxation computes from node [u] along [n]. *)
Definition altDistanceOf (st : Solver.t) (u : string) (n : Neighbor.t) : number :=
  nadd (orNumber (Solver.distances st !! u) (Fin 0)) (Fin (Neighbor.weight n)).

(** The state after the first iteration of the loop, which dequeues
    ["source"] and relaxes its adjacency list [adjS]. *)
Definition afterSource (nodes : list GraphNode.t) (adjS : list Neighbor.t) : Solver.t :=
  fold_left (relax "source")
    adjS
    (Solver.mk (Solver.distances (initialize nodes))
               (Solver.previous (initialize nodes)) []).

(** Invariant of that first iteration. *)
Definition firstInv (nodes : list GraphNode.t) (adjS : list Neighbor.t)
    (st : Solver.t) : Prop :=
  Solver.distances st !! "source"%string = Some (Fin 0)
  /\ Solver.previous st !! "source"%string = Some None
  /\ (forall x, x ∈ ids nodes -> x <> "source"%string ->
        (Solver.distances st !! x = Some Infinity /\ Solver.previous st !! x = Some None)
        \/ (exists q, Solver.distances st !! x = Some (Fin q)
                      /\ Solver.previous st !! x = Some (Some "source"%string)
                      /\ (x, Fin q) ∈ Solver.pq st))
  /\ (forall it, it ∈ Solver.pq st ->
        exists n, n ∈ adjS /\ it = (Neighbor.nodeId n, Fin (0 + Neighbor.weight n)))
  /\ ordered (Solver.pq st).

(** Neighbor [n] of the source has been relaxed. *)
Definition reached (n : Neighbor.t) (st : Solver.t) : Prop :=
  Solver.previous st !! Neighbor.nodeId n = Some (Some "source"%string)
  /\ exists p, (Neighbor.nodeId n, p) ∈ Solver.pq st
               /\ nle p (Fin (0 + Neighbor.weight n)).

(** The adjacency entry an edge pushes on the list of its [from] node. *)
Definition toNeighbor (e : GraphEdge.t) : Neighbor.t :=
  Neighbor.mk (GraphEdge.to e) (GraphEdge.weight e) (GraphEdge.distance e).

(** The route over the direct edge from [sN] to [dN]. *)
Definition directRoute (M : MathLib) (sN dN : GraphNode.t) : RouteResult.t :=
  RouteResult.mk [sN; dN]
    (string_of_tenths (Math_round (sumDistances M [sN; dN] * 10)) ++ " km")%string
    (string_of_Z (Math_round (sumDistances M [sN; dN] * 1.2)) ++ " min")%string
    "Dijkstra's"%string
    [Direction.mk ("Start your journey from " ++ GraphNode.name sN)%string
       (inject_Z (Math_round (distanceBetween M sN dN * 10)) / 10)
       (calculateBearing M (GraphNode.lat sN) (GraphNode.lng sN)
                           (GraphNode.lat dN) (GraphNode.lng dN))].

(** Every node but the source has a finite distance and a predecessor. *)
Definition restSettled (restIds allIds : list string) (st : Solver.t) : Prop :=
  (forall x, x ∈ restIds ->
     (exists q, Solver.distances st !! x = Some (Fin q))
     /\ exists y, Solver.previous st !! x = Some (Some y) /\ y ∈ allIds /\ y <> ""%string)
  /\ queuedIn allIds (Solver.pq st).

(** The distance of the source is still the falsy [0]. *)
Definition sourceFresh (st : Solver.t) : Prop :=
  exists q, Solver.distances st !! "source"%string = Some (Fin q)
            /\ truthy (Fin q) = false.

(** The source has been given a predecessor. *)
Definition sourceLinked (allIds : list string) (st : Solver.t) : Prop :=
  exists y, Solver.previous st !! "source"%string = Some (Some y)
            /\ y ∈ allIds /\ y <> ""%string.

(** Edge [e] is what [generateGraph] builds between [n1] and [n2]. *)
Definition edgeBetween (M : MathLib) (rnd : nat -> Q) (routeType : RouteType)
    (n1 n2 : GraphNode.t) (e : GraphEdge.t) : Prop :=
  GraphEdge.from e = GraphNode.id n1
  /\ GraphEdge.to e = GraphNode.id n2
  /\ GraphEdge.distance e = distanceBetween M n1 n2
  /\ match routeType with
     | shortest => GraphEdge.weight e = distanceBetween M n1 n2
     | safest =>
         exists k, GraphEdge.weight e
                   = (distanceBetween M n1 n2 * (2 - (0.8 + rnd k * 0.4)))%Q
     end.

(** The waypoints [generateGraph] pushes after the two endpoints. *)
Definition waypointsOf (M : MathLib) (rnd : nat -> Q)
    (source destination : Location.t) : list GraphNode.t :=
  let numWaypoints :=
    numWaypointsOf
      (calculateDistance M (Location.lat source) (Location.lng source)
         (Location.lat destination) (Location.lng destination)) in
  List.map (waypoint rnd source destination numWaypoints)
           (seq 1 (Z.to_nat numWaypoints - 1)).

(** The sum of the great-circle distances between consecutive nodes of a
    path, written by recursion on the path. *)
Fixpoint greatCircleSum (M : MathLib) (path : list GraphNode.t) : Q :=
  match path with
  | a :: rest =>
      match rest with
      | b :: _ => (distanceBetween M a b + greatCircleSum M rest)%Q
      | [] => 0
      end
  | [] => 0
  end.

(** A key whose distance is still [Infinity] is a node id and has no
    predecessor. *)
Definition unreachedNull (nodes : list GraphNode.t) (st : Solver.t) : Prop :=
  forall x, Solver.distances st !! x = Some Infinity ->
    x ∈ ids nodes /\ Solver.previous st !! x = Some None.

(** The route [solve] returns when the walk stops at the destination node:
    one node, zero distance, zero time, no directions. *)
Definition strandedRoute (d : GraphNode.t) : RouteResult.t :=
  RouteResult.mk [d] "0 km" "0 min" "Dijkstra's" [].

(** Sign facts of the exact functions that the distance formula relies on:
    a square root is not negative, and [atan2 y x] is not negative when [y]
    is not. *)
Record MathNonneg (M : MathLib) : Prop := {
  sqrt_nonneg : forall x, (0 <= Math_sqrt M x)%Q;
  atan2_nonneg : forall y x, (0 <= y)%Q -> (0 <= Math_atan2 M y x)%Q
}.

(** Exact values of the exact functions at 0 and 1. *)
Record MathExact (M : MathLib) : Prop := {
  sin_zero : forall x, (x == 0)%Q -> (Math_sin M x == 0)%Q;
  sqrt_zero : forall x, (x == 0)%Q -> (Math_sqrt M x == 0)%Q;
  sqrt_one : forall x, (x == 1)%Q -> (Math_sqrt M x == 1)%Q;
  atan2_zero : forall y x, (y == 0)%Q -> (0 < x)%Q -> (Math_atan2 M y x == 0)%Q
}.

(** The tentative distance of [x], [Infinity] when the map has no entry. *)
Definition dval (st : Solver.t) (x : string) : number :=
  default Infinity (Solver.distances st !! x).

(** Node [u] has been relaxed at distance [q]: none of its edges to a node
    other than the source can still improve that node. *)
Definition closedAt (graph : gmap string (list Neighbor.t)) (st : Solver.t)
    (u : string) (q : Q) : Prop :=
  forall l n, graph !! u = Some l -> n ∈ l ->
    Neighbor.nodeId n <> "source"%string ->
    nle (dval st (Neighbor.nodeId n)) (Fin (q + Neighbor.weight n)).

(** Invariant of the loop on a graph with positive weights. *)
Record baseInv (st : Solver.t) : Prop := {
  inv_source :
    exists q0, orNumber (Solver.distances st !! "source"%string) (Fin 0) = Fin q0
               /\ (0 <= q0)%Q;
  inv_positive :
    forall x q, x <> "source"%string ->
      Solver.distances st !! x = Some (Fin q) -> (0 < q)%Q;
  inv_entries :
    forall x p, (x, p) ∈ Solver.pq st ->
      x <> ""%string /\ (exists q, p = Fin q)
      /\ (x <> "source"%string -> nle (dval st x) p);
  inv_ordered : ordered (Solver.pq st)
}.

(** Every node with a finite distance, the source and [u] apart, is either
    queued at that distance or closed at it. *)
Definition settledExcept (graph : gmap string (list Neighbor.t)) (st : Solver.t)
    (u : string) : Prop :=
  forall x q, x <> "source"%string -> x <> u ->
    Solver.distances st !! x = Some (Fin q) ->
    (x, Fin q) ∈ Solver.pq st \/ closedAt graph st x q.

(** [reachCost graph x c]: some walk from the source to [x] that does not
    come back to the source has total weight [c]. *)
Inductive reachCost (graph : gmap string (list Neighbor.t)) : string -> Q -> Prop :=
| reach_first l n :
    graph !! "source"%string = Some l -> n ∈ l ->
    Neighbor.nodeId n <> "source"%string ->
    reachCost graph (Neighbor.nodeId n) (Neighbor.weight n)
| reach_step u c l n :
    reachCost graph u c -> graph !! u = Some l -> n ∈ l ->
    Neighbor.nodeId n <> "source"%string ->
    reachCost graph (Neighbor.nodeId n) (c + Neighbor.weight n).

(** Node [u] is being relaxed at distance [qu]. *)
Record processing (graph : gmap string (list Neighbor.t)) (u : string) (qu : Q)
    (st : Solver.t) : Prop := {
  proc_base : baseInv st;
  proc_settled : settledExcept graph st u;
  proc_alt : orNumber (Solver.distances st !! u) (Fin 0) = Fin qu;
  proc_dist : u <> "source"%string -> Solver.distances st !! u = Some (Fin qu)
}.

(** Invariant of the loop after its first iteration. *)
Record fullInv (graph : gmap string (list Neighbor.t)) (st : Solver.t) : Prop := {
  full_base : baseInv st;
  full_settled : settledExcept graph st "source";
  full_source : closedAt graph st "source" 0
}.

(** The sum of the base distances of the graph's edges along the chain
    source, waypoint_1, ..., waypoint_n, destination, accumulated from the
    left. The edge between the last waypoint and the destination is stored
    with the destination as its [from] node, so its distance is computed in
    that order. *)
Fixpoint chainFrom (M : MathLib) (c : Q) (prev : GraphNode.t)
    (rest : list GraphNode.t) (dN : GraphNode.t) : Q :=
  match rest with
  | [] => (c + distanceBetween M dN prev)%Q
  | w :: rest' => chainFrom M (c + distanceBetween M prev w)%Q w rest' dN
  end.

Definition chainDistance (M : MathLib) (sN dN : GraphNode.t)
    (wps : list GraphNode.t) : Q :=
  match wps with
  | [] => distanceBetween M sN dN
  | w :: rest => chainFrom M (distanceBetween M sN w) w rest dN
  end.

(** The range of the exact [atan2], and the sign of the exact [PI]. *)
Record MathAngle (M : MathLib) : Prop := {
  PI_positive : (0 < Math_PI M)%Q;
  atan2_range : forall y x, (- Math_PI M <= Math_atan2 M y x <= Math_PI M)%Q
}.



(** Some edge joins the nodes with ids [x] and [y], in either direction. *)
Definition joined (edges : list GraphEdge.t) (x y : string) : Prop :=
  exists e, e ∈ edges
    /\ ((GraphEdge.from e = x /\ GraphEdge.to e = y)
        \/ (GraphEdge.from e = y /\ GraphEdge.to e = x)).

(** Every predecessor recorded is a node that has the key among its
    neighbours. *)
Definition predecessorsAdjacent (graph : gmap string (list Neighbor.t))
    (previous : gmap string (option string)) : Prop :=
  forall x u, previous !! x = Some (Some u) ->
    exists l n, graph !! u = Some l /\ n ∈ l /\ Neighbor.nodeId n = x.

(** Each node of the path is the recorded predecessor of the next one. *)
Definition linkedPath (previous : gmap string (option string))
    (path : list GraphNode.t) : Prop :=
  forall a b, (a, b) ∈ legs path ->
    previous !! GraphNode.id b = Some (Some (GraphNode.id a)).

(** Every finite distance of a node other than the source is the weight of
    a walk from the source. *)
Definition walked (graph : gmap string (list Neighbor.t)) (st : Solver.t) : Prop :=
  forall x q, x <> "source"%string -> Solver.distances st !! x = Some (Fin q) ->
    exists c, reachCost graph x c /\ (c == q)%Q.

(** The source has a positive distance, no larger than the cost of coming
    back to it from [u] at distance [q]. *)
Definition backClosedAt (graph : gmap string (list Neighbor.t)) (st : Solver.t)
    (u : string) (q : Q) : Prop :=
  forall l n, graph !! u = Some l -> n ∈ l ->
    Neighbor.nodeId n = "source"%string ->
    exists q0, Solver.distances st !! "source"%string = Some (Fin q0)
               /\ (0 < q0)%Q /\ (q0 <= q + Neighbor.weight n)%Q.

(** The distance of the source, once positive, has only gone down. *)
Definition sourceLowered (st st' : Solver.t) : Prop :=
  forall q0, Solver.distances st !! "source"%string = Some (Fin q0) -> (0 < q0)%Q ->
    exists q1, Solver.distances st' !! "source"%string = Some (Fin q1)
               /\ (0 < q1)%Q /\ (q1 <= q0)%Q.

(** Every node with a finite distance, the source apart, is queued at that
    distance or belongs to [seen]. *)
Definition queuedOrIn (seen : gset string) (st : Solver.t) : Prop :=
  forall x q, x <> "source"%string -> Solver.distances st !! x = Some (Fin q) ->
    (x, Fin q) ∈ Solver.pq st \/ x ∈ seen.

(** Node [x] has been relaxed at its distance, which is at most [bound]. *)
Definition expandedBelow (graph : gmap string (list Neighbor.t)) (st : Solver.t)
    (bound : number) (x : string) : Prop :=
  exists q, Solver.distances st !! x = Some (Fin q) /\ nle (Fin q) bound
            /\ closedAt graph st x q /\ backClosedAt graph st x q.

(** The front of the queue, [Infinity] when the queue is empty. *)
Definition frontPriority (st : Solver.t) : number :=
  match Solver.pq st with
  | [] => Infinity
  | it :: _ => PriorityQueue.priority it
  end.

(** Invariant of the loop with the set [seen] of the nodes relaxed so far. *)
Record searchInv (graph : gmap string (list Neighbor.t)) (seen : gset string)
    (st : Solver.t) : Prop := {
  search_full : fullInv graph st;
  search_nodes : forall x, x ∈ seen -> is_Some (graph !! x);
  search_source : "source"%string ∉ seen;
  search_expanded : forall x, x ∈ seen -> expandedBelow graph st (frontPriority st) x;
  search_queued : queuedOrIn seen st;
  search_keys : forall y p, (y, p) ∈ Solver.pq st ->
                  y = "source"%string \/ is_Some (graph !! y)
}.

(** Node [u] is being relaxed at distance [qu], the nodes of [seen] have been. *)
Record expanding (graph : gmap string (list Neighbor.t)) (seen : gset string)
    (u : string) (qu : Q) (st : Solver.t) : Prop := {
  exp_processing : processing graph u qu st;
  exp_floor : forall y p, (y, p) ∈ Solver.pq st -> nle (Fin qu) p;
  exp_keys : forall y p, (y, p) ∈ Solver.pq st ->
               y = "source"%string \/ is_Some (graph !! y);
  exp_expanded : forall x, x ∈ seen -> expandedBelow graph st (Fin qu) x;
  exp_queued : queuedOrIn ({[u]} ∪ seen) st
}.

(** * Properties *)

(** ** Numbers *)

Lemma nlt_false_nle (a b : number) : nlt a b = false <-> nle b a.
Proof.
  destruct a as [x|], b as [y|]; simpl.
  - destruct (Qlt_le_dec x y) as [Hlt|Hle].
    + split; [done|]. intros H. exfalso. apply (Qlt_not_le _ _ Hlt H).
    + tauto.
  - split; [discriminate | tauto].
  - tauto.
  - tauto.
Qed.

Lemma nlt_true_inv (a b : number) :
  nlt a b = true -> exists x, a = Fin x /\ nle a b /\ ~ nle b a.
Proof.
  destruct a as [x|], b as [y|]; simpl; try discriminate.
  - destruct (Qlt_le_dec x y) as [Hlt|Hle]; [|discriminate].
    intros _. exists x. split; [done|]. split; [by apply Qlt_le_weak|].
    by apply Qlt_not_le.
  - intros _. exists x. tauto.
Qed.

Lemma nle_refl (a : number) : nle a a.
Proof. destruct a; simpl; [apply Qle_refl | exact I]. Qed.

Lemma nle_trans (a b c : number) : nle a b -> nle b c -> nle a c.
Proof.
  destruct a, b, c; simpl; try tauto. apply Qle_trans.
Qed.

(** ** The priority queue keeps its items and keeps them in order *)

Section QueueFacts.
Context {T : Type}.
Implicit Types (x y : @PriorityQueue.item T) (l : list (@PriorityQueue.item T)).

Lemma insert_elem x y l : y ∈ PriorityQueue.insert x l <-> y = x \/ y ∈ l.
Proof.
  induction l as [|z l IH]; simpl.
  - rewrite list_elem_of_singleton, elem_of_nil. tauto.
  - destruct (PriorityQueue.after x z).
    + rewrite !elem_of_cons, IH. tauto.
    + rewrite !elem_of_cons. tauto.
Qed.

Lemma sort_elem y l : y ∈ PriorityQueue.sort l <-> y ∈ l.
Proof.
  induction l as [|z l IH]; simpl; [done|].
  rewrite insert_elem, elem_of_cons, IH. tauto.
Qed.

Lemma enqueue_elem (e : T) (p : number) y l :
  y ∈ PriorityQueue.enqueue e p l <-> y = (e, p) \/ y ∈ l.
Proof.
  unfold PriorityQueue.enqueue.
  rewrite sort_elem, elem_of_app, list_elem_of_singleton. tauto.
Qed.

Lemma insert_ordered x l : ordered l -> ordered (PriorityQueue.insert x l).
Proof.
  induction l as [|z l IH]; simpl.
  - intros _. split; [|done]. intros y Hy. by apply elem_of_nil in Hy.
  - intros [Hz Hl]. destruct (PriorityQueue.after x z) eqn:Haft.
    + simpl. split; [|by apply IH].
      intros y Hy. apply insert_elem in Hy as [->|Hy]; [|by apply Hz].
      unfold PriorityQueue.after in Haft.
      apply nlt_true_inv in Haft as (? & _ & Hle & _). exact Hle.
    + unfold PriorityQueue.after in Haft. apply nlt_false_nle in Haft.
      simpl. split; [|by split].
      intros y Hy. apply elem_of_cons in Hy as [->|Hy]; [done|].
      eapply nle_trans; [exact Haft | by apply Hz].
Qed.

Lemma sort_ordered l : ordered (PriorityQueue.sort l).
Proof.
  induction l as [|z l IH]; simpl; [done|]. by apply insert_ordered.
Qed.

Lemma enqueue_ordered (e : T) (p : number) l :
  ordered (PriorityQueue.enqueue e p l).
Proof. apply sort_ordered. Qed.

(** An item that is no larger than the new one and than the rest of the
    queue keeps the front. *)
Lemma enqueue_head (e : T) (p : number) x l :
  (forall y, y ∈ l -> nle (PriorityQueue.priority x) (PriorityQueue.priority y)) ->
  nle (PriorityQueue.priority x) p ->
  PriorityQueue.enqueue e p (x :: l) = x :: PriorityQueue.enqueue e p l.
Proof.
  intros Hl Hp. unfold PriorityQueue.enqueue. simpl.
  destruct (PriorityQueue.sort (l ++ [(e, p)])) as [|z l'] eqn:Hs; [done|].
  simpl. assert (Hz : z ∈ l ++ [(e, p)]).
  { apply sort_elem. rewrite Hs. apply elem_of_cons. by left. }
  assert (Hle : nle (PriorityQueue.priority x) (PriorityQueue.priority z)).
  { apply elem_of_app in Hz as [Hz|Hz]; [by apply Hl|].
    apply list_elem_of_singleton in Hz as ->. done. }
  apply nlt_false_nle in Hle. unfold PriorityQueue.after. by rewrite Hle.
Qed.

End QueueFacts.

(** ** Outcomes *)

Lemma bind_Returned {A B : Type} (o : outcome A) (k : A -> outcome B) (b : B) :
  (o ≫= k) = Returned b -> exists a, o = Returned a /\ k a = Returned b.
Proof.
  destruct o as [a| |]; simpl; [|discriminate..]. intros H. by exists a.
Qed.

Lemma bind_Returned_eq {A B : Type} (a : A) (k : A -> outcome B) :
  (Returned a ≫= k) = k a.
Proof. reflexivity. Qed.

(** ** Directions *)

Section DirectionFacts.
Variable M : MathLib.

Lemma legs_length (path : list GraphNode.t) :
  length (legs path) = (length path - 1)%nat.
Proof.
  induction path as [|a [|b rest] IH]; simpl in *; [done..|]. lia.
Qed.

Lemma directionsFrom_length (n i : nat) ls ds :
  directionsFrom M n i ls = Returned ds -> length ds = length ls.
Proof.
  revert i ds. induction ls as [|leg ls IH]; intros i ds; simpl.
  - intros [= <-]. done.
  - intros H. apply bind_Returned in H as (d & _ & H).
    apply bind_Returned in H as (ds' & Hds & H).
    injection H as <-. simpl. f_equal. by eapply IH.
Qed.

Lemma generateDirections_length (path : list GraphNode.t) ds :
  generateDirections M path = Returned ds ->
  length ds = (length path - 1)%nat.
Proof.
  unfold generateDirections. intros H.
  apply directionsFrom_length in H. by rewrite legs_length in H.
Qed.

(** What [solve] returns is assembled from the reconstructed path alone. *)
Lemma solve_Returned (fuel : nat) nodes edges r :
  solve M fuel nodes edges = Returned r ->
  exists st path ds,
    dijkstraLoop fuel (buildAdjacency nodes edges) (initialize nodes) = Returned st
    /\ reconstructPath fuel nodes (Solver.previous st) (Some "destination"%string) []
       = Returned path
    /\ generateDirections M path = Returned ds
    /\ r = RouteResult.mk path
             (string_of_tenths (Math_round (sumDistances M path * 10)) ++ " km")%string
             (string_of_Z (Math_round (sumDistances M path * 1.2)) ++ " min")%string
             "Dijkstra's"%string ds.
Proof.
  unfold solve. intros H.
  apply bind_Returned in H as (st & Hst & H).
  apply bind_Returned in H as (path & Hpath & H).
  apply bind_Returned in H as (ds & Hds & H).
  injection H as <-. by exists st, path, ds.
Qed.

End DirectionFacts.

(** ** The adjacency list *)

Lemma pushTo_lookup key n (g : gmap string (list Neighbor.t)) x :
  pushTo key n g !! x =
  (fun l => l ++ (if decide (key = x) then [n] else [])) <$> (g !! x).
Proof.
  unfold pushTo. destruct (g !! key) as [l|] eqn:Hk.
  - destruct (decide (key = x)) as [->|Hne].
    + rewrite lookup_insert_eq, Hk. done.
    + rewrite lookup_insert_ne by done.
      destruct (g !! x); simpl; [|done]. by rewrite app_nil_r.
  - destruct (decide (key = x)) as [->|Hne].
    + by rewrite Hk.
    + destruct (g !! x); simpl; [|done]. by rewrite app_nil_r.
Qed.

Lemma addEdge_lookup (g : gmap string (list Neighbor.t)) e x :
  addEdge g e !! x = (fun l => l ++ entriesOf x e) <$> (g !! x).
Proof.
  unfold addEdge. rewrite !pushTo_lookup.
  destruct (g !! x) as [l|]; simpl; [|done].
  unfold entriesOf. by rewrite <- app_assoc.
Qed.

Lemma fold_addEdge_lookup edges (g : gmap string (list Neighbor.t)) x :
  fold_left addEdge edges g !! x =
  (fun l => l ++ flat_map (entriesOf x) edges) <$> (g !! x).
Proof.
  revert g. induction edges as [|e edges IH]; intros g; simpl.
  - destruct (g !! x); simpl; [|done]. by rewrite app_nil_r.
  - rewrite IH, addEdge_lookup.
    destruct (g !! x) as [l|]; simpl; [|done]. by rewrite <- app_assoc.
Qed.

Lemma fold_set_empty_lookup nodes (g : gmap string (list Neighbor.t)) x :
  fold_left (fun g node => <[GraphNode.id node := []]> g) nodes g !! x =
  if decide (x ∈ ids nodes) then Some [] else g !! x.
Proof.
  revert g. induction nodes as [|n nodes IH]; intros g; simpl.
  - destruct (decide (x ∈ [])) as [H|_]; [by apply elem_of_nil in H | done].
  - rewrite IH. unfold ids in *. simpl.
    destruct (decide (x ∈ List.map GraphNode.id nodes)) as [Hin|Hnin].
    + rewrite decide_True; [done | apply elem_of_cons; by right].
    + destruct (decide (x = GraphNode.id n)) as [->|Hne].
      * rewrite lookup_insert_eq. rewrite decide_True; [done|]. apply elem_of_cons. by left.
      * rewrite lookup_insert_ne by done. rewrite decide_False; [done|].
        rewrite elem_of_cons. tauto.
Qed.

Lemma buildAdjacency_lookup nodes edges x :
  buildAdjacency nodes edges !! x =
  if decide (x ∈ ids nodes) then Some (flat_map (entriesOf x) edges) else None.
Proof.
  unfold buildAdjacency. rewrite fold_addEdge_lookup, fold_set_empty_lookup.
  destruct (decide (x ∈ ids nodes)); simpl; [done|]. by rewrite lookup_empty.
Qed.

(** ** The initial state of the search *)

Lemma decide_elem_cons {B : Type} (x a : string) (l : list string) (u v : B) :
  (if decide (x ∈ a :: l) then u else v) =
  (if decide (x ∈ l) then u else if decide (x = a) then u else v).
Proof.
  destruct (decide (x ∈ l)) as [Hin|Hnin].
  - rewrite decide_True; [done | apply elem_of_cons; by right].
  - destruct (decide (x = a)) as [->|Hne].
    + rewrite decide_True; [done | apply elem_of_cons; by left].
    + rewrite decide_False; [done|]. rewrite elem_of_cons. tauto.
Qed.

Lemma initialize_fold nodes (st : Solver.t) :
  (forall x, Solver.distances (fold_left initNode nodes st) !! x =
     if decide (x ∈ ids nodes)
     then Some (if decide (x = "source"%string) then Fin 0 else Infinity)
     else Solver.distances st !! x)
  /\ (forall x, Solver.previous (fold_left initNode nodes st) !! x =
        if decide (x ∈ ids nodes) then Some None else Solver.previous st !! x)
  /\ Solver.pq (fold_left initNode nodes st) = Solver.pq st.
Proof.
  revert st. induction nodes as [|n nodes IH]; intros st.
  - simpl. split; [|split]; [intros x..|done];
      (destruct (decide (x ∈ ids [])) as [H|_]; [by apply elem_of_nil in H | done]).
  - change (fold_left initNode (n :: nodes) st)
      with (fold_left initNode nodes (initNode st n)).
    destruct (IH (initNode st n)) as (Hd & Hp & Hq).
    change (ids (n :: nodes)) with (GraphNode.id n :: ids nodes).
    split; [|split].
    + intros x. rewrite Hd, decide_elem_cons.
      destruct (decide (x ∈ ids nodes)); [done|]. simpl.
      destruct (decide (x = GraphNode.id n)) as [->|Hne].
      * by rewrite lookup_insert_eq.
      * by rewrite lookup_insert_ne.
    + intros x. rewrite Hp, decide_elem_cons.
      destruct (decide (x ∈ ids nodes)); [done|]. simpl.
      destruct (decide (x = GraphNode.id n)) as [->|Hne].
      * by rewrite lookup_insert_eq.
      * by rewrite lookup_insert_ne.
    + by rewrite Hq.
Qed.

Lemma initialize_spec nodes :
  (forall x, Solver.distances (initialize nodes) !! x =
     if decide (x ∈ ids nodes)
     then Some (if decide (x = "source"%string) then Fin 0 else Infinity)
     else None)
  /\ (forall x, Solver.previous (initialize nodes) !! x =
        if decide (x ∈ ids nodes) then Some None else None)
  /\ Solver.pq (initialize nodes) = [("source"%string, Fin 0)].
Proof.
  unfold initialize. simpl.
  destruct (initialize_fold nodes (Solver.mk ∅ ∅ [])) as (Hd & Hp & Hq).
  simpl in *. split; [|split].
  - intros x. rewrite Hd. by rewrite lookup_empty.
  - intros x. rewrite Hp. by rewrite lookup_empty.
  - by rewrite Hq.
Qed.

(** ** One relaxation *)

Lemma relax_cases (u : string) (st : Solver.t) (n : Neighbor.t) :
  (nlt (altDistanceOf st u n)
       (orNumber (Solver.distances st !! Neighbor.nodeId n) Infinity) = false
   /\ relax u st n = st)
  \/
  (nlt (altDistanceOf st u n)
       (orNumber (Solver.distances st !! Neighbor.nodeId n) Infinity) = true
   /\ relax u st n =
      Solver.mk
        (<[Neighbor.nodeId n := altDistanceOf st u n]> (Solver.distances st))
        (<[Neighbor.nodeId n := Some u]> (Solver.previous st))
        (PriorityQueue.enqueue (Neighbor.nodeId n) (altDistanceOf st u n) (Solver.pq st))).
Proof.
  unfold relax, altDistanceOf.
  destruct (nlt _ _); [right | left]; done.
Qed.

Lemma fold_left_invariant {A B : Type} (f : A -> B -> A) (P : A -> Prop)
    (l : list B) (a : A) :
  P a -> (forall a b, b ∈ l -> P a -> P (f a b)) -> P (fold_left f l a).
Proof.
  revert a. induction l as [|b l IH]; intros a Ha Hstep; simpl; [done|].
  apply IH.
  - apply Hstep; [apply elem_of_cons; by left | done].
  - intros a' b' Hb'. apply Hstep. apply elem_of_cons. by right.
Qed.

Lemma dijkstraLoop_unfold fuel graph st :
  dijkstraLoop fuel graph st =
  match Solver.pq st with
  | [] => Returned st
  | it :: rest =>
      match fuel with
      | O => OutOfFuel
      | S fuel' =>
          let currentNodeId := PriorityQueue.element it in
          let st1 := Solver.mk (Solver.distances st) (Solver.previous st) rest in
          if decide (currentNodeId = ""%string) then Returned st1
          else if decide (currentNodeId = "destination"%string) then Returned st1
          else
            let neighbors := default [] (graph !! currentNodeId) in
            dijkstraLoop fuel' graph (fold_left (relax currentNodeId) neighbors st1)
      end
  end.
Proof. destruct st as [d p [|it rest]]; destruct fuel; reflexivity. Qed.

(** ** Once the predecessor map is cyclic, it stays cyclic and the backward
    walk never ends *)

Section Cycle.
Variable nodes : list GraphNode.t.
Variable graph : gmap string (list Neighbor.t).
Hypothesis graph_closed :
  forall x l n, graph !! x = Some l -> n ∈ l -> Neighbor.nodeId n ∈ ids nodes.

Lemma relax_cyclic u st n :
  u ∈ ids nodes -> u <> ""%string -> Neighbor.nodeId n ∈ ids nodes ->
  cyclic (ids nodes) (Solver.previous st) ->
  cyclic (ids nodes) (Solver.previous (relax u st n)).
Proof.
  intros Hu Hne Hn Hc.
  destruct (relax_cases u st n) as [[_ ->]|[_ ->]]; [done|]. simpl.
  intros x Hx. destruct (decide (x = Neighbor.nodeId n)) as [->|Hxn].
  - exists u. by rewrite lookup_insert_eq.
  - rewrite lookup_insert_ne by done. by apply Hc.
Qed.

Lemma relax_queuedIn u st n :
  Neighbor.nodeId n ∈ ids nodes ->
  queuedIn (ids nodes) (Solver.pq st) ->
  queuedIn (ids nodes) (Solver.pq (relax u st n)).
Proof.
  intros Hn Hq.
  destruct (relax_cases u st n) as [[_ ->]|[_ ->]]; [done|]. simpl.
  intros it Hit. apply enqueue_elem in Hit as [->|Hit]; [done | by apply Hq].
Qed.

Lemma dijkstraLoop_cyclic fuel st st' :
  cyclic (ids nodes) (Solver.previous st) ->
  queuedIn (ids nodes) (Solver.pq st) ->
  dijkstraLoop fuel graph st = Returned st' ->
  cyclic (ids nodes) (Solver.previous st').
Proof.
  revert st. induction fuel as [|fuel IH]; intros st Hc Hq;
    rewrite dijkstraLoop_unfold.
  - destruct (Solver.pq st); [|discriminate]. by intros [= <-].
  - destruct (Solver.pq st) as [|it rest] eqn:Hpq; [by intros [= <-]|]. cbv zeta.
    destruct (decide (PriorityQueue.element it = ""%string)) as [|Hne];
      [by intros [= <-]|].
    destruct (decide (PriorityQueue.element it = "destination"%string)) as [|Hnd];
      [by intros [= <-]|].
    assert (Hu : PriorityQueue.element it ∈ ids nodes).
    { apply Hq. apply elem_of_cons. by left. }
    assert (Hrest : queuedIn (ids nodes) rest).
    { intros it' Hit'. apply Hq. apply elem_of_cons. by right. }
    pose (l := default [] (graph !! PriorityQueue.element it)).
    assert (Hl : forall n, n ∈ l -> Neighbor.nodeId n ∈ ids nodes).
    { intros n Hn. subst l.
      destruct (graph !! PriorityQueue.element it) as [l'|] eqn:Hg; simpl in Hn.
      - by eapply graph_closed.
      - by apply elem_of_nil in Hn. }
    fold l. intros Hloop.
    assert (Hinv : cyclic (ids nodes) (Solver.previous
                     (fold_left (relax (PriorityQueue.element it)) l
                        (Solver.mk (Solver.distances st) (Solver.previous st) rest)))
                   /\ queuedIn (ids nodes) (Solver.pq
                     (fold_left (relax (PriorityQueue.element it)) l
                        (Solver.mk (Solver.distances st) (Solver.previous st) rest)))).
    { apply (fold_left_invariant (relax (PriorityQueue.element it))
               (fun s => cyclic (ids nodes) (Solver.previous s)
                         /\ queuedIn (ids nodes) (Solver.pq s))).
      - done.
      - intros s n Hn [Hc' Hq']. split.
        + apply relax_cyclic; auto.
        + apply relax_queuedIn; auto. }
    destruct Hinv as [Hc2 Hq2]. by eapply IH.
Qed.

Lemma reconstructPath_cyclic fuel previous cid path :
  cyclic (ids nodes) previous -> cid ∈ ids nodes ->
  reconstructPath fuel nodes previous (Some cid) path = OutOfFuel.
Proof.
  intros Hc. revert cid path. induction fuel as [|fuel IH]; intros cid path Hcid.
  - done.
  - simpl. destruct (Hc cid Hcid) as (y & Hy & Hyin & Hyne).
    rewrite Hy. simpl. rewrite decide_False by done. by apply IH.
Qed.

End Cycle.

(** ** The first iteration: every neighbor of the source gets the source as
    predecessor *)

Section FirstIteration.
Variable nodes : list GraphNode.t.
Variable adjS : list Neighbor.t.
Hypothesis source_in : "source"%string ∈ ids nodes.
Hypothesis adjS_in : forall n, n ∈ adjS -> Neighbor.nodeId n ∈ ids nodes.
Hypothesis adjS_not_source : forall n, n ∈ adjS -> Neighbor.nodeId n <> "source"%string.

Lemma altDistanceOf_source st n :
  Solver.distances st !! "source"%string = Some (Fin 0) ->
  altDistanceOf st "source" n = Fin (0 + Neighbor.weight n).
Proof. unfold altDistanceOf. intros ->. reflexivity. Qed.

Lemma firstInv_initial :
  firstInv nodes adjS
    (Solver.mk (Solver.distances (initialize nodes))
               (Solver.previous (initialize nodes)) []).
Proof.
  destruct (initialize_spec nodes) as (Hd & Hp & _).
  unfold firstInv. simpl. repeat split.
  - rewrite Hd. by rewrite decide_True.
  - rewrite Hp. by rewrite decide_True.
  - intros x Hx Hne. left. rewrite Hd, Hp. by repeat case_decide.
  - intros it Hit. by apply elem_of_nil in Hit.
Qed.

Lemma relax_firstInv st n :
  n ∈ adjS -> firstInv nodes adjS st ->
  firstInv nodes adjS (relax "source" st n) /\ reached n (relax "source" st n).
Proof.
  intros Hn (Hds & Hps & Hx & Hq & Hord).
  pose proof (adjS_in n Hn) as Hin. pose proof (adjS_not_source n Hn) as Hns.
  destruct (relax_cases "source" st n) as [[Hlt ->]|[Hlt ->]];
    rewrite (altDistanceOf_source st n Hds) in *.
  - split; [by repeat split|].
    destruct (Hx _ Hin Hns) as [[Hd _]|(q & Hd & Hp & Hqin)];
      rewrite Hd in Hlt; cbn [orNumber truthy] in Hlt; [discriminate|].
    destruct (negb (Qeq_bool q 0)); [|discriminate].
    apply nlt_false_nle in Hlt. split; [done|]. by exists (Fin q).
  - simpl. split.
    + repeat split; simpl.
      * by rewrite lookup_insert_ne.
      * by rewrite lookup_insert_ne.
      * intros x Hxin Hxne. destruct (decide (x = Neighbor.nodeId n)) as [->|Hne].
        -- right. exists (0 + Neighbor.weight n)%Q.
           rewrite !lookup_insert_eq. repeat split. apply enqueue_elem. by left.
        -- rewrite !lookup_insert_ne by done.
           destruct (Hx _ Hxin Hxne) as [?|(q & ? & ? & ?)]; [by left|].
           right. exists q. repeat split; [done..|]. apply enqueue_elem. by right.
      * intros it Hit. apply enqueue_elem in Hit as [->|Hit]; [by exists n | by apply Hq].
      * apply enqueue_ordered.
    + split; simpl.
      * by rewrite lookup_insert_eq.
      * exists (Fin (0 + Neighbor.weight n)). split; [|apply nle_refl].
        apply enqueue_elem. by left.
Qed.

Lemma relax_reached st n n' :
  n' ∈ adjS -> firstInv nodes adjS st -> reached n st ->
  reached n (relax "source" st n').
Proof.
  intros Hn' _ (Hp & p & Hpin & Hple).
  destruct (relax_cases "source" st n') as [[_ ->]|[_ ->]]; [by split; [|exists p]|].
  split; simpl.
  - destruct (decide (Neighbor.nodeId n = Neighbor.nodeId n')) as [->|Hne].
    + by rewrite lookup_insert_eq.
    + by rewrite lookup_insert_ne.
  - exists p. split; [|done]. apply enqueue_elem. by right.
Qed.

Lemma fold_relax_first (l : list Neighbor.t) st :
  (forall n, n ∈ l -> n ∈ adjS) -> firstInv nodes adjS st ->
  firstInv nodes adjS (fold_left (relax "source") l st)
  /\ forall n, n ∈ l -> reached n (fold_left (relax "source") l st).
Proof.
  revert st. induction l as [|n l IH]; intros st Hsub Hinv; simpl.
  - split; [done|]. intros n Hn. by apply elem_of_nil in Hn.
  - assert (Hn : n ∈ adjS) by (apply Hsub, elem_of_cons; by left).
    assert (Hl : forall n', n' ∈ l -> n' ∈ adjS).
    { intros n' Hn'. apply Hsub, elem_of_cons. by right. }
    destruct (relax_firstInv st n Hn Hinv) as [Hinv2 Hreached].
    destruct (IH _ Hl Hinv2) as [Hinv3 Hall]. split; [done|].
    intros n' Hn'. apply elem_of_cons in Hn' as [->|Hn']; [|by apply Hall].
    pose proof (fold_left_invariant (relax "source")
      (fun s => firstInv nodes adjS s /\ reached n s) l
      (relax "source" st n)) as Hfold.
    apply Hfold; [done|].
    intros s b Hb [Hs Hr]. split.
    + by apply relax_firstInv; [apply Hl|].
    + by apply relax_reached; [apply Hl| |].
Qed.

Lemma afterSource_spec :
  firstInv nodes adjS (afterSource nodes adjS)
  /\ forall n, n ∈ adjS -> reached n (afterSource nodes adjS).
Proof.
  unfold afterSource. apply fold_relax_first; [done | apply firstInv_initial].
Qed.

Lemma dijkstraLoop_first fuel (graph : gmap string (list Neighbor.t)) :
  graph !! "source"%string = Some adjS ->
  dijkstraLoop (S fuel) graph (initialize nodes) =
  dijkstraLoop fuel graph (afterSource nodes adjS).
Proof.
  intros Hg. destruct (initialize_spec nodes) as (_ & _ & Hq).
  rewrite dijkstraLoop_unfold, Hq. simpl. rewrite Hg. reflexivity.
Qed.

End FirstIteration.

Lemma Forall2_elem_r {A B : Type} (R : A -> B -> Prop) l k y :
  Forall2 R l k -> y ∈ k -> exists x, x ∈ l /\ R x y.
Proof.
  induction 1 as [|x y' l k HR _ IH]; intros Hy.
  - by apply elem_of_nil in Hy.
  - apply elem_of_cons in Hy as [->|Hy].
    + exists x. split; [apply elem_of_cons; by left | done].
    + destruct (IH Hy) as (x' & ? & ?). exists x'.
      split; [apply elem_of_cons; by right | done].
Qed.

Lemma Forall2_elem_l {A B : Type} (R : A -> B -> Prop) l k x :
  Forall2 R l k -> x ∈ l -> exists y, y ∈ k /\ R x y.
Proof.
  induction 1 as [|x' y l k HR _ IH]; intros Hx.
  - by apply elem_of_nil in Hx.
  - apply elem_of_cons in Hx as [->|Hx].
    + exists y. split; [apply elem_of_cons; by left | done].
    + destruct (IH Hx) as (y' & ? & ?). exists y'.
      split; [apply elem_of_cons; by right | done].
Qed.

Lemma elem_of_flat_map {A B : Type} (f : A -> list B) (l : list A) (y : B) :
  y ∈ flat_map f l <-> exists x, x ∈ l /\ y ∈ f x.
Proof.
  rewrite list_elem_of_In, in_flat_map. split; intros (x & Hx & Hy); exists x.
  - by rewrite !list_elem_of_In.
  - by rewrite <- !list_elem_of_In.
Qed.

Lemma entriesOf_from_only x (l : list GraphEdge.t) :
  (forall e, e ∈ l -> GraphEdge.from e = x /\ GraphEdge.to e <> x) ->
  flat_map (entriesOf x) l = List.map toNeighbor l.
Proof.
  induction l as [|e l IH]; intros H; simpl; [done|].
  destruct (H e) as [Hf Ht]; [apply elem_of_cons; by left|].
  rewrite IH by (intros e' He'; apply H, elem_of_cons; by right).
  unfold entriesOf. rewrite decide_True by done. by rewrite decide_False.
Qed.

Lemma entriesOf_untouched x (l : list GraphEdge.t) :
  (forall e, e ∈ l -> GraphEdge.from e <> x /\ GraphEdge.to e <> x) ->
  flat_map (entriesOf x) l = [].
Proof.
  induction l as [|e l IH]; intros H; simpl; [done|].
  destruct (H e) as [Hf Ht]; [apply elem_of_cons; by left|].
  rewrite IH by (intros e' He'; apply H, elem_of_cons; by right).
  unfold entriesOf. by rewrite !decide_False.
Qed.

Lemma dijkstraLoop_no_TypeError fuel graph st :
  dijkstraLoop fuel graph st <> TypeError.
Proof.
  revert st. induction fuel as [|fuel IH]; intros st; rewrite dijkstraLoop_unfold.
  - by destruct (Solver.pq st).
  - destruct (Solver.pq st) as [|it rest]; [done|]. simpl.
    repeat case_decide; first [done | apply IH].
Qed.

Lemma relax_distance_Fin u st n x :
  (exists q, Solver.distances st !! x = Some (Fin q)) ->
  exists q, Solver.distances (relax u st n) !! x = Some (Fin q).
Proof.
  intros Hx. destruct (relax_cases u st n) as [[_ ->]|[Hlt ->]]; [done|]. simpl.
  destruct (decide (x = Neighbor.nodeId n)) as [->|Hne].
  - rewrite lookup_insert_eq. apply nlt_true_inv in Hlt as (q & -> & _). by exists q.
  - by rewrite lookup_insert_ne.
Qed.

(** ** Relaxing an edge back to the source overwrites its predecessor *)

Section BackEdge.
Variables restIds allIds : list string.
Variable u : string.
Hypothesis u_rest : u ∈ restIds.
Hypothesis u_all : u ∈ allIds.
Hypothesis u_nonempty : u <> ""%string.

Lemma relax_restSettled st n :
  Neighbor.nodeId n ∈ allIds ->
  restSettled restIds allIds st -> restSettled restIds allIds (relax u st n).
Proof.
  intros Hn [Hrest Hq]. split.
  - intros x Hx. destruct (Hrest x Hx) as [Hd Hp]. split.
    + by apply relax_distance_Fin.
    + destruct (relax_cases u st n) as [[_ ->]|[_ ->]]; [done|]. simpl.
      destruct (decide (x = Neighbor.nodeId n)) as [->|Hne].
      * exists u. by rewrite lookup_insert_eq.
      * by rewrite lookup_insert_ne.
  - destruct (relax_cases u st n) as [[_ ->]|[_ ->]]; [done|]. simpl.
    intros it Hit. apply enqueue_elem in Hit as [->|Hit]; [done | by apply Hq].
Qed.

Lemma relax_sourceLinked st n :
  sourceLinked allIds st -> sourceLinked allIds (relax u st n).
Proof.
  intros (y & Hy & Hyin & Hyne).
  destruct (relax_cases u st n) as [[_ ->]|[_ ->]]; [by exists y|].
  unfold sourceLinked. simpl.
  destruct (decide ("source"%string = Neighbor.nodeId n)) as [<-|Hne].
  - exists u. by rewrite lookup_insert_eq.
  - exists y. by rewrite lookup_insert_ne.
Qed.

Lemma relax_source_state st n :
  sourceFresh st \/ sourceLinked allIds st ->
  sourceFresh (relax u st n) \/ sourceLinked allIds (relax u st n).
Proof.
  intros [Hfresh|Hlinked]; [|right; by apply relax_sourceLinked].
  destruct (relax_cases u st n) as [[_ ->]|[_ ->]]; [by left|].
  destruct (decide ("source"%string = Neighbor.nodeId n)) as [<-|Hne].
  - right. exists u. simpl. by rewrite lookup_insert_eq.
  - left. destruct Hfresh as (q & Hq & Hf). exists q. simpl.
    by rewrite lookup_insert_ne.
Qed.

Lemma relax_back_edge st n :
  Neighbor.nodeId n = "source"%string ->
  restSettled restIds allIds st ->
  sourceFresh st \/ sourceLinked allIds st ->
  sourceLinked allIds (relax u st n).
Proof.
  intros Hn [Hrest _] [(q & Hq & Hf)|Hlinked]; [|by apply relax_sourceLinked].
  destruct (Hrest u u_rest) as [(qu & Hqu) _].
  destruct (relax_cases u st n) as [[Hlt _]|[_ ->]].
  - exfalso. unfold altDistanceOf in Hlt. rewrite Hn, Hq, Hqu in Hlt.
    cbn [orNumber] in Hlt. rewrite Hf in Hlt.
    destruct (truthy (Fin qu)); discriminate.
  - exists u. simpl. rewrite Hn. by rewrite lookup_insert_eq.
Qed.

Lemma fold_relax_back_edge (l : list Neighbor.t) st n :
  (forall n', n' ∈ l -> Neighbor.nodeId n' ∈ allIds) ->
  n ∈ l -> Neighbor.nodeId n = "source"%string ->
  restSettled restIds allIds st -> sourceFresh st ->
  restSettled restIds allIds (fold_left (relax u) l st)
  /\ sourceLinked allIds (fold_left (relax u) l st).
Proof.
  intros Hl Hn Hns Hrest Hfresh.
  apply list_elem_of_split in Hn as (l1 & l2 & ->).
  rewrite fold_left_app. simpl.
  assert (H1 : restSettled restIds allIds (fold_left (relax u) l1 st)
               /\ (sourceFresh (fold_left (relax u) l1 st)
                   \/ sourceLinked allIds (fold_left (relax u) l1 st))).
  { apply (fold_left_invariant (relax u)
             (fun s => restSettled restIds allIds s
                       /\ (sourceFresh s \/ sourceLinked allIds s))).
    - split; [done | by left].
    - intros s b Hb [Hs Hsrc]. split.
      + apply relax_restSettled; [|done]. apply Hl, elem_of_app. by left.
      + by apply relax_source_state. }
  destruct H1 as [Hrest1 Hsrc1].
  apply (fold_left_invariant (relax u)
           (fun s => restSettled restIds allIds s /\ sourceLinked allIds s)).
  - split.
    + apply relax_restSettled; [|done]. apply Hl, elem_of_app. right.
      apply elem_of_cons. by left.
    + by apply relax_back_edge.
  - intros s b Hb [Hs Hsrc]. split.
    + apply relax_restSettled; [|done]. apply Hl, elem_of_app. right.
      apply elem_of_cons. by right.
    + by apply relax_sourceLinked.
Qed.

End BackEdge.

Lemma lighter_or_not (l : list GraphEdge.t) (c : Q) :
  (exists e, e ∈ l /\ (GraphEdge.weight e < c)%Q)
  \/ (forall e, e ∈ l -> (c <= GraphEdge.weight e)%Q).
Proof.
  induction l as [|e l [(e' & He' & Hlt)|Hall]].
  - right. intros e He. by apply elem_of_nil in He.
  - left. exists e'. split; [apply elem_of_cons; by right | done].
  - destruct (Qlt_le_dec (GraphEdge.weight e) c) as [Hlt|Hle].
    + left. exists e. split; [apply elem_of_cons; by left | done].
    + right. intros e' He'. apply elem_of_cons in He' as [->|He']; [done | by apply Hall].
Qed.

(** ** Graphs in which the source is joined to every other node

    The shape [generateGraph] produces: the node list starts with the source
    and the destination, the edge list starts with the edges leaving the
    source ([eD] to the destination, then [esW] to the waypoints), and no
    later edge touches the source. *)

Section Star.
Variable M : MathLib.
Variables sN dN : GraphNode.t.
Variable wps : list GraphNode.t.
Variable eD : GraphEdge.t.
Variables esW es2 : list GraphEdge.t.

Hypothesis sN_id : GraphNode.id sN = "source"%string.
Hypothesis dN_id : GraphNode.id dN = "destination"%string.
Hypothesis wps_ids :
  forall w, w ∈ wps ->
    GraphNode.id w <> "source"%string /\ GraphNode.id w <> "destination"%string
    /\ GraphNode.id w <> ""%string.
Hypothesis eD_ends :
  GraphEdge.from eD = "source"%string /\ GraphEdge.to eD = "destination"%string.
Hypothesis esW_ends :
  Forall2 (fun w e => GraphEdge.from e = "source"%string
                      /\ GraphEdge.to e = GraphNode.id w) wps esW.
Hypothesis es2_ends :
  forall e, e ∈ es2 ->
    GraphEdge.from e ∈ ids (dN :: wps) /\ GraphEdge.to e ∈ ids (dN :: wps).

Let nodes := sN :: dN :: wps.
Let edges := (eD :: esW) ++ es2.
Let graph := buildAdjacency nodes edges.
Let adjS := List.map toNeighbor (eD :: esW).

Lemma star_source_in : "source"%string ∈ ids nodes.
Proof. unfold nodes, ids. simpl. rewrite sN_id. apply elem_of_cons. by left. Qed.

Lemma star_dest_in : "destination"%string ∈ ids nodes.
Proof.
  unfold nodes, ids. simpl. rewrite dN_id. apply elem_of_cons. right.
  apply elem_of_cons. by left.
Qed.

Lemma star_rest_ids x :
  x ∈ ids (dN :: wps) -> x <> "source"%string /\ x <> ""%string.
Proof.
  unfold ids. simpl. intros Hx. apply elem_of_cons in Hx as [->|Hx].
  - rewrite dN_id. done.
  - apply list_elem_of_fmap in Hx as (w & -> & Hw).
    destruct (wps_ids w Hw) as (? & ? & ?). done.
Qed.

Lemma star_rest_in x : x ∈ ids (dN :: wps) -> x ∈ ids nodes.
Proof. intros Hx. unfold nodes, ids. simpl. apply elem_of_cons. by right. Qed.

Lemma star_esW_to e : e ∈ esW ->
  GraphEdge.from e = "source"%string /\ GraphEdge.to e ∈ ids wps
  /\ GraphEdge.to e <> "destination"%string.
Proof.
  intros He.
  destruct (Forall2_elem_r _ _ _ _ esW_ends He) as (w & Hw & Hf & Ht).
  split; [done|]. rewrite Ht. split.
  - unfold ids. apply list_elem_of_fmap. by exists w.
  - by apply wps_ids.
Qed.

Lemma star_wps_edge w : w ∈ wps ->
  exists e, e ∈ esW /\ GraphEdge.to e = GraphNode.id w.
Proof.
  intros Hw.
  destruct (Forall2_elem_l _ _ _ _ esW_ends Hw) as (e & He & _ & Ht).
  by exists e.
Qed.

Lemma star_edge_ends e : e ∈ edges ->
  GraphEdge.from e ∈ ids nodes /\ GraphEdge.to e ∈ ids nodes.
Proof.
  unfold edges. intros He. apply elem_of_app in He as [He|He].
  - apply elem_of_cons in He as [->|He].
    + destruct eD_ends as [-> ->]. split; [apply star_source_in | apply star_dest_in].
    + destruct (star_esW_to e He) as (-> & Hto & _). split; [apply star_source_in|].
      apply star_rest_in. unfold ids in *. simpl. apply elem_of_cons. by right.
  - destruct (es2_ends e He). split; by apply star_rest_in.
Qed.

Lemma star_graph_closed x l n :
  graph !! x = Some l -> n ∈ l -> Neighbor.nodeId n ∈ ids nodes.
Proof.
  unfold graph. rewrite buildAdjacency_lookup.
  case_decide; [|discriminate]. intros Hl Hn.
  assert (Heq : l = flat_map (entriesOf x) edges) by congruence.
  rewrite Heq in Hn. clear Hl Heq.
  apply elem_of_flat_map in Hn as (e & He & Hn).
  destruct (star_edge_ends e He) as [Hf Ht].
  unfold entriesOf in Hn. apply elem_of_app in Hn as [Hn|Hn];
    case_decide; try (by apply elem_of_nil in Hn);
    apply list_elem_of_singleton in Hn as ->; done.
Qed.

Lemma star_graph_source : graph !! "source"%string = Some adjS.
Proof.
  unfold graph. rewrite buildAdjacency_lookup.
  rewrite decide_True by apply star_source_in. f_equal.
  unfold edges. rewrite flat_map_app.
  rewrite (entriesOf_untouched _ es2), app_nil_r.
  - apply entriesOf_from_only. intros e He.
    apply elem_of_cons in He as [->|He].
    + destruct eD_ends as [-> ->]. done.
    + destruct (star_esW_to e He) as (-> & Hto & _). split; [done|].
      apply (star_rest_ids (GraphEdge.to e)).
      unfold ids in *. simpl. apply elem_of_cons. by right.
  - intros e He. destruct (es2_ends e He) as [Hf Ht].
    split; [by apply (star_rest_ids _ Hf) | by apply (star_rest_ids _ Ht)].
Qed.

Lemma star_adjS_in n : n ∈ adjS -> Neighbor.nodeId n ∈ ids (dN :: wps).
Proof.
  unfold adjS. intros Hn. apply list_elem_of_fmap in Hn as (e & -> & He). simpl.
  apply elem_of_cons in He as [->|He].
  - destruct eD_ends as [_ ->]. unfold ids. simpl. rewrite dN_id.
    apply elem_of_cons. by left.
  - destruct (star_esW_to e He) as (_ & Hto & _).
    unfold ids in *. simpl. apply elem_of_cons. by right.
Qed.

Lemma star_rest_adjS x :
  x ∈ ids (dN :: wps) -> exists n, n ∈ adjS /\ Neighbor.nodeId n = x.
Proof.
  unfold ids, adjS. simpl. intros Hx. apply elem_of_cons in Hx as [->|Hx].
  - exists (toNeighbor eD). split; [apply elem_of_cons; by left|].
    simpl. destruct eD_ends as [_ ->]. by rewrite dN_id.
  - apply list_elem_of_fmap in Hx as (w & -> & Hw).
    destruct (star_wps_edge w Hw) as (e & He & Hto).
    exists (toNeighbor e). split; [|done].
    apply elem_of_cons. right. apply list_elem_of_fmap. by exists e.
Qed.

Lemma star_graph_back x :
  x ∈ ids (dN :: wps) ->
  exists l n, graph !! x = Some l /\ n ∈ l /\ Neighbor.nodeId n = "source"%string.
Proof.
  intros Hx. destruct (star_rest_adjS x Hx) as (n & Hn & Hnx).
  unfold adjS in Hn. apply list_elem_of_fmap in Hn as (e & -> & He).
  simpl in Hnx.
  assert (Hfrom : GraphEdge.from e = "source"%string).
  { apply elem_of_cons in He as [->|He]; [apply eD_ends | by apply star_esW_to]. }
  exists (flat_map (entriesOf x) edges),
         (Neighbor.mk (GraphEdge.from e) (GraphEdge.weight e) (GraphEdge.distance e)).
  split; [|split; [|done]].
  - unfold graph. rewrite buildAdjacency_lookup.
    by rewrite decide_True by (by apply star_rest_in).
  - apply elem_of_flat_map. exists e. split.
    + unfold edges. apply elem_of_app. by left.
    + unfold entriesOf. apply elem_of_app. right.
      rewrite decide_True by done. apply list_elem_of_singleton. done.
Qed.

Lemma star_after :
  firstInv nodes adjS (afterSource nodes adjS)
  /\ forall n, n ∈ adjS -> reached n (afterSource nodes adjS).
Proof.
  apply afterSource_spec.
  - apply star_source_in.
  - intros n Hn. by apply star_rest_in, star_adjS_in.
  - intros n Hn. by apply (star_rest_ids _ (star_adjS_in n Hn)).
Qed.

Lemma star_ids_nodes : ids nodes = "source"%string :: ids (dN :: wps).
Proof. unfold nodes, ids. simpl. by rewrite sN_id. Qed.

(** After the first iteration every node but the source is settled and the
    source is fresh. *)
Lemma star_after_settled rest :
  (forall it, it ∈ rest -> it ∈ Solver.pq (afterSource nodes adjS)) ->
  restSettled (ids (dN :: wps)) (ids nodes)
    (Solver.mk (Solver.distances (afterSource nodes adjS))
               (Solver.previous (afterSource nodes adjS)) rest)
  /\ sourceFresh
       (Solver.mk (Solver.distances (afterSource nodes adjS))
                  (Solver.previous (afterSource nodes adjS)) rest).
Proof.
  intros Hsub. destruct star_after as [(Hds & Hps & Hx & Hq & Hord) Hreach].
  split; [split|].
  - intros x Hx'. simpl.
    destruct (star_rest_adjS x Hx') as (n & Hn & <-).
    destruct (Hreach n Hn) as [Hp _].
    destruct (Hx (Neighbor.nodeId n)) as [[_ Hp']|(q & Hd & _ & _)].
    + by apply star_rest_in.
    + by apply (star_rest_ids _ Hx').
    + congruence.
    + split; [by exists q|]. exists "source"%string.
      split; [done|]. split; [apply star_source_in | done].
  - intros it Hit. simpl in Hit.
    destruct (Hq it (Hsub it Hit)) as (n & Hn & ->). simpl.
    by apply star_rest_in, star_adjS_in.
  - exists 0%Q. simpl. split; [done | reflexivity].
Qed.

(** The queue after the first iteration is not empty. *)
Lemma star_after_queue :
  exists it rest, Solver.pq (afterSource nodes adjS) = it :: rest.
Proof.
  destruct star_after as [_ Hreach].
  destruct (Hreach (toNeighbor eD)) as (_ & p & Hp & _).
  { unfold adjS. simpl. apply elem_of_cons. by left. }
  destruct (Solver.pq (afterSource nodes adjS)) as [|it rest]; [|by exists it, rest].
  by apply elem_of_nil in Hp.
Qed.

(** If a waypoint edge is strictly lighter than the direct edge, the node
    dequeued second is a waypoint. *)
Lemma star_head_waypoint e it rest :
  e ∈ esW -> (GraphEdge.weight e < GraphEdge.weight eD)%Q ->
  Solver.pq (afterSource nodes adjS) = it :: rest ->
  PriorityQueue.element it ∈ ids wps.
Proof.
  intros He Hlt Hpq.
  destruct star_after as [(_ & _ & _ & Hq & Hord) Hreach].
  rewrite Hpq in Hq, Hord.
  destruct (Hq it) as (n & Hn & Hit); [apply elem_of_cons; by left|].
  unfold adjS in Hn. apply list_elem_of_fmap in Hn as (e' & -> & He').
  apply elem_of_cons in He' as [->|He'].
  - exfalso.
    destruct (Hreach (toNeighbor e)) as (_ & p & Hp & Hple).
    { unfold adjS. apply list_elem_of_fmap. exists e. split; [done|].
      apply elem_of_cons. by right. }
    rewrite Hpq in Hp. simpl in Hple.
    assert (Hle : nle (PriorityQueue.priority it) p).
    { apply elem_of_cons in Hp as [<-|Hp]; [apply nle_refl|].
      destruct Hord as [Hhead _]. by apply (Hhead _ Hp). }
    rewrite Hit in Hle.
    pose proof (nle_trans (Fin (0 + GraphEdge.weight eD)) p
                  (Fin (0 + GraphEdge.weight e)) Hle Hple) as Hbad.
    simpl in Hbad.
    apply (Qlt_not_le _ _ Hlt). lra.
  - rewrite Hit. simpl. by apply star_esW_to.
Qed.

Lemma star_initial_queue :
  Solver.pq (initialize nodes) = [("source"%string, Fin 0)].
Proof. by destruct (initialize_spec nodes) as (_ & _ & ?). Qed.

(** A lighter waypoint edge makes the search loop forever: the waypoint is
    dequeued before the destination, relaxes the edge back to the source, and
    the predecessor map becomes cyclic. *)
Lemma star_diverges e fuel :
  e ∈ esW -> (GraphEdge.weight e < GraphEdge.weight eD)%Q ->
  solve M fuel nodes edges = OutOfFuel.
Proof.
  intros He Hlt. unfold solve. fold graph.
  destruct fuel as [|fuel].
  { rewrite dijkstraLoop_unfold, star_initial_queue. done. }
  rewrite (dijkstraLoop_first nodes adjS fuel graph star_graph_source).
  destruct star_after_queue as (it & rest & Hpq).
  pose proof (star_head_waypoint e it rest He Hlt Hpq) as Hhead.
  assert (Hu : PriorityQueue.element it ∈ ids (dN :: wps)).
  { unfold ids in *. simpl. apply elem_of_cons. by right. }
  assert (Hnd : PriorityQueue.element it <> "destination"%string).
  { unfold ids in Hhead. apply list_elem_of_fmap in Hhead as (w & -> & Hw).
    by apply wps_ids. }
  destruct (star_rest_ids _ Hu) as [Hns Hne].
  rewrite dijkstraLoop_unfold, Hpq.
  destruct fuel as [|fuel]; [done|]. cbv zeta.
  rewrite decide_False by done. rewrite decide_False by done.
  destruct (star_graph_back _ Hu) as (l & n & Hl & Hn & Hnsrc).
  rewrite Hl. cbn [default].
  destruct (star_after_settled rest) as [Hsettled Hfresh].
  { intros it' Hit'. rewrite Hpq. apply elem_of_cons. by right. }
  destruct (fold_relax_back_edge (ids (dN :: wps)) (ids nodes)
              (PriorityQueue.element it) Hu (star_rest_in _ Hu) Hne l
              (Solver.mk (Solver.distances (afterSource nodes adjS))
                         (Solver.previous (afterSource nodes adjS)) rest) n)
    as [[Hrest Hq] Hlinked];
    [intros n' Hn'; by eapply star_graph_closed | done.. |].
  match goal with |- context [dijkstraLoop fuel graph ?s] => set (st2 := s) in * end.
  assert (Hcyc : cyclic (ids nodes) (Solver.previous st2)).
  { intros x Hx. rewrite star_ids_nodes in Hx.
    apply elem_of_cons in Hx as [->|Hx]; [exact Hlinked | by apply Hrest]. }
  destruct (dijkstraLoop fuel graph st2) as [st'| |] eqn:Hloop; [|by eapply dijkstraLoop_no_TypeError in Hloop|done].
  rewrite bind_Returned_eq.
  rewrite (reconstructPath_cyclic nodes (S (S fuel)) (Solver.previous st') "destination" []);
    [done| |apply star_dest_in].
  by eapply (dijkstraLoop_cyclic nodes graph star_graph_closed fuel st2 st').
Qed.

(** If no waypoint edge is lighter than the direct edge, the destination is
    at the front of the queue after the first iteration. *)
Lemma star_head_destination :
  (forall e, e ∈ esW -> (GraphEdge.weight eD <= GraphEdge.weight e)%Q) ->
  exists tail,
    Solver.pq (afterSource nodes adjS)
    = ("destination"%string, Fin (0 + GraphEdge.weight eD)) :: tail.
Proof.
  intros Hle. unfold afterSource, adjS.
  change (List.map toNeighbor (eD :: esW))
    with (toNeighbor eD :: List.map toNeighbor esW).
  cbn [fold_left].
  set (st0 := Solver.mk (Solver.distances (initialize nodes))
                        (Solver.previous (initialize nodes)) []).
  assert (Hinv0 : firstInv nodes adjS st0).
  { apply firstInv_initial, star_source_in. }
  assert (HeD : toNeighbor eD ∈ adjS).
  { unfold adjS. simpl. apply elem_of_cons. by left. }
  assert (Hin : forall n, n ∈ adjS -> Neighbor.nodeId n ∈ ids nodes).
  { intros n Hn. by apply star_rest_in, star_adjS_in. }
  assert (Hns : forall n, n ∈ adjS -> Neighbor.nodeId n <> "source"%string).
  { intros n Hn. by apply (star_rest_ids _ (star_adjS_in n Hn)). }
  apply (fold_left_invariant (relax "source")
           (fun s => firstInv nodes adjS s
                     /\ exists tail, Solver.pq s
                        = ("destination"%string, Fin (0 + GraphEdge.weight eD)) :: tail)).
  - split; [by apply relax_firstInv|].
    destruct (relax_cases "source" st0 (toNeighbor eD)) as [[Hlt _]|[_ ->]].
    + exfalso. destruct (initialize_spec nodes) as (Hd & _ & _).
      cbn [toNeighbor Neighbor.nodeId] in Hlt.
      destruct eD_ends as [_ Hto]. rewrite Hto in Hlt.
      unfold st0 in Hlt. cbn [Solver.distances] in Hlt.
      rewrite (altDistanceOf_source _ _ (proj1 Hinv0)) in Hlt.
      cbn [Solver.distances] in Hlt. rewrite Hd in Hlt.
      rewrite decide_True in Hlt by apply star_dest_in.
      rewrite decide_False in Hlt by done. discriminate.
    + rewrite (altDistanceOf_source _ _ (proj1 Hinv0)).
      cbn [Solver.pq toNeighbor Neighbor.nodeId Neighbor.weight].
      destruct eD_ends as [_ ->]. by exists [].
  - intros s b Hb [Hinv (tail & Hpq)].
    assert (Hb' : b ∈ adjS).
    { unfold adjS. simpl. apply elem_of_cons. by right. }
    split; [by apply relax_firstInv|].
    destruct (relax_cases "source" s b) as [[_ ->]|[_ ->]]; [by exists tail|].
    rewrite (altDistanceOf_source _ _ (proj1 Hinv)).
    cbn [Solver.pq]. rewrite Hpq.
    destruct Hinv as (_ & _ & _ & _ & Hord). rewrite Hpq in Hord.
    destruct Hord as [Hhead _].
    eexists. apply enqueue_head; [exact Hhead|].
    apply list_elem_of_fmap in Hb as (e & -> & He). simpl.
    specialize (Hle e He). lra.
Qed.

Lemma star_reconstruct_direct fuel (previous : gmap string (option string)) :
  previous !! "destination"%string = Some (Some "source"%string) ->
  previous !! "source"%string = Some None ->
  reconstructPath (S (S fuel)) nodes previous (Some "destination"%string) []
  = Returned [sN; dN].
Proof.
  intros Hd Hs. unfold nodes. cbn [reconstructPath List.find].
  rewrite sN_id, dN_id, Hd. cbn [orNull].
  rewrite (bool_decide_eq_false_2 ("source"%string = "destination"%string)) by done.
  rewrite (bool_decide_eq_true_2 ("destination"%string = "destination"%string)) by done.
  rewrite decide_False by done.
  rewrite (bool_decide_eq_true_2 ("source"%string = "source"%string)) by done.
  rewrite Hs. cbn [orNull]. by destruct fuel.
Qed.

(** In that case the search returns the route over the direct edge. *)
Lemma star_returns fuel :
  (forall e, e ∈ esW -> (GraphEdge.weight eD <= GraphEdge.weight e)%Q) ->
  solve M (S (S fuel)) nodes edges = Returned (directRoute M sN dN).
Proof.
  intros Hle. unfold solve. fold graph.
  rewrite (dijkstraLoop_first nodes adjS (S fuel) graph star_graph_source).
  destruct (star_head_destination Hle) as (tail & Hpq).
  rewrite dijkstraLoop_unfold, Hpq. cbv zeta.
  cbn [PriorityQueue.element fst].
  rewrite decide_False by done. rewrite decide_True by done.
  rewrite bind_Returned_eq. cbn [Solver.previous].
  destruct star_after as [(_ & Hps & _) Hreach].
  destruct (Hreach (toNeighbor eD)) as [Hpd _].
  { unfold adjS. simpl. apply elem_of_cons. by left. }
  cbn [toNeighbor Neighbor.nodeId] in Hpd.
  destruct eD_ends as [_ Hto]. rewrite Hto in Hpd.
  rewrite (star_reconstruct_direct fuel _ Hpd Hps).
  reflexivity.
Qed.

(** With one unit of fuel or none, the loop cannot finish. *)
Lemma star_short_fuel fuel :
  (fuel < 2)%nat -> solve M fuel nodes edges = OutOfFuel.
Proof.
  intros Hfuel. unfold solve. fold graph.
  destruct fuel as [|[|fuel]]; [| |lia].
  - rewrite dijkstraLoop_unfold, star_initial_queue. done.
  - rewrite (dijkstraLoop_first nodes adjS 0 graph star_graph_source).
    destruct star_after_queue as (it & rest & Hpq).
    rewrite dijkstraLoop_unfold, Hpq. done.
Qed.

(** Every run either does not finish or returns the direct route. *)
Lemma star_dichotomy fuel :
  solve M fuel nodes edges = OutOfFuel
  \/ solve M fuel nodes edges = Returned (directRoute M sN dN).
Proof.
  destruct (lighter_or_not esW (GraphEdge.weight eD)) as [(e & He & Hlt)|Hle].
  - left. by eapply star_diverges.
  - destruct fuel as [|[|fuel]].
    + left. apply star_short_fuel. lia.
    + left. apply star_short_fuel. lia.
    + right. by apply star_returns.
Qed.

(** In that case the distance the loop leaves at the destination is the
    weight of the direct edge. *)
Lemma star_direct_distance fuel st :
  (forall e, e ∈ esW -> (GraphEdge.weight eD <= GraphEdge.weight e)%Q) ->
  dijkstraLoop fuel graph (initialize nodes) = Returned st ->
  Solver.distances st !! "destination"%string = Some (Fin (0 + GraphEdge.weight eD)).
Proof.
  intros Hle Hloop.
  destruct fuel as [|fuel].
  { rewrite dijkstraLoop_unfold, star_initial_queue in Hloop. discriminate. }
  rewrite (dijkstraLoop_first nodes adjS fuel graph star_graph_source) in Hloop.
  destruct (star_head_destination Hle) as (tail & Hpq).
  rewrite dijkstraLoop_unfold, Hpq in Hloop.
  destruct fuel as [|fuel]; [discriminate|]. cbv zeta in Hloop.
  cbn [PriorityQueue.element fst] in Hloop.
  rewrite decide_False in Hloop by done. rewrite decide_True in Hloop by done.
  injection Hloop as <-. cbn [Solver.distances].
  destruct star_after as [(_ & _ & Hx & Hq & _) Hreach].
  destruct (Hreach (toNeighbor eD)) as [Hpd _].
  { unfold adjS. simpl. apply elem_of_cons. by left. }
  cbn [toNeighbor Neighbor.nodeId] in Hpd.
  destruct eD_ends as [_ Hto]. rewrite Hto in Hpd.
  destruct (Hx "destination"%string) as [[_ Hnone]|(q & Hd & _ & Hin)].
  - apply star_dest_in.
  - done.
  - congruence.
  - rewrite Hd. destruct (Hq _ Hin) as (n & Hn & Heq).
    injection Heq as Hid Hval. rewrite Hval.
    unfold adjS in Hn. apply list_elem_of_fmap in Hn as (e & -> & He).
    apply elem_of_cons in He as [->|He]; [done|].
    exfalso. destruct (star_esW_to e He) as (_ & _ & Hnd). simpl in Hid. congruence.
Qed.

End Star.

(** ** The shape of the synthesized graph *)

Section Synthesis.
Variable M : MathLib.
Variable rnd : nat -> Q.

Lemma connect_spec routeType k n1 n2 :
  edgeBetween M rnd routeType n1 n2 (fst (connect M rnd routeType k n1 n2)).
Proof.
  unfold connect, edgeBetween. destruct routeType; simpl; repeat split.
  by exists k.
Qed.

Lemma connectFrom_spec routeType k n1 later :
  Forall2 (edgeBetween M rnd routeType n1) later
          (fst (connectFrom M rnd routeType k n1 later)).
Proof.
  revert k. induction later as [|n2 later IH]; intros k; simpl; [constructor|].
  pose proof (connect_spec routeType k n1 n2) as He.
  destruct (connect M rnd routeType k n1 n2) as [e k1].
  specialize (IH k1).
  destruct (connectFrom M rnd routeType k1 n1 later) as [es k2].
  simpl in *. by constructor.
Qed.

Lemma connectAll_spec routeType k nodes e :
  e ∈ fst (connectAll M rnd routeType k nodes) ->
  exists n1 n2, n1 ∈ nodes /\ n2 ∈ nodes /\ edgeBetween M rnd routeType n1 n2 e.
Proof.
  revert k. induction nodes as [|n1 later IH]; intros k; simpl.
  - intros He. by apply elem_of_nil in He.
  - pose proof (connectFrom_spec routeType k n1 later) as H1.
    destruct (connectFrom M rnd routeType k n1 later) as [es1 k1].
    specialize (IH k1).
    destruct (connectAll M rnd routeType k1 later) as [es2 k2].
    simpl in *. intros He. apply elem_of_app in He as [He|He].
    + destruct (Forall2_elem_r _ _ _ _ H1 He) as (n2 & Hn2 & Hedge).
      exists n1, n2. split; [apply elem_of_cons; by left|].
      split; [apply elem_of_cons; by right | done].
    + destruct (IH He) as (a & b & Ha & Hb & Hedge).
      exists a, b. split; [apply elem_of_cons; by right|].
      split; [apply elem_of_cons; by right | done].
Qed.

Lemma connectAll_cons routeType k n later :
  connectAll M rnd routeType k (n :: later) =
  (fst (connectFrom M rnd routeType k n later)
   ++ fst (connectAll M rnd routeType (snd (connectFrom M rnd routeType k n later)) later),
   snd (connectAll M rnd routeType (snd (connectFrom M rnd routeType k n later)) later)).
Proof.
  simpl. destruct (connectFrom M rnd routeType k n later) as [es1 k1]. simpl.
  by destruct (connectAll M rnd routeType k1 later).
Qed.

Lemma generateGraph_nodes source destination routeType :
  fst (generateGraph M rnd source destination routeType)
  = nodeOf "source" source :: nodeOf "destination" destination
    :: waypointsOf M rnd source destination.
Proof. reflexivity. Qed.

Lemma generateGraph_edges source destination routeType :
  let sN := nodeOf "source" source in
  let dN := nodeOf "destination" destination in
  let wps := waypointsOf M rnd source destination in
  exists eD esW es2,
    snd (generateGraph M rnd source destination routeType) = (eD :: esW) ++ es2
    /\ edgeBetween M rnd routeType sN dN eD
    /\ Forall2 (edgeBetween M rnd routeType sN) wps esW
    /\ forall e, e ∈ es2 ->
         exists n1 n2, n1 ∈ dN :: wps /\ n2 ∈ dN :: wps
                       /\ edgeBetween M rnd routeType n1 n2 e.
Proof.
  intros sN dN wps. unfold generateGraph. fold sN dN.
  cbv zeta. cbn [snd]. fold (waypointsOf M rnd source destination). fold wps.
  change ([sN; dN] ++ wps) with (sN :: dN :: wps).
  set (k0 := (Z.to_nat _ - 1)%nat).
  rewrite connectAll_cons. cbn [fst].
  pose proof (connectFrom_spec routeType k0 sN (dN :: wps)) as H1.
  set (k1 := snd (connectFrom M rnd routeType k0 sN (dN :: wps))).
  pose proof (connectAll_spec routeType k1 (dN :: wps)) as H2.
  destruct (fst (connectFrom M rnd routeType k0 sN (dN :: wps))) as [|eD esW];
    inversion H1 as [|? ? ? ? HeD HesW]; subst.
  exists eD, esW, (fst (connectAll M rnd routeType k1 (dN :: wps))). done.
Qed.

Lemma waypointsOf_ids source destination w :
  w ∈ waypointsOf M rnd source destination ->
  GraphNode.id w <> "source"%string /\ GraphNode.id w <> "destination"%string
  /\ GraphNode.id w <> ""%string.
Proof.
  unfold waypointsOf. intros Hw.
  apply list_elem_of_fmap in Hw as (i & -> & _). simpl. done.
Qed.

(** [findShortestPath] either does not finish or returns the route over the
    direct edge from the source to the destination. *)
Lemma findShortestPath_dichotomy fuel source destination routeType :
  findShortestPath M rnd fuel source destination routeType = OutOfFuel
  \/ findShortestPath M rnd fuel source destination routeType
     = Returned (directRoute M (nodeOf "source" source)
                               (nodeOf "destination" destination)).
Proof.
  unfold findShortestPath.
  pose proof (generateGraph_nodes source destination routeType) as Hn.
  destruct (generateGraph_edges source destination routeType)
    as (eD & esW & es2 & He & HeD & HesW & Hes2).
  destruct (generateGraph M rnd source destination routeType) as [nodes edges].
  cbn [fst snd] in *. subst nodes edges.
  apply (star_dichotomy M).
  - done.
  - done.
  - apply waypointsOf_ids.
  - destruct HeD as (? & ? & _). done.
  - eapply Forall2_impl; [exact HesW|]. intros w e (? & ? & _). done.
  - intros e Hin. destruct (Hes2 e Hin) as (n1 & n2 & H1 & H2 & Hf & Ht & _).
    rewrite Hf, Ht. unfold ids. split; apply list_elem_of_fmap; eauto.
Qed.

End Synthesis.

(** ** The search on a graph with positive weights

    The distance the loop leaves at the destination is at most the weight of
    every walk from the source. *)

Lemma truthy_pos (q : Q) : (0 < q)%Q -> truthy (Fin q) = true.
Proof.
  intros Hq. simpl. destruct (Qeq_bool q 0) eqn:Heq; [|done].
  apply Qeq_bool_eq in Heq. rewrite Heq in Hq. lra.
Qed.

Lemma nle_Fin_inv (a : number) (c : Q) :
  nle a (Fin c) -> exists q, a = Fin q /\ (q <= c)%Q.
Proof. destruct a as [q|]; simpl; [|done]. intros H. by exists q. Qed.

Lemma nlt_Fin_false (x : Q) (b : number) : nlt (Fin x) b = false -> nle b (Fin x).
Proof. apply nlt_false_nle. Qed.

Lemma dval_Fin st x q : dval st x = Fin q <-> Solver.distances st !! x = Some (Fin q).
Proof.
  unfold dval. destruct (Solver.distances st !! x) as [[r|]|]; simpl; split;
    congruence.
Qed.

(** For a node other than the source, [distances.get(x) || Infinity] is the
    tentative distance itself. *)
Lemma orNumber_dval st x :
  baseInv st -> x <> "source"%string ->
  orNumber (Solver.distances st !! x) Infinity = dval st x.
Proof.
  intros Hinv Hx. unfold dval.
  destruct (Solver.distances st !! x) as [[q|]|] eqn:Hd; simpl; try done.
  pose proof (inv_positive st Hinv x q Hx Hd) as Hq.
  pose proof (truthy_pos q Hq) as Ht. simpl in Ht. by rewrite Ht.
Qed.

Section Optimal.
Variable graph : gmap string (list Neighbor.t).
Hypothesis weights_positive :
  forall x l n, graph !! x = Some l -> n ∈ l -> (0 < Neighbor.weight n)%Q.
Hypothesis ids_nonempty :
  forall x l n, graph !! x = Some l -> n ∈ l -> Neighbor.nodeId n <> ""%string.
Hypothesis source_no_loop :
  forall l n, graph !! "source"%string = Some l -> n ∈ l ->
    Neighbor.nodeId n <> "source"%string.

Lemma closedAt_mono st st' x q :
  (forall y, y <> "source"%string -> nle (dval st' y) (dval st y)) ->
  closedAt graph st x q -> closedAt graph st' x q.
Proof.
  intros Hmono Hc l n Hl Hn Hns.
  eapply nle_trans; [by apply Hmono | by eapply Hc].
Qed.

Lemma relax_processing u qu st n :
  (0 <= qu)%Q -> u <> ""%string ->
  (0 < Neighbor.weight n)%Q -> Neighbor.nodeId n <> ""%string ->
  (u = "source"%string -> Neighbor.nodeId n <> "source"%string) ->
  processing graph u qu st ->
  processing graph u qu (relax u st n)
  /\ (Neighbor.nodeId n <> "source"%string ->
      nle (dval (relax u st n) (Neighbor.nodeId n)) (Fin (qu + Neighbor.weight n)))
  /\ (forall x, x <> "source"%string -> nle (dval (relax u st n) x) (dval st x)).
Proof.
  intros Hqu Hu Hw Hv Hloop [Hb Hs Halt Hd].
  assert (Halt' : altDistanceOf st u n = Fin (qu + Neighbor.weight n)).
  { unfold altDistanceOf. rewrite Halt. reflexivity. }
  destruct (relax_cases u st n) as [[Hlt ->]|[Hlt ->]]; rewrite Halt' in *.
  - split; [done|]. split; [|intros; apply nle_refl].
    intros Hns. rewrite (orNumber_dval st _ Hb Hns) in Hlt.
    by apply nlt_false_nle in Hlt.
  - set (v := Neighbor.nodeId n) in *. set (w := Neighbor.weight n) in *.
    assert (Hvu : v <> u).
    { intros ->. destruct (decide (u = "source"%string)) as [Hus|Hus].
      - by apply Hloop.
      - rewrite (Hd Hus) in Hlt. cbn [orNumber] in Hlt.
        rewrite (truthy_pos qu (inv_positive st Hb u qu Hus (Hd Hus))) in Hlt.
        apply nlt_true_inv in Hlt as (? & _ & Hle & _). simpl in Hle. lra. }
    assert (Hlower : v <> "source"%string -> nle (Fin (qu + w)) (dval st v)).
    { intros Hns. rewrite (orNumber_dval st _ Hb Hns) in Hlt.
      by apply nlt_true_inv in Hlt as (? & _ & Hle & _). }
    assert (Hdv : forall x, dval
              (Solver.mk (<[v := Fin (qu + w)]> (Solver.distances st))
                 (<[v := Some u]> (Solver.previous st))
                 (PriorityQueue.enqueue v (Fin (qu + w)) (Solver.pq st))) x
              = if decide (x = v) then Fin (qu + w) else dval st x).
    { intros x. unfold dval. simpl. case_decide as Hx.
      - subst x. by rewrite lookup_insert_eq.
      - by rewrite lookup_insert_ne. }
    assert (Hmono : forall x, x <> "source"%string ->
              nle (dval
                (Solver.mk (<[v := Fin (qu + w)]> (Solver.distances st))
                   (<[v := Some u]> (Solver.previous st))
                   (PriorityQueue.enqueue v (Fin (qu + w)) (Solver.pq st))) x)
                (dval st x)).
    { intros x Hx. rewrite Hdv. case_decide as Hxv; [subst x; by apply Hlower | apply nle_refl]. }
    split; [|split; [|exact Hmono]].
    + split.
      * split.
        -- simpl. destruct (decide (v = "source"%string)) as [Hvs|Hvs].
           ++ rewrite Hvs, lookup_insert_eq. cbn [orNumber].
              destruct (truthy (Fin (qu + w))); [exists (qu + w)%Q | exists 0%Q];
                (split; [done | lra]).
           ++ rewrite lookup_insert_ne by done. apply (inv_source st Hb).
        -- intros x q Hx. simpl. destruct (decide (x = v)) as [->|Hxv].
           ++ rewrite lookup_insert_eq. intros [= <-]. lra.
           ++ rewrite lookup_insert_ne by done. by apply (inv_positive st Hb).
        -- intros x p Hin. simpl in Hin. apply enqueue_elem in Hin as [[= -> ->]|Hin].
           ++ split; [done|]. split; [by eexists|]. intros Hns.
              rewrite Hdv. rewrite decide_True by done. apply nle_refl.
           ++ destruct (inv_entries st Hb x p Hin) as (Hx & Hp & Hle).
              split; [done|]. split; [done|]. intros Hns.
              eapply nle_trans; [by apply Hmono | by apply Hle].
        -- simpl. apply enqueue_ordered.
      * intros x q Hx Hxu. simpl. destruct (decide (x = v)) as [->|Hxv].
        -- rewrite lookup_insert_eq. intros [= <-]. left.
           apply enqueue_elem. by left.
        -- rewrite lookup_insert_ne by done. intros Hdx.
           destruct (Hs x q Hx Hxu Hdx) as [Hopen|Hclosed].
           ++ left. apply enqueue_elem. by right.
           ++ right. by eapply closedAt_mono.
      * simpl. by rewrite lookup_insert_ne.
      * intros Hus. simpl. rewrite lookup_insert_ne by done. by apply Hd.
    + intros Hns. rewrite Hdv. rewrite decide_True by done. apply nle_refl.
Qed.

Lemma fold_processing u qu (l : list Neighbor.t) st :
  (0 <= qu)%Q -> u <> ""%string ->
  (forall n, n ∈ l ->
     (0 < Neighbor.weight n)%Q /\ Neighbor.nodeId n <> ""%string
     /\ (u = "source"%string -> Neighbor.nodeId n <> "source"%string)) ->
  processing graph u qu st ->
  processing graph u qu (fold_left (relax u) l st)
  /\ (forall n, n ∈ l -> Neighbor.nodeId n <> "source"%string ->
       nle (dval (fold_left (relax u) l st) (Neighbor.nodeId n))
           (Fin (qu + Neighbor.weight n)))
  /\ (forall x, x <> "source"%string ->
       nle (dval (fold_left (relax u) l st) x) (dval st x)).
Proof.
  intros Hqu Hu. revert st. induction l as [|n l IH]; intros st Hl Hp.
  - simpl. split; [done|]. split; [|intros; apply nle_refl].
    intros n Hn. by apply elem_of_nil in Hn.
  - simpl. destruct (Hl n) as (Hw & Hv & Hloop); [apply elem_of_cons; by left|].
    destruct (relax_processing u qu st n Hqu Hu Hw Hv Hloop Hp) as (Hp1 & Hn1 & Hm1).
    destruct (IH (relax u st n)) as (Hp2 & Hn2 & Hm2); [|done|].
    { intros n' Hn'. apply Hl, elem_of_cons. by right. }
    split; [done|]. split.
    + intros n' Hn' Hns. apply elem_of_cons in Hn' as [->|Hn']; [|by apply Hn2].
      eapply nle_trans; [by apply Hm2 | by apply Hn1].
    + intros x Hx. eapply nle_trans; [by apply Hm2 | by apply Hm1].
Qed.

(** Dequeuing the front item starts the relaxation of its node. *)
Lemma pop_processing st it rest :
  baseInv st -> settledExcept graph st "source" ->
  Solver.pq st = it :: rest ->
  exists qu, (0 <= qu)%Q
    /\ processing graph (PriorityQueue.element it) qu
         (Solver.mk (Solver.distances st) (Solver.previous st) rest).
Proof.
  intros Hb Hs Hpq. destruct it as [u p]. cbn [PriorityQueue.element fst].
  assert (Hbase : baseInv (Solver.mk (Solver.distances st) (Solver.previous st) rest)).
  { split; simpl.
    - apply (inv_source st Hb).
    - apply (inv_positive st Hb).
    - intros x p' Hin. apply (inv_entries st Hb). rewrite Hpq.
      apply elem_of_cons. by right.
    - pose proof (inv_ordered st Hb) as Hord. rewrite Hpq in Hord. apply Hord. }
  assert (Hsettled : settledExcept graph
            (Solver.mk (Solver.distances st) (Solver.previous st) rest) u).
  { intros x q Hx Hxu Hd. simpl in Hd. destruct (Hs x q Hx Hx Hd) as [Hopen|Hclosed].
    - left. simpl. rewrite Hpq in Hopen.
      apply elem_of_cons in Hopen as [[= -> _]|Hopen]; [done | done].
    - right. exact Hclosed. }
  destruct (decide (u = "source"%string)) as [->|Hus].
  - destruct (inv_source st Hb) as (q0 & Hq0 & Hge).
    exists q0. split; [done|]. by split.
  - destruct (inv_entries st Hb u p) as (_ & (qp & ->) & Hle).
    { rewrite Hpq. apply elem_of_cons. by left. }
    apply nle_Fin_inv in Hle as (qu & Hqu & _); [|done].
    apply dval_Fin in Hqu.
    pose proof (inv_positive st Hb u qu Hus Hqu) as Hpos.
    exists qu. split; [lra|]. split; [done | done | | done].
    simpl. rewrite Hqu. cbn [orNumber]. by rewrite (truthy_pos qu Hpos).
Qed.

(** One iteration of the loop keeps the invariant. *)
Lemma step_fullInv st it rest :
  fullInv graph st -> Solver.pq st = it :: rest ->
  PriorityQueue.element it <> ""%string ->
  fullInv graph
    (fold_left (relax (PriorityQueue.element it))
       (default [] (graph !! PriorityQueue.element it))
       (Solver.mk (Solver.distances st) (Solver.previous st) rest)).
Proof.
  intros [Hb Hs Ha] Hpq Hu. set (u := PriorityQueue.element it) in *.
  destruct (pop_processing st it rest Hb Hs Hpq) as (qu & Hqu & Hp). fold u in Hp.
  assert (Hentries : forall n, n ∈ default [] (graph !! u) ->
            (0 < Neighbor.weight n)%Q /\ Neighbor.nodeId n <> ""%string
            /\ (u = "source"%string -> Neighbor.nodeId n <> "source"%string)).
  { intros n Hn. destruct (graph !! u) as [l|] eqn:Hg; simpl in Hn;
      [|by apply elem_of_nil in Hn].
    split; [by eapply weights_positive|]. split; [by eapply ids_nonempty|].
    intros Hus. rewrite Hus in Hg. by eapply source_no_loop. }
  destruct (fold_processing u qu (default [] (graph !! u)) _ Hqu Hu Hentries Hp)
    as (Hp2 & Hclosure & Hmono).
  split.
  - apply (proc_base _ _ _ _ Hp2).
  - intros x q Hx _ Hd. destruct (decide (x = u)) as [->|Hxu].
    + right. rewrite (proc_dist _ _ _ _ Hp2 Hx) in Hd. injection Hd as <-.
      intros l n Hl Hn Hns. apply Hclosure; [by rewrite Hl | done].
    + by apply (proc_settled _ _ _ _ Hp2).
  - by eapply closedAt_mono.
Qed.

(** The first iteration establishes it. *)
Lemma first_fullInv st :
  baseInv st -> settledExcept graph st "source" ->
  Solver.pq st = [("source"%string, Fin 0)] ->
  orNumber (Solver.distances st !! "source"%string) (Fin 0) = Fin 0 ->
  fullInv graph
    (fold_left (relax "source")
       (default [] (graph !! "source"%string))
       (Solver.mk (Solver.distances st) (Solver.previous st) [])).
Proof.
  intros Hb Hs Hpq Hzero.
  assert (Hp : processing graph "source" 0
                 (Solver.mk (Solver.distances st) (Solver.previous st) [])).
  { split; [| |done|done].
    - split; simpl.
      + apply (inv_source st Hb).
      + apply (inv_positive st Hb).
      + intros x p Hin. by apply elem_of_nil in Hin.
      + done.
    - intros x q Hx _ Hd. simpl in Hd. destruct (Hs x q Hx Hx Hd) as [Hopen|Hclosed].
      + rewrite Hpq in Hopen. apply list_elem_of_singleton in Hopen. congruence.
      + by right. }
  assert (Hentries : forall n, n ∈ default [] (graph !! "source"%string) ->
            (0 < Neighbor.weight n)%Q /\ Neighbor.nodeId n <> ""%string
            /\ ("source"%string = "source"%string ->
                Neighbor.nodeId n <> "source"%string)).
  { intros n Hn. destruct (graph !! "source"%string) as [l|] eqn:Hg; simpl in Hn;
      [|by apply elem_of_nil in Hn].
    split; [by eapply weights_positive|]. split; [by eapply ids_nonempty|].
    intros _. by eapply source_no_loop. }
  destruct (fold_processing "source" 0 (default [] (graph !! "source"%string)) _
              ltac:(lra) ltac:(done) Hentries Hp) as (Hp2 & Hclosure & Hmono).
  split.
  - apply (proc_base _ _ _ _ Hp2).
  - apply (proc_settled _ _ _ _ Hp2).
  - intros l n Hl Hn Hns. apply Hclosure; [by rewrite Hl | done].
Qed.

(** Every walk either costs at least the front priority of the queue, or
    ends in a node that is closed at no more than the cost of the walk. *)
Lemma reachCost_settled st v c :
  fullInv graph st -> reachCost graph v c ->
  (exists it rest, Solver.pq st = it :: rest
                   /\ nle (PriorityQueue.priority it) (Fin c))
  \/ (exists q, Solver.distances st !! v = Some (Fin q) /\ (q <= c)%Q
                /\ closedAt graph st v q).
Proof.
  intros [Hb Hs Ha] Hreach.
  assert (Hfront : forall x q c', (x, Fin q) ∈ Solver.pq st -> (q <= c')%Q ->
            exists it rest, Solver.pq st = it :: rest
                            /\ nle (PriorityQueue.priority it) (Fin c')).
  { intros x q c' Hin Hle. pose proof (inv_ordered st Hb) as Hord.
    destruct (Solver.pq st) as [|it rest]; [by apply elem_of_nil in Hin|].
    exists it, rest. split; [done|].
    apply elem_of_cons in Hin as [<-|Hin]; [done|].
    destruct Hord as [Hhead _]. eapply nle_trans; [by apply (Hhead _ Hin)|done]. }
  induction Hreach as [l n Hl Hn Hns|u c l n Hreach IH Hl Hn Hns].
  - destruct (nle_Fin_inv _ _ (Ha l n Hl Hn Hns)) as (q & Hq & Hle).
    apply dval_Fin in Hq.
    destruct (Hs _ q Hns Hns Hq) as [Hopen|Hclosed].
    + left. eapply Hfront; [done|]. lra.
    + right. exists q. split; [done|]. split; [lra | done].
  - pose proof (weights_positive u l n Hl Hn) as Hw.
    destruct IH as [(it & rest & Hpq & Hle)|(q & Hq & Hle & Hclosed)].
    + left. exists it, rest. split; [done|].
      eapply nle_trans; [done|]. simpl. lra.
    + destruct (nle_Fin_inv _ _ (Hclosed l n Hl Hn Hns)) as (q' & Hq' & Hle').
      apply dval_Fin in Hq'.
      destruct (Hs _ q' Hns Hns Hq') as [Hopen|Hclosed'].
      * left. eapply Hfront; [done|]. lra.
      * right. exists q'. split; [done|]. split; [lra | done].
Qed.

(** When the loop stops, the destination is no farther than any walk. *)
Lemma dijkstraLoop_bound fuel st st' c :
  fullInv graph st -> dijkstraLoop fuel graph st = Returned st' ->
  reachCost graph "destination" c ->
  exists q, Solver.distances st' !! "destination"%string = Some (Fin q) /\ (q <= c)%Q.
Proof.
  intros Hinv Hloop Hreach. revert st Hinv Hloop.
  induction fuel as [|fuel IH]; intros st Hinv; rewrite dijkstraLoop_unfold;
    destruct (Solver.pq st) as [|it rest] eqn:Hpq; try discriminate.
  - intros [= <-].
    destruct (reachCost_settled st _ c Hinv Hreach)
      as [(it & rest & Hpq' & _)|(q & Hq & Hle & _)]; [congruence|by exists q].
  - intros [= <-].
    destruct (reachCost_settled st _ c Hinv Hreach)
      as [(it & rest & Hpq' & _)|(q & Hq & Hle & _)]; [congruence|by exists q].
  - cbv zeta.
    destruct (inv_entries st (full_base _ _ Hinv) (PriorityQueue.element it)
                (PriorityQueue.priority it)) as (Hne & _ & Hle).
    { rewrite Hpq. destruct it. apply elem_of_cons. by left. }
    rewrite decide_False by done.
    destruct (decide (PriorityQueue.element it = "destination"%string)) as [Hd|Hnd].
    + intros [= <-]. cbn [Solver.distances].
      destruct (reachCost_settled st _ c Hinv Hreach)
        as [(it' & rest' & Hpq' & Hle')|(q & Hq & Hle' & _)]; [|by exists q].
      assert (it' = it) by congruence. subst it'.
      rewrite Hd in Hle.
      destruct (nle_Fin_inv _ _ (nle_trans _ _ _ (Hle ltac:(done)) Hle'))
        as (q & Hq & Hqc).
      apply dval_Fin in Hq. by exists q.
    + intros Hloop. eapply IH; [|exact Hloop]. by apply step_fullInv.
Qed.

End Optimal.

(** ** The reference [Math] has the sign facts and the exact values *)

Lemma Qeq0_mult_l (a b : Q) : (a == 0)%Q -> (a * b == 0)%Q.
Proof. intros H. rewrite H. apply Qmult_0_l. Qed.

Lemma Qeq0_mult_r (a b : Q) : (b == 0)%Q -> (a * b == 0)%Q.
Proof. intros H. rewrite H. apply Qmult_0_r. Qed.

Lemma RefMath_chop_zero (q : Q) : (q == 0)%Q -> (RefMath.chop q == 0)%Q.
Proof.
  intros Hq. unfold RefMath.chop.
  assert (H0 : Qfloor (q * 1000000000000000000) = 0%Z).
  { rewrite (Qfloor_comp _ 0); [reflexivity|]. rewrite Hq. ring. }
  rewrite H0. reflexivity.
Qed.

Lemma RefMath_snap_zero (q : Q) : (q == 0)%Q -> (RefMath.snap q == 0)%Q.
Proof.
  intros Hq. unfold RefMath.snap.
  assert (H0 : Qfloor (q * 1000000000000) = 0%Z).
  { rewrite (Qfloor_comp _ 0); [reflexivity|]. rewrite Hq. ring. }
  rewrite H0. reflexivity.
Qed.

Lemma RefMath_nonneg : MathNonneg RefMath.lib.
Proof.
  split; simpl.
  - intros x. unfold RefMath.sqrt. destruct (Qlt_le_dec 0 x); [|apply Qle_refl].
    unfold Qle. simpl. rewrite Z.mul_1_r. apply Z.sqrt_nonneg.
  - intros y x Hy. unfold RefMath.atan2.
    destruct (Qlt_le_dec y 0) as [Hlt|_].
    + exfalso. apply (Qlt_not_le _ _ Hlt Hy).
    + destruct (Qlt_le_dec _ 0); [apply Qle_refl | done].
Qed.

Lemma RefMath_exact : MathExact RefMath.lib.
Proof.
  split; simpl.
  - intros x Hx. unfold RefMath.sin. apply RefMath_snap_zero.
    apply Qeq0_mult_l. by apply RefMath_chop_zero.
  - intros x Hx. unfold RefMath.sqrt.
    destruct (Qlt_le_dec 0 x) as [Hlt|_]; [|reflexivity].
    exfalso. rewrite Hx in Hlt. lra.
  - intros x Hx. unfold RefMath.sqrt.
    destruct (Qlt_le_dec 0 x) as [_|Hle].
    + rewrite (Qfloor_comp _ (inject_Z 1000000000000000000000000)).
      * rewrite Qfloor_Z. reflexivity.
      * rewrite Hx. reflexivity.
    + exfalso. rewrite Hx in Hle. lra.
  - intros y x Hy Hx. unfold RefMath.atan2.
    assert (Hraw : (RefMath.atan2_raw y x == 0)%Q).
    { unfold RefMath.atan2_raw.
      rewrite (proj1 (Qgt_alt x 0) Hx), (proj1 (Qeq_alt y 0) Hy).
      unfold RefMath.atan_pos.
      assert (Ht : (y / x == 0)%Q) by (by apply Qeq0_mult_l).
      destruct (Qlt_le_dec 1 (y / x)) as [Hbad|_].
      - exfalso. rewrite Ht in Hbad. lra.
      - unfold RefMath.atan_unit, RefMath.half_arg.
        assert (H1 : (RefMath.chop (y / x) == 0)%Q) by by apply RefMath_chop_zero.
        assert (H2 : (RefMath.chop (RefMath.chop (y / x)
                        / (1 + RefMath.sqrt (1 + RefMath.chop (y / x) * RefMath.chop (y / x))))
                      == 0)%Q).
        { apply RefMath_chop_zero. by apply Qeq0_mult_l. }
        apply Qeq0_mult_r, Qeq0_mult_l, RefMath_chop_zero.
        by apply Qeq0_mult_l. }
    pose proof (RefMath_snap_zero _ Hraw) as Hsnap.
    destruct (Qlt_le_dec y 0); destruct (Qlt_le_dec _ 0); done.
Qed.

(** ** Distances are not negative *)

Lemma calculateDistance_nonneg (M : MathLib) (lat1 lon1 lat2 lon2 : Q) :
  MathNonneg M -> (0 <= calculateDistance M lat1 lon1 lat2 lon2)%Q.
Proof.
  intros [Hsqrt Hatan]. unfold calculateDistance. cbv zeta.
  match goal with |- (0 <= _ * (2 * Math_atan2 M ?y ?x))%Q =>
    pose proof (Hatan y x (Hsqrt _)) as H end.
  lra.
Qed.

(** The multiplier of the safest mode, [2 - safetyFactor], is positive for
    every value [Math.random()] can return. *)
Lemma safety_multiplier_positive (r : Q) :
  (0 <= r < 1)%Q -> (0 < 2 - (0.8 + r * 0.4))%Q.
Proof. intros [H0 H1]. lra. Qed.

(** ** When [findShortestPath] returns and when it does not *)

Section Verdict.
Variable M : MathLib.
Variable rnd : nat -> Q.
Variables source destination : Location.t.

Let sN := nodeOf "source" source.
Let dN := nodeOf "destination" destination.

(** In the shortest mode the run returns the direct route as soon as no
    waypoint is strictly closer to the source than the destination is. *)
Lemma findShortestPath_returns fuel :
  (forall w, w ∈ waypointsOf M rnd source destination ->
     (distanceBetween M sN dN <= distanceBetween M sN w)%Q) ->
  findShortestPath M rnd (S (S fuel)) source destination shortest
  = Returned (directRoute M sN dN).
Proof.
  intros Hfar. unfold findShortestPath.
  pose proof (generateGraph_nodes M rnd source destination shortest) as Hn.
  destruct (generateGraph_edges M rnd source destination shortest)
    as (eD & esW & es2 & He & HeD & HesW & Hes2).
  destruct (generateGraph M rnd source destination shortest) as [nodes edges].
  cbn [fst snd] in *. subst nodes edges.
  apply (star_returns M).
  - done.
  - done.
  - apply waypointsOf_ids.
  - destruct HeD as (? & ? & _). done.
  - eapply Forall2_impl; [exact HesW|]. intros w e (? & ? & _). done.
  - intros e Hin. destruct (Hes2 e Hin) as (n1 & n2 & H1 & H2 & Hf & Ht & _).
    rewrite Hf, Ht. unfold ids. split; apply list_elem_of_fmap; eauto.
  - intros e Hin. destruct HeD as (_ & _ & _ & ->).
    destruct (Forall2_elem_r _ _ _ _ HesW Hin) as (w & Hw & _ & _ & _ & ->).
    by apply Hfar.
Qed.

(** In the shortest mode the run never returns when some waypoint is
    strictly closer to the source than the destination is. *)
Lemma findShortestPath_diverges w fuel :
  w ∈ waypointsOf M rnd source destination ->
  (distanceBetween M sN w < distanceBetween M sN dN)%Q ->
  findShortestPath M rnd fuel source destination shortest = OutOfFuel.
Proof.
  intros Hw Hnear. unfold findShortestPath.
  pose proof (generateGraph_nodes M rnd source destination shortest) as Hn.
  destruct (generateGraph_edges M rnd source destination shortest)
    as (eD & esW & es2 & He & HeD & HesW & Hes2).
  destruct (generateGraph M rnd source destination shortest) as [nodes edges].
  cbn [fst snd] in *. subst nodes edges.
  destruct (Forall2_elem_l _ _ _ _ HesW Hw) as (e & Hin & _ & _ & _ & Hwe).
  apply (star_diverges M) with (e := e).
  - done.
  - done.
  - apply waypointsOf_ids.
  - destruct HeD as (? & ? & _). done.
  - eapply Forall2_impl; [exact HesW|]. intros w' e' (? & ? & _). done.
  - intros e' Hin'. destruct (Hes2 e' Hin') as (n1 & n2 & H1 & H2 & Hf & Ht & _).
    rewrite Hf, Ht. unfold ids. split; apply list_elem_of_fmap; eauto.
  - done.
  - destruct HeD as (_ & _ & _ & ->). by rewrite Hwe.
Qed.

End Verdict.

(** ** The distance from a point to itself *)

Lemma Qeq0_plus (a b : Q) : (a == 0)%Q -> (b == 0)%Q -> (a + b == 0)%Q.
Proof. intros Ha Hb. rewrite Ha, Hb. reflexivity. Qed.

Lemma calculateDistance_same (M : MathLib) (lat lng : Q) :
  MathExact M -> (calculateDistance M lat lng lat lng == 0)%Q.
Proof.
  intros [Hsin Hsqrt0 Hsqrt1 Hatan]. unfold calculateDistance. cbv zeta.
  assert (HdLat : (toRadians M (lat - lat) / 2 == 0)%Q).
  { unfold toRadians. field. }
  assert (HdLon : (toRadians M (lng - lng) / 2 == 0)%Q).
  { unfold toRadians. field. }
  match goal with |- (_ * (2 * Math_atan2 M (Math_sqrt M ?a) _) == 0)%Q =>
    assert (Ha : (a == 0)%Q) end.
  { apply Qeq0_plus.
    - apply Qeq0_mult_l. by apply Hsin.
    - apply Qeq0_mult_r. by apply Hsin. }
  apply Qeq0_mult_r, Qeq0_mult_r. apply Hatan.
  - by apply Hsqrt0.
  - rewrite (Hsqrt1 _); [reflexivity|]. rewrite Ha. reflexivity.
Qed.

Lemma Math_round_zero (x c : Q) : (x == 0)%Q -> Math_round (x * c) = 0%Z.
Proof.
  intros Hx. unfold Math_round.
  rewrite (Qfloor_comp _ (1 # 2)); [reflexivity|]. rewrite Hx. ring.
Qed.

(** ** The chain through the waypoints is a walk of the synthesized graph *)

Lemma initialize_baseInv nodes : baseInv (initialize nodes).
Proof.
  destruct (initialize_spec nodes) as (Hd & _ & Hq). split.
  - rewrite Hd. exists 0%Q. split; [|lra]. by repeat case_decide.
  - intros x q Hx. rewrite Hd. by repeat case_decide.
  - intros x p. rewrite Hq. intros Hin.
    apply list_elem_of_singleton in Hin as [= -> ->].
    split; [done|]. split; [by eexists | done].
  - rewrite Hq. split; [|done]. intros y Hy. by apply elem_of_nil in Hy.
Qed.

Lemma initialize_settled graph nodes : settledExcept graph (initialize nodes) "source".
Proof.
  destruct (initialize_spec nodes) as (Hd & _ & _).
  intros x q Hx _. rewrite Hd. by repeat case_decide.
Qed.

Lemma initialize_source_zero nodes :
  orNumber (Solver.distances (initialize nodes) !! "source"%string) (Fin 0) = Fin 0.
Proof.
  destruct (initialize_spec nodes) as (Hd & _ & _). rewrite Hd.
  by repeat case_decide.
Qed.

Lemma adjacency_from nodes edges e :
  e ∈ edges -> GraphEdge.from e ∈ ids nodes ->
  exists l, buildAdjacency nodes edges !! GraphEdge.from e = Some l
            /\ toNeighbor e ∈ l.
Proof.
  intros He Hin. rewrite buildAdjacency_lookup, decide_True by done.
  eexists. split; [done|]. apply elem_of_flat_map. exists e. split; [done|].
  unfold entriesOf. apply elem_of_app. left. rewrite decide_True by done.
  by apply list_elem_of_singleton.
Qed.

Lemma adjacency_to nodes edges e :
  e ∈ edges -> GraphEdge.to e ∈ ids nodes ->
  exists l, buildAdjacency nodes edges !! GraphEdge.to e = Some l
            /\ Neighbor.mk (GraphEdge.from e) (GraphEdge.weight e)
                           (GraphEdge.distance e) ∈ l.
Proof.
  intros He Hin. rewrite buildAdjacency_lookup, decide_True by done.
  eexists. split; [done|]. apply elem_of_flat_map. exists e. split; [done|].
  unfold entriesOf. apply elem_of_app. right. rewrite decide_True by done.
  by apply list_elem_of_singleton.
Qed.

Lemma adjacency_weight nodes edges x l n :
  (forall e, e ∈ edges -> (0 < GraphEdge.weight e)%Q) ->
  buildAdjacency nodes edges !! x = Some l -> n ∈ l -> (0 < Neighbor.weight n)%Q.
Proof.
  intros Hpos. rewrite buildAdjacency_lookup. case_decide; [|discriminate].
  intros Hl Hn. assert (Heq : l = flat_map (entriesOf x) edges) by congruence.
  rewrite Heq in Hn. apply elem_of_flat_map in Hn as (e & He & Hn).
  unfold entriesOf in Hn. apply elem_of_app in Hn as [Hn|Hn];
    case_decide; try (by apply elem_of_nil in Hn);
    apply list_elem_of_singleton in Hn as ->; by apply Hpos.
Qed.

Section ChainWalk.
Variable M : MathLib.
Variable rnd : nat -> Q.

(** Every pair of nodes, the earlier first, is joined by an edge. *)
Lemma connectAll_pairs routeType k l1 a l2 b :
  b ∈ l2 ->
  exists e, e ∈ fst (connectAll M rnd routeType k (l1 ++ a :: l2))
            /\ edgeBetween M rnd routeType a b e.
Proof.
  intros Hb. revert k. induction l1 as [|x l1 IH]; intros k.
  - simpl app. rewrite connectAll_cons. cbn [fst].
    destruct (Forall2_elem_l _ _ _ _ (connectFrom_spec M rnd routeType k a l2) Hb)
      as (e & He & Hedge).
    exists e. split; [apply elem_of_app; by left | done].
  - change ((x :: l1) ++ a :: l2) with (x :: (l1 ++ a :: l2)).
    rewrite connectAll_cons. cbn [fst].
    destruct (IH (snd (connectFrom M rnd routeType k x (l1 ++ a :: l2))))
      as (e & He & Hedge).
    exists e. split; [apply elem_of_app; by right | done].
Qed.

Variables source destination : Location.t.
Let sN := nodeOf "source" source.
Let dN := nodeOf "destination" destination.
Let wps := waypointsOf M rnd source destination.
Let nodes := fst (generateGraph M rnd source destination shortest).
Let edges := snd (generateGraph M rnd source destination shortest).
Let graph := buildAdjacency nodes edges.

Lemma chain_nodes : nodes = sN :: dN :: wps.
Proof. reflexivity. Qed.

Lemma chain_edges k0 :
  k0 = (Z.to_nat
          (numWaypointsOf
             (calculateDistance M (Location.lat source) (Location.lng source)
                (Location.lat destination) (Location.lng destination))) - 1)%nat ->
  edges = fst (connectAll M rnd shortest k0 (sN :: dN :: wps)).
Proof. intros ->. reflexivity. Qed.

Lemma chain_wps_in w : w ∈ wps -> GraphNode.id w ∈ ids nodes.
Proof.
  intros Hw. rewrite chain_nodes. unfold ids. apply list_elem_of_fmap.
  exists w. split; [done|]. apply elem_of_cons. right. apply elem_of_cons. by right.
Qed.

(** The edge between two nodes, the earlier first, gives the later node as
    a neighbor of the earlier at the base distance. *)
Lemma chain_forward l1 a l2 b :
  sN :: dN :: wps = l1 ++ a :: l2 -> b ∈ l2 -> GraphNode.id a ∈ ids nodes ->
  exists l n, graph !! GraphNode.id a = Some l /\ n ∈ l
              /\ Neighbor.nodeId n = GraphNode.id b
              /\ Neighbor.weight n = distanceBetween M a b.
Proof.
  intros Hsplit Hb Ha.
  destruct (connectAll_pairs shortest
              (Z.to_nat
                 (numWaypointsOf
                    (calculateDistance M (Location.lat source) (Location.lng source)
                       (Location.lat destination) (Location.lng destination))) - 1)
              l1 a l2 b Hb) as (e & He & Hf & Ht & _ & Hw).
  rewrite <- Hsplit in He. rewrite <- (chain_edges _ eq_refl) in He.
  destruct (adjacency_from nodes edges e He) as (l & Hl & Hn); [by rewrite Hf|].
  exists l, (toNeighbor e). rewrite Hf in Hl. done.
Qed.

(** The same edge gives the earlier node as a neighbor of the later. *)
Lemma chain_backward l1 a l2 b :
  sN :: dN :: wps = l1 ++ a :: l2 -> b ∈ l2 -> GraphNode.id b ∈ ids nodes ->
  exists l n, graph !! GraphNode.id b = Some l /\ n ∈ l
              /\ Neighbor.nodeId n = GraphNode.id a
              /\ Neighbor.weight n = distanceBetween M a b.
Proof.
  intros Hsplit Hb Hbin.
  destruct (connectAll_pairs shortest
              (Z.to_nat
                 (numWaypointsOf
                    (calculateDistance M (Location.lat source) (Location.lng source)
                       (Location.lat destination) (Location.lng destination))) - 1)
              l1 a l2 b Hb) as (e & He & Hf & Ht & _ & Hw).
  rewrite <- Hsplit in He. rewrite <- (chain_edges _ eq_refl) in He.
  destruct (adjacency_to nodes edges e He) as (l & Hl & Hn); [by rewrite Ht|].
  rewrite Ht in Hl. eexists l, _. done.
Qed.

Lemma chain_reach rest pre prev c :
  wps = pre ++ prev :: rest ->
  reachCost graph (GraphNode.id prev) c ->
  reachCost graph "destination" (chainFrom M c prev rest dN).
Proof.
  revert pre prev c. induction rest as [|w rest IH]; intros pre prev c Hwps Hreach.
  - simpl.
    assert (Hprev : prev ∈ wps).
    { rewrite Hwps. apply elem_of_app. right. apply elem_of_cons. by left. }
    destruct (chain_backward [sN] dN wps prev eq_refl Hprev (chain_wps_in _ Hprev))
      as (l & n & Hl & Hn & Hid & Hw).
    rewrite <- Hw. change "destination"%string with (GraphNode.id dN).
    rewrite <- Hid. eapply reach_step; [done..|]. by rewrite Hid.
  - simpl.
    assert (Hprev : prev ∈ wps).
    { rewrite Hwps. apply elem_of_app. right. apply elem_of_cons. by left. }
    assert (Hw : w ∈ wps).
    { rewrite Hwps. apply elem_of_app. right. apply elem_of_cons. right.
      apply elem_of_cons. by left. }
    destruct (chain_forward (sN :: dN :: pre) prev (w :: rest) w)
      as (l & n & Hl & Hn & Hid & Hwt).
    { rewrite Hwps. reflexivity. }
    { apply elem_of_cons. by left. }
    { by apply chain_wps_in. }
    apply (IH (pre ++ [prev])).
    + rewrite Hwps, <- app_assoc. reflexivity.
    + rewrite <- Hwt, <- Hid. eapply reach_step; [done..|].
      rewrite Hid. by apply (waypointsOf_ids M rnd source destination).
Qed.

Lemma chain_source_in : GraphNode.id sN ∈ ids nodes.
Proof. rewrite chain_nodes. unfold ids. simpl. apply elem_of_cons. by left. Qed.

(** The literal chain is a walk from the source to the destination whose
    weight is the sum of its edges' base distances. *)
Lemma chain_reachCost : reachCost graph "destination" (chainDistance M sN dN wps).
Proof.
  unfold chainDistance. destruct wps as [|w rest] eqn:Hwps.
  - destruct (chain_forward [] sN [dN] dN) as (l & n & Hl & Hn & Hid & Hw).
    { fold wps. by rewrite Hwps. }
    { apply elem_of_cons. by left. }
    { apply chain_source_in. }
    rewrite <- Hw. change "destination"%string with (GraphNode.id dN).
    rewrite <- Hid. eapply reach_first; [done..|]. by rewrite Hid.
  - assert (Hw : w ∈ wps) by (rewrite Hwps; apply elem_of_cons; by left).
    destruct (chain_forward [] sN (dN :: wps) w) as (l & n & Hl & Hn & Hid & Hwt).
    { reflexivity. }
    { apply elem_of_cons. by right. }
    { apply chain_source_in. }
    apply (chain_reach rest [] w); [by rewrite <- Hwps|].
    rewrite <- Hwt, <- Hid. eapply reach_first; [done..|].
    rewrite Hid. by apply (waypointsOf_ids M rnd source destination).
Qed.

End ChainWalk.

(** ** The chain when no waypoint is closer than the destination *)

Lemma chainFrom_ge (M : MathLib) (c : Q) prev rest dN :
  MathNonneg M -> (c <= chainFrom M c prev rest dN)%Q.
Proof.
  intros HM. revert c prev. induction rest as [|w rest IH]; intros c prev; simpl.
  - pose proof (calculateDistance_nonneg M (GraphNode.lat dN) (GraphNode.lng dN)
                  (GraphNode.lat prev) (GraphNode.lng prev) HM) as H.
    unfold distanceBetween. lra.
  - pose proof (calculateDistance_nonneg M (GraphNode.lat prev) (GraphNode.lng prev)
                  (GraphNode.lat w) (GraphNode.lng w) HM) as H.
    eapply Qle_trans; [|apply IH]. unfold distanceBetween. lra.
Qed.

(** The bound of the chain also holds, with distances of the exact sign,
    when no waypoint is strictly closer to the source than the destination
    is (identical source and destination included): the loop then stops at
    its second iteration with the weight of the direct edge. *)
Lemma solver_within_chain_direct (M : MathLib) (rnd : nat -> Q)
    (source destination : Location.t) (fuel : nat) (st : Solver.t) :
  let g := generateGraph M rnd source destination shortest in
  let sN := nodeOf "source" source in
  let dN := nodeOf "destination" destination in
  MathNonneg M ->
  (forall w, w ∈ waypointsOf M rnd source destination ->
     (distanceBetween M sN dN <= distanceBetween M sN w)%Q) ->
  dijkstraLoop fuel (buildAdjacency (fst g) (snd g)) (initialize (fst g))
  = Returned st ->
  exists q,
    Solver.distances st !! "destination"%string = Some (Fin q)
    /\ (q <= chainDistance M sN dN (waypointsOf M rnd source destination))%Q.
Proof.
  intros g sN dN HM Hfar Hloop. subst g.
  pose proof (generateGraph_nodes M rnd source destination shortest) as Hn.
  destruct (generateGraph_edges M rnd source destination shortest)
    as (eD & esW & es2 & He & HeD & HesW & Hes2).
  destruct (generateGraph M rnd source destination shortest) as [nodes edges].
  cbn [fst snd] in *. subst nodes edges. fold sN dN in HeD, HesW, Hes2, Hloop.
  exists (0 + GraphEdge.weight eD)%Q. split.
  - apply (star_direct_distance sN dN (waypointsOf M rnd source destination)
             eD esW es2) with (fuel := fuel); try done.
    + apply waypointsOf_ids.
    + destruct HeD as (? & ? & _). done.
    + eapply Forall2_impl; [exact HesW|]. intros w e (? & ? & _). done.
    + intros e Hin. destruct (Hes2 e Hin) as (n1 & n2 & H1 & H2 & Hf & Ht & _).
      rewrite Hf, Ht. unfold ids. split; apply list_elem_of_fmap; eauto.
    + intros e Hin. destruct HeD as (_ & _ & _ & ->).
      destruct (Forall2_elem_r _ _ _ _ HesW Hin) as (w & Hw & _ & _ & _ & ->).
      by apply Hfar.
  - destruct HeD as (_ & _ & _ & ->). unfold chainDistance.
    destruct (waypointsOf M rnd source destination) as [|w rest] eqn:Hwps; [lra|].
    pose proof (chainFrom_ge M (distanceBetween M sN w) w rest dN HM) as Hge.
    specialize (Hfar w ltac:(apply elem_of_cons; by left)). lra.
Qed.

(** * The claims *)

(** ** C1: path endpoints *)



(** ** C2: the solver's distance against the chain through the waypoints *)

(** C2. On a graph synthesized in the shortest mode whose edge weights are
    all positive, whenever the search loop stops, the distance it leaves at
    the destination is finite and at most the sum of the base distances of
    the edges along the chain source, waypoint_1, ..., waypoint_n,
    destination. *)
Theorem solver_within_chain (M : MathLib) (rnd : nat -> Q)
    (source destination : Location.t) (fuel : nat) (st : Solver.t) :
  let g := generateGraph M rnd source destination shortest in
  (forall e, e ∈ snd g -> (0 < GraphEdge.weight e)%Q) ->
  dijkstraLoop fuel (buildAdjacency (fst g) (snd g)) (initialize (fst g))
  = Returned st ->
  exists q,
    Solver.distances st !! "destination"%string = Some (Fin q)
    /\ (q <= chainDistance M (nodeOf "source" source)
                (nodeOf "destination" destination)
                (waypointsOf M rnd source destination))%Q.
Proof.
  intros g Hpos Hloop.
  pose proof (chain_reachCost M rnd source destination) as Hreach.
  fold g in Hreach. subst g.
  pose proof (generateGraph_nodes M rnd source destination shortest) as Hn.
  destruct (generateGraph_edges M rnd source destination shortest)
    as (eD & esW & es2 & He & HeD & HesW & Hes2).
  destruct (generateGraph M rnd source destination shortest) as [nodes edges].
  cbn [fst snd] in *. subst nodes edges.
  set (sN := nodeOf "source" source) in *.
  set (dN := nodeOf "destination" destination) in *.
  set (wps := waypointsOf M rnd source destination) in *.
  set (graph := buildAdjacency (sN :: dN :: wps) ((eD :: esW) ++ es2)) in *.
  assert (Hids : forall w, w ∈ wps ->
            GraphNode.id w <> "source"%string /\ GraphNode.id w <> "destination"%string
            /\ GraphNode.id w <> ""%string) by apply waypointsOf_ids.
  assert (HeD' : GraphEdge.from eD = "source"%string
                 /\ GraphEdge.to eD = "destination"%string).
  { destruct HeD as (? & ? & _). done. }
  assert (HesW' : Forall2 (fun w e => GraphEdge.from e = "source"%string
                                      /\ GraphEdge.to e = GraphNode.id w) wps esW).
  { eapply Forall2_impl; [exact HesW|]. intros w e (? & ? & _). done. }
  assert (Hes2' : forall e, e ∈ es2 ->
            GraphEdge.from e ∈ ids (dN :: wps) /\ GraphEdge.to e ∈ ids (dN :: wps)).
  { intros e Hin. destruct (Hes2 e Hin) as (n1 & n2 & H1 & H2 & Hf & Ht & _).
    rewrite Hf, Ht. unfold ids. split; apply list_elem_of_fmap; eauto. }
  assert (Hsource : graph !! "source"%string = Some (List.map toNeighbor (eD :: esW))).
  { by apply star_graph_source. }
  assert (Hweights : forall x l n, graph !! x = Some l -> n ∈ l ->
            (0 < Neighbor.weight n)%Q).
  { intros x l n. by apply adjacency_weight. }
  assert (Hnonempty : forall x l n, graph !! x = Some l -> n ∈ l ->
            Neighbor.nodeId n <> ""%string).
  { intros x l n Hl Hin.
    pose proof (star_graph_closed sN dN wps eD esW es2 eq_refl eq_refl Hids
                  HeD' HesW' Hes2' x l n Hl Hin) as Hid.
    unfold ids in Hid. simpl in Hid. apply elem_of_cons in Hid as [->|Hid]; [done|].
    by apply (star_rest_ids dN wps eq_refl Hids). }
  assert (Hnoloop : forall l n, graph !! "source"%string = Some l -> n ∈ l ->
            Neighbor.nodeId n <> "source"%string).
  { intros l n Hl Hin. rewrite Hsource in Hl. injection Hl as <-.
    apply (star_rest_ids dN wps eq_refl Hids).
    by apply (star_adjS_in dN wps eD esW eq_refl Hids HeD' HesW'). }
  destruct fuel as [|fuel].
  { rewrite dijkstraLoop_unfold in Hloop.
    destruct (initialize_spec (sN :: dN :: wps)) as (_ & _ & Hq).
    by rewrite Hq in Hloop. }
  rewrite (dijkstraLoop_first _ _ fuel graph Hsource) in Hloop.
  eapply (dijkstraLoop_bound graph Hweights Hnonempty Hnoloop); [|exact Hloop|exact Hreach].
  pose proof (first_fullInv graph Hweights Hnonempty Hnoloop
                (initialize (sN :: dN :: wps))
                (initialize_baseInv _) (initialize_settled _ _)) as Hfirst.
  rewrite Hsource in Hfirst. apply Hfirst.
  - by destruct (initialize_spec (sN :: dN :: wps)) as (_ & _ & ?).
  - apply initialize_source_zero.
Qed.

Lemma solver_within_chain_witness :
  exists q,
    Solver.distances newarkState !! "destination"%string = Some (Fin q)
    /\ (q <= chainDistance RefMath.lib (nodeOf "source" newYork)
                (nodeOf "destination" newark)
                (waypointsOf RefMath.lib rndHalf newYork newark))%Q.
Proof.
  apply (solver_within_chain RefMath.lib rndHalf newYork newark 10 newarkState).
  - intros e He. vm_compute in He.
    repeat (apply elem_of_cons in He as [->|He]; [reflexivity|]).
    by apply elem_of_nil in He.
  - vm_compute. reflexivity.
Defined.

(** ** C3: an unreachable destination *)

Lemma relax_unreachedNull nodes u st n :
  unreachedNull nodes st -> unreachedNull nodes (relax u st n).
Proof.
  intros Hinv. destruct (relax_cases u st n) as [[_ ->]|[Hlt ->]]; [done|].
  intros x. simpl. destruct (decide (x = Neighbor.nodeId n)) as [->|Hne].
  - rewrite lookup_insert_eq. apply nlt_true_inv in Hlt as (q & -> & _). discriminate.
  - rewrite !lookup_insert_ne by done. apply Hinv.
Qed.

Lemma dijkstraLoop_unreachedNull nodes fuel graph st st' :
  unreachedNull nodes st -> dijkstraLoop fuel graph st = Returned st' ->
  unreachedNull nodes st'.
Proof.
  revert st. induction fuel as [|fuel IH]; intros st Hinv;
    rewrite dijkstraLoop_unfold; destruct (Solver.pq st) as [|it rest];
    try discriminate; try (by intros [= <-]).
  cbv zeta. repeat case_decide; try (by intros [= <-]).
  apply IH. by apply fold_left_invariant; [|intros; apply relax_unreachedNull].
Qed.

Lemma initialize_unreachedNull nodes : unreachedNull nodes (initialize nodes).
Proof.
  destruct (initialize_spec nodes) as (Hd & Hp & _).
  intros x. rewrite Hd, Hp. case_decide; [done | discriminate].
Qed.

Lemma find_by_id nodes x :
  x ∈ ids nodes ->
  exists d, List.find (fun n => bool_decide (GraphNode.id n = x)) nodes = Some d
            /\ GraphNode.id d = x.
Proof.
  induction nodes as [|n nodes IH]; intros Hx.
  - by apply elem_of_nil in Hx.
  - simpl. destruct (decide (GraphNode.id n = x)) as [Heq|Hne].
    + rewrite bool_decide_eq_true_2 by done. by exists n.
    + rewrite bool_decide_eq_false_2 by done. apply IH.
      unfold ids in Hx. simpl in Hx. apply elem_of_cons in Hx as [->|Hx]; [done|].
      exact Hx.
Qed.

(** C3, as the code has it. If the search ends with
    [distance[destination] = Infinity], the destination has no predecessor
    and [solve] returns, as an ordinary result, the route made of the
    destination node alone with distance "0 km", time "0 min" and no
    directions. *)
Theorem unreachable_destination_result (M : MathLib) (fuel : nat)
    (nodes : list GraphNode.t) (edges : list GraphEdge.t) (st : Solver.t) :
  dijkstraLoop fuel (buildAdjacency nodes edges) (initialize nodes) = Returned st ->
  Solver.distances st !! "destination"%string = Some Infinity ->
  exists d,
    List.find (fun n => bool_decide (GraphNode.id n = "destination"%string)) nodes
    = Some d
    /\ Solver.previous st !! "destination"%string = Some None
    /\ solve M fuel nodes edges = Returned (strandedRoute d).
Proof.
  intros Hloop Hinf.
  destruct (dijkstraLoop_unreachedNull nodes _ _ _ _
              (initialize_unreachedNull nodes) Hloop _ Hinf) as [Hin Hprev].
  destruct (find_by_id nodes _ Hin) as (d & Hfind & _).
  exists d. split; [done|]. split; [done|].
  unfold solve. rewrite Hloop, bind_Returned_eq.
  destruct fuel as [|fuel].
  { rewrite dijkstraLoop_unfold in Hloop.
    destruct (initialize_spec nodes) as (_ & _ & Hq). by rewrite Hq in Hloop. }
  cbn [reconstructPath]. rewrite Hfind, Hprev. cbn [orNull].
  assert (Hrec : forall f, reconstructPath f nodes (Solver.previous st) None [d]
                           = Returned [d]) by (by intros []).
  rewrite Hrec. reflexivity.
Qed.

Lemma unreachable_destination_result_witness :
  exists d,
    List.find (fun n => bool_decide (GraphNode.id n = "destination"%string))
              [nodeA; nodeB] = Some d
    /\ Solver.previous
         (Solver.mk (<["destination"%string := Infinity]>
                       (<["source"%string := Fin 0]> ∅))
                    (<["destination"%string := None]>
                       (<["source"%string := None]> ∅)) [])
       !! "destination"%string = Some None
    /\ solve RefMath.lib 2 [nodeA; nodeB] [] = Returned (strandedRoute d).
Proof.
  apply (unreachable_destination_result RefMath.lib 2 [nodeA; nodeB] []).
  - vm_compute. reflexivity.
  - vm_compute. reflexivity.
Defined.

(** C3 as the specification states it fails: on the two-node graph without
    edges the search leaves the destination at [Infinity], and the engine
    returns a one-node, zero-distance route as a normal result. *)
Lemma unreachable_destination_counterexample :
  match dijkstraLoop 2 (buildAdjacency [nodeA; nodeB] []) (initialize [nodeA; nodeB]) with
  | Returned st =>
      Solver.distances st !! "destination"%string = Some Infinity
      /\ Solver.previous st !! "destination"%string = Some None
  | _ => False
  end
  /\ solve RefMath.lib 2 [nodeA; nodeB] []
     = Returned (RouteResult.mk [nodeB] "0 km" "0 min" "Dijkstra's" []).
Proof. vm_compute. repeat split. Qed.

(** ** C4: identical source and destination *)

(** C4, as the code has it. With a [Math] that has the exact values at 0
    and 1 and the sign of the exact functions, and at least two units of
    fuel, [findShortestPath(p, p, "shortest")] returns the two-node path
    source, destination, with distance "0 km" and time "0 min", and one
    direction: the start instruction, with leg distance 0 and the compass
    label [calculateBearing] computes for the zero-length segment from [p]
    to [p]. *)
Theorem degenerate_route (M : MathLib) (rnd : nat -> Q) (fuel : nat) (p : Location.t) :
  MathNonneg M -> MathExact M -> (2 <= fuel)%nat ->
  exists r d,
    findShortestPath M rnd fuel p p shortest = Returned r
    /\ RouteResult.path r = [nodeOf "source" p; nodeOf "destination" p]
    /\ RouteResult.totalDistance r = "0 km"%string
    /\ RouteResult.totalTime r = "0 min"%string
    /\ RouteResult.directions r = [d]
    /\ Direction.instruction d
       = ("Start your journey from " ++ Location.name p)%string
    /\ (Direction.distance d == 0)%Q
    /\ Direction.direction d
       = calculateBearing M (Location.lat p) (Location.lng p)
                            (Location.lat p) (Location.lng p).
Proof.
  intros Hnn Hex Hfuel.
  destruct fuel as [|[|fuel]]; [lia..|].
  assert (Hzero : (distanceBetween M (nodeOf "source" p) (nodeOf "destination" p)
                   == 0)%Q).
  { unfold distanceBetween. simpl. by apply calculateDistance_same. }
  eexists. eexists. split.
  { apply findShortestPath_returns. intros w _. rewrite Hzero.
    unfold distanceBetween. by apply calculateDistance_nonneg. }
  unfold directRoute. cbn [RouteResult.path RouteResult.totalDistance
    RouteResult.totalTime RouteResult.directions Direction.instruction
    Direction.distance Direction.direction].
  assert (Hsum : (sumDistances M [nodeOf "source" p; nodeOf "destination" p] == 0)%Q).
  { unfold sumDistances. simpl. rewrite Hzero. reflexivity. }
  rewrite !(Math_round_zero _ _ Hsum), (Math_round_zero _ _ Hzero).
  repeat split.
Qed.

Lemma degenerate_route_witness :
  exists r d,
    findShortestPath RefMath.lib rndHalf 2 newYork newYork shortest = Returned r
    /\ RouteResult.path r = [nodeOf "source" newYork; nodeOf "destination" newYork]
    /\ RouteResult.totalDistance r = "0 km"%string
    /\ RouteResult.totalTime r = "0 min"%string
    /\ RouteResult.directions r = [d]
    /\ Direction.instruction d
       = ("Start your journey from " ++ Location.name newYork)%string
    /\ (Direction.distance d == 0)%Q
    /\ Direction.direction d
       = calculateBearing RefMath.lib (Location.lat newYork) (Location.lng newYork)
                                      (Location.lat newYork) (Location.lng newYork).
Proof.
  apply (degenerate_route RefMath.lib rndHalf 2 newYork).
  - exact RefMath_nonneg.
  - exact RefMath_exact.
  - lia.
Defined.

(** C4 as the specification states it fails: from New York to New York the
    engine returns a path of two nodes, not one, and a direction entry whose
    compass label, North, is the bearing computed for the zero-length segment. *)
Lemma degenerate_route_counterexample :
  exists r,
    findShortestPath RefMath.lib rndHalf 2 newYork newYork shortest = Returned r
    /\ length (RouteResult.path r) = 2%nat
    /\ exists d, d ∈ RouteResult.directions r
                  /\ Direction.direction d = Some "North"%string
                  /\ Direction.direction d
                     = calculateBearing RefMath.lib
                         (Location.lat newYork) (Location.lng newYork)
                         (Location.lat newYork) (Location.lng newYork).
Proof.
  exists (directRoute RefMath.lib (nodeOf "source" newYork)
                      (nodeOf "destination" newYork)).
  split; [vm_compute; reflexivity|]. split; [reflexivity|].
  eexists. split; [apply elem_of_cons; left; reflexivity|].
  split; vm_compute; reflexivity.
Qed.

(** ** C5: the shortest mode is deterministic *)



(** ** C6: one direction per leg *)

(** C6. For every route [solve] returns (hence every route
    [findShortestPath] returns), the directions are one fewer than the path
    nodes when the path has at least two nodes, and there are none when it
    has fewer than two. *)
Theorem direction_count (M : MathLib) (fuel : nat) (nodes : list GraphNode.t)
    (edges : list GraphEdge.t) (r : RouteResult.t) :
  solve M fuel nodes edges = Returned r ->
  ((2 <= length (RouteResult.path r))%nat ->
     length (RouteResult.directions r) = (length (RouteResult.path r) - 1)%nat)
  /\ ((length (RouteResult.path r) < 2)%nat -> RouteResult.directions r = []).
Proof.
  intros Hr. apply solve_Returned in Hr as (st & path & ds & _ & _ & Hds & ->).
  simpl. apply generateDirections_length in Hds. split.
  - intros _. exact Hds.
  - intros Hlt. destruct ds as [|d ds]; [done|]. simpl in Hds. lia.
Qed.

Lemma direction_count_witness :
  ((2 <= length (RouteResult.path (directRoute RefMath.lib nodeA nodeB)))%nat ->
     length (RouteResult.directions (directRoute RefMath.lib nodeA nodeB))
     = (length (RouteResult.path (directRoute RefMath.lib nodeA nodeB)) - 1)%nat)
  /\ ((length (RouteResult.path (directRoute RefMath.lib nodeA nodeB)) < 2)%nat ->
      RouteResult.directions (directRoute RefMath.lib nodeA nodeB) = []).
Proof.
  apply (direction_count RefMath.lib 2 [nodeA; nodeB] [edgeAB]).
  vm_compute. reflexivity.
Defined.

(** ** C7: the reported distance is recomputed from the coordinates *)

Lemma fold_sum_shift (M : MathLib) (ls : list (GraphNode.t * GraphNode.t)) (acc : Q) :
  (fold_left (fun total leg => total + distanceBetween M (fst leg) (snd leg)) ls acc
   == acc + fold_left (fun total leg => total + distanceBetween M (fst leg) (snd leg)) ls 0)%Q.
Proof.
  revert acc. induction ls as [|leg ls IH]; intros acc; simpl.
  - ring.
  - rewrite (IH (acc + _)%Q), (IH (0 + _)%Q). ring.
Qed.

Lemma sumDistances_greatCircleSum (M : MathLib) (path : list GraphNode.t) :
  (sumDistances M path == greatCircleSum M path)%Q.
Proof.
  unfold sumDistances. induction path as [|a [|b rest] IH]; simpl in *; try reflexivity.
  rewrite fold_sum_shift, IH. ring.
Qed.

Lemma Math_round_tenths (x : Q) :
  (Qabs (inject_Z (Math_round (x * 10)) / 10 - x) <= 1 # 20)%Q.
Proof.
  unfold Math_round.
  pose proof (Qfloor_le (x * 10 + (1 # 2))) as Hlo.
  pose proof (Qlt_floor (x * 10 + (1 # 2))) as Hhi.
  rewrite inject_Z_plus in Hhi. change (inject_Z 1) with 1%Q in Hhi.
  set (k := inject_Z (Qfloor (x * 10 + (1 # 2)))) in *. clearbody k.
  assert (Hdiv : (k / 10 == k * (1 # 10))%Q) by (field; discriminate).
  apply Qabs_Qle_condition. rewrite Hdiv. split; lra.
Qed.

(** C7. The distance a returned route reports is the rendering of a whole
    number of tenths of a kilometre that lies within 0.05 km of the sum of the
    great-circle distances between consecutive path nodes, computed from the
    nodes' coordinates; the edge weights (and so the route type) do not enter. *)
Theorem total_distance_additive (M : MathLib) (fuel : nat)
    (nodes : list GraphNode.t) (edges : list GraphEdge.t) (r : RouteResult.t) :
  solve M fuel nodes edges = Returned r ->
  exists k : Z,
    RouteResult.totalDistance r = (string_of_tenths k ++ " km")%string
    /\ (Qabs (inject_Z k / 10 - greatCircleSum M (RouteResult.path r)) <= 1 # 20)%Q.
Proof.
  intros Hr. apply solve_Returned in Hr as (st & path & ds & _ & _ & _ & ->).
  cbn [RouteResult.totalDistance RouteResult.path].
  exists (Math_round (sumDistances M path * 10)). split; [done|].
  eapply Qle_trans; [|apply (Math_round_tenths (sumDistances M path))].
  apply Qle_lteq. right. apply Qabs_wd. unfold Qminus.
  apply Qplus_comp; [reflexivity|]. apply Qopp_comp. symmetry.
  apply sumDistances_greatCircleSum.
Qed.

Lemma total_distance_additive_witness :
  exists k : Z,
    RouteResult.totalDistance (directRoute RefMath.lib nodeA nodeB)
    = (string_of_tenths k ++ " km")%string
    /\ (Qabs (inject_Z k / 10
              - greatCircleSum RefMath.lib
                  (RouteResult.path (directRoute RefMath.lib nodeA nodeB)))
        <= 1 # 20)%Q.
Proof.
  apply (total_distance_additive RefMath.lib 2 [nodeA; nodeB] [edgeAB]).
  vm_compute. reflexivity.
Defined.

(** ** C8: edge weights are not negative *)

(** C8. With a [Math] whose square root and [atan2] have the sign of the
    exact functions, and a [Math.random()] that returns values in [0, 1),
    every edge of the synthesized graph has a non-negative traversal weight,
    under either route type; in the safest mode the weight is the base
    distance times a strictly positive multiplier. *)
Theorem edge_weights_nonneg (M : MathLib) (rnd : nat -> Q)
    (source destination : Location.t) (routeType : RouteType) (e : GraphEdge.t) :
  MathNonneg M ->
  (forall k, (0 <= rnd k < 1)%Q) ->
  e ∈ snd (generateGraph M rnd source destination routeType) ->
  (0 <= GraphEdge.weight e)%Q
  /\ (0 <= GraphEdge.distance e)%Q
  /\ (routeType = safest ->
      exists factor, (0 < factor)%Q
                     /\ GraphEdge.weight e = (GraphEdge.distance e * factor)%Q).
Proof.
  intros HM Hrnd He.
  assert (Hedge : exists n1 n2, edgeBetween M rnd routeType n1 n2 e).
  { unfold generateGraph in He. cbv zeta in He. cbn [snd] in He.
    destruct (connectAll_spec M rnd _ _ _ e He) as (n1 & n2 & _ & _ & H).
    by exists n1, n2. }
  destruct Hedge as (n1 & n2 & _ & _ & Hd & Hw).
  assert (Hdist : (0 <= distanceBetween M n1 n2)%Q)
    by (by apply calculateDistance_nonneg).
  rewrite Hd. destruct routeType.
  - rewrite Hw. split; [done|]. split; [done|]. discriminate.
  - destruct Hw as (k & Hw). rewrite Hw.
    pose proof (safety_multiplier_positive (rnd k) (Hrnd k)) as Hpos.
    split; [|split; [done|]].
    + apply Qmult_le_0_compat; [done | by apply Qlt_le_weak].
    + intros _. by exists (2 - (0.8 + rnd k * 0.4))%Q.
Qed.

Lemma edge_weights_nonneg_witness :
  (0 <= GraphEdge.weight cornerEdge)%Q
  /\ (0 <= GraphEdge.distance cornerEdge)%Q
  /\ (safest = safest ->
      exists factor, (0 < factor)%Q
                     /\ GraphEdge.weight cornerEdge
                        = (GraphEdge.distance cornerEdge * factor)%Q).
Proof.
  apply (edge_weights_nonneg RefMath.lib rndNine cornerA cornerB safest cornerEdge).
  - exact RefMath_nonneg.
  - intros k. unfold rndNine. split; [discriminate | reflexivity].
  - vm_compute. constructor.
Defined.

(** ** C9: termination *)

(** C9 fails on the code. In the shortest mode, whenever some waypoint is
    strictly closer to the source than the destination is, no amount of fuel
    makes [findShortestPath] return: the waypoint is dequeued before the
    destination, its edge back to the source passes the test
    [altDistance < (0 || Infinity)], the source gets the waypoint as
    predecessor, and the backward walk from the destination cycles. *)
Theorem closer_waypoint_never_returns (M : MathLib) (rnd : nat -> Q)
    (source destination : Location.t) (w : GraphNode.t) (fuel : nat) :
  w ∈ waypointsOf M rnd source destination ->
  (distanceBetween M (nodeOf "source" source) w
   < distanceBetween M (nodeOf "source" source) (nodeOf "destination" destination))%Q ->
  findShortestPath M rnd fuel source destination shortest = OutOfFuel.
Proof. intros Hw Hnear. by eapply findShortestPath_diverges. Qed.

Lemma closer_waypoint_never_returns_witness :
  findShortestPath RefMath.lib rndHalf 1000 newYork newark shortest = OutOfFuel.
Proof.
  apply (closer_waypoint_never_returns RefMath.lib rndHalf newYork newark
           (waypoint rndHalf newYork newark 2 1)).
  - vm_compute. constructor.
  - vm_compute. reflexivity.
Defined.

(** From New York to Newark the predecessor map the loop leaves behind has
    the cycle source, waypoint_1, source. *)
Lemma newark_predecessors_cycle :
  let g := generateGraph RefMath.lib rndHalf newYork newark shortest in
  match dijkstraLoop 10 (buildAdjacency (fst g) (snd g)) (initialize (fst g)) with
  | Returned st =>
      Solver.previous st !! "destination"%string = Some (Some "source"%string)
      /\ Solver.previous st !! "source"%string = Some (Some "waypoint_1"%string)
      /\ Solver.previous st !! "waypoint_1"%string = Some (Some "source"%string)
  | _ => False
  end.
Proof. vm_compute. repeat split. Qed.

(** ** C10: a two-node route has the start instruction only *)

(** C10. When the path of a returned route has exactly two nodes, the
    directions are one entry, the "Start your journey from" instruction for
    the first node; no entry is an "Arrive at" instruction. *)
Theorem two_node_directions (M : MathLib) (fuel : nat) (nodes : list GraphNode.t)
    (edges : list GraphEdge.t) (r : RouteResult.t) :
  solve M fuel nodes edges = Returned r ->
  length (RouteResult.path r) = 2%nat ->
  exists a b,
    RouteResult.path r = [a; b]
    /\ RouteResult.directions r =
       [Direction.mk ("Start your journey from " ++ GraphNode.name a)%string
          (inject_Z (Math_round (distanceBetween M a b * 10)) / 10)
          (calculateBearing M (GraphNode.lat a) (GraphNode.lng a)
                              (GraphNode.lat b) (GraphNode.lng b))]
    /\ forall d, d ∈ RouteResult.directions r ->
         forall place, Direction.instruction d <> ("Arrive at " ++ place)%string.
Proof.
  intros Hr Hlen. apply solve_Returned in Hr as (st & path & ds & _ & _ & Hds & ->).
  cbn [RouteResult.path RouteResult.directions] in *.
  destruct path as [|a [|b [|c rest]]]; try discriminate.
  exists a, b. split; [done|].
  injection Hds as <-. split; [done|].
  intros d Hd place. apply list_elem_of_singleton in Hd as ->. simpl. discriminate.
Qed.

Lemma two_node_directions_witness :
  exists a b,
    RouteResult.path (directRoute RefMath.lib nodeA nodeB) = [a; b]
    /\ RouteResult.directions (directRoute RefMath.lib nodeA nodeB) =
       [Direction.mk ("Start your journey from " ++ GraphNode.name a)%string
          (inject_Z (Math_round (distanceBetween RefMath.lib a b * 10)) / 10)
          (calculateBearing RefMath.lib (GraphNode.lat a) (GraphNode.lng a)
                                        (GraphNode.lat b) (GraphNode.lng b))]
    /\ forall d, d ∈ RouteResult.directions (directRoute RefMath.lib nodeA nodeB) ->
         forall place, Direction.instruction d <> ("Arrive at " ++ place)%string.
Proof.
  apply (two_node_directions RefMath.lib 2 [nodeA; nodeB] [edgeAB]).
  - vm_compute. reflexivity.
  - reflexivity.
Defined.

(** * Further properties of the code *)

(** ** The priority queue *)

Lemma insert_Permutation {T : Type} (x : @PriorityQueue.item T) l :
  Permutation (PriorityQueue.insert x l) (x :: l).
Proof.
  induction l as [|y l IH]; simpl; [done|].
  destruct (PriorityQueue.after x y); [|done].
  rewrite IH. apply perm_swap.
Qed.

Lemma sort_Permutation {T : Type} (l : list (@PriorityQueue.item T)) :
  Permutation (PriorityQueue.sort l) l.
Proof.
  induction l as [|y l IH]; simpl; [done|].
  by rewrite insert_Permutation, IH.
Qed.

Lemma enqueue_Permutation {T : Type} (e : T) (p : number) l :
  Permutation (PriorityQueue.enqueue e p l) ((e, p) :: l).
Proof.
  unfold PriorityQueue.enqueue. rewrite sort_Permutation.
  rewrite Permutation_app_comm. done.
Qed.

Lemma insert_front {T : Type} (x : @PriorityQueue.item T) l :
  (forall y, y ∈ l -> nle (PriorityQueue.priority x) (PriorityQueue.priority y)) ->
  PriorityQueue.insert x l = x :: l.
Proof.
  destruct l as [|y l]; [done|]. intros H. simpl.
  unfold PriorityQueue.after.
  assert (Hy : nle (PriorityQueue.priority x) (PriorityQueue.priority y)).
  { apply H. apply elem_of_cons. by left. }
  apply nlt_false_nle in Hy. by rewrite Hy.
Qed.

(** X1. Whatever the queue holds, [enqueue] keeps every item, adds the new
    one, leaves the items sorted by priority, and leaves the queue
    non-empty. *)
Theorem enqueue_keeps_and_sorts {T : Type} (e : T) (p : number)
    (items : list (@PriorityQueue.item T)) :
  Permutation (PriorityQueue.enqueue e p items) ((e, p) :: items)
  /\ ordered (PriorityQueue.enqueue e p items)
  /\ PriorityQueue.isEmpty (PriorityQueue.enqueue e p items) = false.
Proof.
  split; [apply enqueue_Permutation|]. split; [apply enqueue_ordered|].
  pose proof (enqueue_Permutation e p items) as Hp.
  destruct (PriorityQueue.enqueue e p items); [|done].
  by apply Permutation_nil_cons in Hp.
Qed.

(** X2. On a sorted queue [enqueue] is first in, first out among equal
    priorities: the new item goes behind every item whose priority is not
    larger and in front of every item whose priority is larger, and the other
    items keep their order. *)
Theorem enqueue_first_in_first_out {T : Type} (e : T) (p : number)
    (items : list (@PriorityQueue.item T)) :
  ordered items ->
  exists front back,
    items = front ++ back
    /\ PriorityQueue.enqueue e p items = front ++ (e, p) :: back
    /\ (forall y, y ∈ front -> nle (PriorityQueue.priority y) p)
    /\ (forall y, y ∈ back -> nlt p (PriorityQueue.priority y) = true).
Proof.
  induction items as [|a l IH]; intros Hord.
  - exists [], []. repeat split; intros y Hy; by apply elem_of_nil in Hy.
  - destruct Hord as [Ha Hl]. destruct (IH Hl) as (front & back & -> & Henq & Hf & Hb).
    unfold PriorityQueue.enqueue in *. simpl. rewrite Henq.
    destruct (nlt p (PriorityQueue.priority a)) eqn:Hlt.
    + (* the new item goes in front of [a], hence of everything *)
      destruct front as [|f front].
      * exists [], (a :: back). simpl. split; [done|]. split.
        -- unfold PriorityQueue.after. simpl. rewrite Hlt. f_equal.
           by apply insert_front.
        -- split; [intros y Hy; by apply elem_of_nil in Hy|].
           intros y Hy. apply elem_of_cons in Hy as [->|Hy]; [done | by apply Hb].
      * exfalso.
        assert (Hfa : nle (PriorityQueue.priority a) (PriorityQueue.priority f)).
        { apply Ha. apply elem_of_cons. by left. }
        assert (Hfp : nle (PriorityQueue.priority f) p).
        { apply Hf. apply elem_of_cons. by left. }
        apply nlt_true_inv in Hlt as (_ & _ & _ & Hn). apply Hn.
        eapply nle_trans; [exact Hfa | exact Hfp].
    + exists (a :: front), back. split; [done|]. split.
      * simpl. apply insert_front. intros y Hy.
        apply elem_of_app in Hy as [Hy|Hy].
        -- apply Ha. apply elem_of_app. by left.
        -- apply elem_of_cons in Hy as [->|Hy].
           ++ by apply nlt_false_nle in Hlt.
           ++ apply Ha. apply elem_of_app. by right.
      * split; [|done]. intros y Hy.
        apply elem_of_cons in Hy as [->|Hy]; [|by apply Hf].
        by apply nlt_false_nle in Hlt.
Qed.

Lemma enqueue_first_in_first_out_witness :
  exists front back : list (@PriorityQueue.item string),
    [("a"%string, Fin 1); ("b"%string, Fin 2); ("c"%string, Fin 3)] = front ++ back
    /\ PriorityQueue.enqueue "n"%string (Fin 2)
         [("a"%string, Fin 1); ("b"%string, Fin 2); ("c"%string, Fin 3)]
       = front ++ ("n"%string, Fin 2) :: back
    /\ (forall y, y ∈ front -> nle (PriorityQueue.priority y) (Fin 2))
    /\ (forall y, y ∈ back -> nlt (Fin 2) (PriorityQueue.priority y) = true).
Proof.
  apply (enqueue_first_in_first_out "n"%string (Fin 2)
           [("a"%string, Fin 1); ("b"%string, Fin 2); ("c"%string, Fin 3)]).
  simpl. repeat split; intros y Hy;
    repeat (apply elem_of_cons in Hy as [->|Hy]; [simpl; try discriminate|]);
    try (by apply elem_of_nil in Hy).
Defined.

(** X3. Right after an [enqueue], [dequeue] does not return [undefined]: it
    removes one of the items, whose priority is no larger than that of any
    item it leaves behind. *)
Theorem dequeue_after_enqueue_least {T : Type} (e : T) (p : number)
    (items : list (@PriorityQueue.item T)) :
  exists it rest,
    PriorityQueue.dequeue (PriorityQueue.enqueue e p items)
    = (Some (PriorityQueue.element it), rest)
    /\ Permutation (it :: rest) ((e, p) :: items)
    /\ (forall y, y ∈ rest -> nle (PriorityQueue.priority it) (PriorityQueue.priority y)).
Proof.
  pose proof (enqueue_Permutation e p items) as Hp.
  pose proof (enqueue_ordered e p items) as Ho.
  destruct (PriorityQueue.enqueue e p items) as [|it rest].
  - by apply Permutation_nil_cons in Hp.
  - exists it, rest. split; [done|]. split; [done|]. by destruct Ho.
Qed.

(** ** Bearings *)

Lemma clippedMath_angle : MathAngle clippedMath.
Proof.
  split; [reflexivity|]. intros y x. simpl.
  destruct (Qlt_le_dec (RefMath.atan2 y x) (- RefMath.PI)) as [H1|H1].
  - split; [apply Qle_refl | discriminate].
  - destruct (Qlt_le_dec RefMath.PI (RefMath.atan2 y x)) as [H2|H2].
    + split; [discriminate | apply Qle_refl].
    + split; done.
Qed.

Lemma number_rem_nonneg (t : Q) :
  (0 <= t)%Q -> (0 <= number_rem t 360 < 360)%Q.
Proof.
  intros Ht. unfold number_rem, Qtrunc.
  assert (Hdiv : (0 <= t / 360)%Q).
  { apply Qle_shift_div_l; [reflexivity|]. lra. }
  destruct (Qlt_le_dec (t / 360) 0) as [Hneg|_]; [lra|].
  pose proof (Qfloor_le (t / 360)) as Hlo.
  pose proof (Qlt_floor (t / 360)) as Hhi.
  rewrite inject_Z_plus in Hhi. change (inject_Z 1) with 1%Q in Hhi.
  set (k := inject_Z (Qfloor (t / 360))) in *. clearbody k.
  assert (Hq : (t / 360 == t * (1 # 360))%Q) by (field; discriminate).
  rewrite Hq in Hlo, Hhi. split; lra.
Qed.

Lemma Math_round_range (x : Q) (a b : Z) :
  (inject_Z a <= x)%Q -> (x < inject_Z b)%Q -> (a <= Math_round x <= b)%Z.
Proof.
  intros Ha Hb. unfold Math_round. split.
  - rewrite <- (Qfloor_Z a). apply Qfloor_resp_le. lra.
  - assert (H : (Qfloor (x + (1 # 2)) <= Qfloor (inject_Z b + (1 # 2)))%Z).
    { apply Qfloor_resp_le. lra. }
    assert (Hb' : Qfloor (inject_Z b + (1 # 2)) = b).
    { pose proof (Qfloor_le (inject_Z b + (1 # 2))) as H1.
      pose proof (Qlt_floor (inject_Z b + (1 # 2))) as H2.
      assert (H3 : (inject_Z (Qfloor (inject_Z b + (1 # 2))) < inject_Z (b + 1))%Q).
      { rewrite inject_Z_plus. change (inject_Z 1) with 1%Q. lra. }
      assert (H4 : (inject_Z b < inject_Z (Qfloor (inject_Z b + (1 # 2)) + 1))%Q) by lra.
      rewrite <- Zlt_Qlt in H3, H4. lia. }
    lia.
Qed.

Lemma compass_at_range (index : Z) :
  (0 <= index < 8)%Z -> exists s, compass_at index = Some s /\ s ∈ compass.
Proof.
  intros H. unfold compass_at.
  destruct (index <? 0)%Z eqn:Hneg; [lia|].
  destruct (nth_error compass (Z.to_nat index)) as [s|] eqn:Hn.
  - exists s. split; [done|]. apply list_elem_of_In. by eapply nth_error_In.
  - apply nth_error_None in Hn. simpl in Hn. lia.
Qed.

(** X4. With a [Math] whose [PI] is positive and whose [atan2] stays within
    [-PI, PI], [calculateBearing] returns one of the eight compass names for
    every pair of coordinates; the index is never out of range. *)
Theorem calculateBearing_compass (M : MathLib) (lat1 lon1 lat2 lon2 : Q) :
  MathAngle M ->
  exists s, calculateBearing M lat1 lon1 lat2 lon2 = Some s /\ s ∈ compass.
Proof.
  intros [Hpi Hrange]. unfold calculateBearing. cbv zeta.
  set (theta := Math_atan2 M _ _).
  destruct (Hrange (Math_sin M (toRadians M (lon2 - lon1)) * Math_cos M (toRadians M lat2))%Q
              (Math_cos M (toRadians M lat1) * Math_sin M (toRadians M lat2)
               - Math_sin M (toRadians M lat1) * Math_cos M (toRadians M lat2)
                 * Math_cos M (toRadians M (lon2 - lon1)))%Q) as [Hlo Hhi].
  fold theta in Hlo, Hhi.
  assert (Ht : (0 <= theta * 180 / Math_PI M + 360)%Q).
  { assert (H : (-(180) <= theta * 180 / Math_PI M)%Q).
    { apply Qle_shift_div_l; [done|]. lra. }
    lra. }
  pose proof (number_rem_nonneg _ Ht) as [Hr0 Hr1].
  set (r := number_rem _ 360) in *. clearbody r.
  apply compass_at_range.
  assert (Hround : (0 <= Math_round (r / 45) <= 8)%Z).
  { assert (Hq : (r / 45 == r * (1 # 45))%Q) by (field; discriminate).
    apply Math_round_range; rewrite Hq.
    - change (inject_Z 0) with 0%Q. lra.
    - change (inject_Z 8) with 8%Q. lra. }
  destruct (Z.eq_dec (Math_round (r / 45)) 8%Z) as [->|Hne]; [done|].
  rewrite Z.rem_small by lia. lia.
Qed.

Lemma calculateBearing_compass_witness :
  exists s, calculateBearing clippedMath 40.7128 (-74.0060) 40.9 (-74.2) = Some s
            /\ s ∈ compass.
Proof.
  apply (calculateBearing_compass clippedMath 40.7128 (-74.0060) 40.9 (-74.2)).
  exact clippedMath_angle.
Defined.

(** ** The synthesized graph *)




Lemma numWaypointsOf_range (distance : Q) : (2 <= numWaypointsOf distance <= 8)%Z.
Proof. unfold numWaypointsOf, Math_min, Math_max. lia. Qed.


Lemma string_of_Z_inj (a b : Z) : string_of_Z a = string_of_Z b -> a = b.
Proof.
  unfold string_of_Z. intros H.
  assert (Hnn : forall z, Z.to_int z <> Decimal.Pos Decimal.Nil
                          /\ Z.to_int z <> Decimal.Neg Decimal.Nil).
  { intros [|p|p]; simpl; split; try discriminate.
    - intros [= Hp]. by apply DecimalPos.Unsigned.to_uint_nonnil in Hp.
    - intros [= Hp]. by apply DecimalPos.Unsigned.to_uint_nonnil in Hp. }
  assert (Hint : Some (Z.to_int a) = Some (Z.to_int b)).
  { rewrite <- (NilZero.isi (Z.to_int a)) by apply Hnn.
    rewrite <- (NilZero.isi (Z.to_int b)) by apply Hnn. by rewrite H. }
  injection Hint as Hint.
  rewrite <- (DecimalZ.of_to a), <- (DecimalZ.of_to b). by rewrite Hint.
Qed.

Lemma waypoint_id rnd source destination n i :
  GraphNode.id (waypoint rnd source destination n i)
  = ("waypoint_" ++ string_of_Z (Z.of_nat i))%string.
Proof. reflexivity. Qed.

(** X6. The ids of the nodes [generateGraph] returns are pairwise
    different. *)
Theorem generateGraph_ids_distinct (M : MathLib) (rnd : nat -> Q)
    (source destination : Location.t) (routeType : RouteType) :
  NoDup (ids (fst (generateGraph M rnd source destination routeType))).
Proof.
  rewrite generateGraph_nodes. unfold ids. simpl.
  assert (Hw : forall x, x ∈ List.map GraphNode.id (waypointsOf M rnd source destination) ->
                 x <> "source"%string /\ x <> "destination"%string).
  { intros x Hx. apply list_elem_of_fmap in Hx as (w & -> & Hw).
    destruct (waypointsOf_ids M rnd source destination w Hw) as (? & ? & _). done. }
  apply NoDup_cons. split.
  { intros Hin. apply elem_of_cons in Hin as [?|Hin]; [done|].
    by destruct (Hw _ Hin). }
  apply NoDup_cons. split.
  { intros Hin. by destruct (Hw _ Hin). }
  unfold waypointsOf. cbv zeta. rewrite List.map_map.
  apply NoDup_fmap_2_strong; [|apply NoDup_seq].
  intros i j _ _ Hij. rewrite !waypoint_id in Hij.
  apply (inj (String.app "waypoint_")) in Hij.
  apply string_of_Z_inj in Hij. lia.
Qed.

(** X7. With the sign facts of [Math] and a [Math.random()] in [0, 1): in
    the shortest mode the weight of every edge is its distance; in the
    safest mode it lies between 0.8 and 1.2 times its distance. *)
Theorem edge_weight_band (M : MathLib) (rnd : nat -> Q)
    (source destination : Location.t) (routeType : RouteType) (e : GraphEdge.t) :
  MathNonneg M ->
  (forall k, (0 <= rnd k < 1)%Q) ->
  e ∈ snd (generateGraph M rnd source destination routeType) ->
  match routeType with
  | shortest => GraphEdge.weight e = GraphEdge.distance e
  | safest =>
      (0.8 * GraphEdge.distance e <= GraphEdge.weight e
       /\ GraphEdge.weight e <= 1.2 * GraphEdge.distance e)%Q
  end.
Proof.
  intros HM Hrnd He.
  assert (Hedge : exists n1 n2, edgeBetween M rnd routeType n1 n2 e).
  { unfold generateGraph in He. cbv zeta in He. cbn [snd] in He.
    destruct (connectAll_spec M rnd _ _ _ e He) as (n1 & n2 & _ & _ & H).
    by exists n1, n2. }
  destruct Hedge as (n1 & n2 & _ & _ & Hd & Hw).
  assert (Hdist : (0 <= distanceBetween M n1 n2)%Q)
    by (by apply calculateDistance_nonneg).
  rewrite Hd. destruct routeType.
  - done.
  - destruct Hw as (k & ->). destruct (Hrnd k) as [Hr0 Hr1].
    set (d := distanceBetween M n1 n2) in *. clearbody d.
    set (r := rnd k) in *. clearbody r.
    assert (H1 : (0 <= d * ((2 - (0.8 + r * 0.4)) - 0.8))%Q).
    { apply Qmult_le_0_compat; [done|]. lra. }
    assert (H2 : (0 <= d * (1.2 - (2 - (0.8 + r * 0.4))))%Q).
    { apply Qmult_le_0_compat; [done|]. lra. }
    split; lra.
Qed.

Lemma edge_weight_band_witness :
  (0.8 * GraphEdge.distance cornerEdge <= GraphEdge.weight cornerEdge
   /\ GraphEdge.weight cornerEdge <= 1.2 * GraphEdge.distance cornerEdge)%Q.
Proof.
  apply (edge_weight_band RefMath.lib rndNine cornerA cornerB safest cornerEdge).
  - exact RefMath_nonneg.
  - intros k. unfold rndNine. split; [discriminate | reflexivity].
  - vm_compute. constructor.
Defined.

(** X8. With a [Math.random()] in [0, 1), [waypoint_i] lies on the straight
    line, in latitude and longitude, from the source to the destination at
    the fraction [i / numWaypoints], shifted by one and the same amount in
    both coordinates, an amount in [-0.005, 0.005). *)
Theorem waypoint_near_line (M : MathLib) (rnd : nat -> Q)
    (source destination : Location.t) (w : GraphNode.t) :
  (forall k, (0 <= rnd k < 1)%Q) ->
  w ∈ waypointsOf M rnd source destination ->
  let n := numWaypointsOf
             (calculateDistance M (Location.lat source) (Location.lng source)
                (Location.lat destination) (Location.lng destination)) in
  exists i : nat,
    (1 <= Z.of_nat i < n)%Z
    /\ GraphNode.id w = ("waypoint_" ++ string_of_Z (Z.of_nat i))%string
    /\ exists variation : Q,
         (- 0.005 <= variation < 0.005)%Q
         /\ GraphNode.lat w
            = (Location.lat source
               + (Location.lat destination - Location.lat source)
                 * (inject_Z (Z.of_nat i) / inject_Z n) + variation)%Q
         /\ GraphNode.lng w
            = (Location.lng source
               + (Location.lng destination - Location.lng source)
                 * (inject_Z (Z.of_nat i) / inject_Z n) + variation)%Q.
Proof.
  intros Hrnd Hw. cbv zeta. unfold waypointsOf in Hw. cbv zeta in Hw.
  pose proof (numWaypointsOf_range
                (calculateDistance M (Location.lat source) (Location.lng source)
                   (Location.lat destination) (Location.lng destination))) as Hn.
  apply list_elem_of_fmap in Hw as (i & -> & Hi).
  apply list_elem_of_In, in_seq in Hi.
  exists i. split; [lia|]. split; [done|].
  exists (0.01 * (rnd (i - 1)%nat - 0.5))%Q. split; [|done].
  destruct (Hrnd (i - 1)%nat). split; lra.
Qed.

Lemma waypoint_near_line_witness :
  let n := numWaypointsOf
             (calculateDistance RefMath.lib (Location.lat newYork) (Location.lng newYork)
                (Location.lat newark) (Location.lng newark)) in
  exists i : nat,
    (1 <= Z.of_nat i < n)%Z
    /\ GraphNode.id (waypoint rndHalf newYork newark 2 1)
       = ("waypoint_" ++ string_of_Z (Z.of_nat i))%string
    /\ exists variation : Q,
         (- 0.005 <= variation < 0.005)%Q
         /\ GraphNode.lat (waypoint rndHalf newYork newark 2 1)
            = (Location.lat newYork
               + (Location.lat newark - Location.lat newYork)
                 * (inject_Z (Z.of_nat i) / inject_Z n) + variation)%Q
         /\ GraphNode.lng (waypoint rndHalf newYork newark 2 1)
            = (Location.lng newYork
               + (Location.lng newark - Location.lng newYork)
                 * (inject_Z (Z.of_nat i) / inject_Z n) + variation)%Q.
Proof.
  apply (waypoint_near_line RefMath.lib rndHalf newYork newark
           (waypoint rndHalf newYork newark 2 1)).
  - intros k. unfold rndHalf. split; [discriminate | reflexivity].
  - vm_compute. constructor.
Defined.

(** ** The adjacency list *)

Lemma adjacency_neighbor nodes edges x y w d :
  x ∈ ids nodes ->
  Neighbor.mk y w d ∈ default [] (buildAdjacency nodes edges !! x)
  <-> exists e, e ∈ edges /\ GraphEdge.weight e = w /\ GraphEdge.distance e = d
        /\ ((GraphEdge.from e = x /\ GraphEdge.to e = y)
            \/ (GraphEdge.to e = x /\ GraphEdge.from e = y)).
Proof.
  intros Hx. rewrite buildAdjacency_lookup, decide_True by done. cbn [default].
  unfold id. rewrite elem_of_flat_map. split.
  - intros (e & He & Hn). exists e. split; [done|]. unfold entriesOf in Hn.
    apply elem_of_app in Hn as [Hn|Hn]; case_decide;
      try (by apply elem_of_nil in Hn);
      apply list_elem_of_singleton in Hn; injection Hn as -> -> ->; tauto.
  - intros (e & He & <- & <- & Hends). exists e. split; [done|].
    unfold entriesOf. apply elem_of_app.
    destruct Hends as [[Hf <-]|[Ht <-]].
    + left. rewrite decide_True by done. by apply list_elem_of_singleton.
    + right. rewrite decide_True by done. by apply list_elem_of_singleton.
Qed.

(** X9. The adjacency list has exactly the node ids as keys, and between
    two node ids it is symmetric: [y] is a neighbour of [x] with a weight
    and a distance exactly when [x] is a neighbour of [y] with them. *)
Theorem adjacency_undirected (nodes : list GraphNode.t) (edges : list GraphEdge.t)
    (x y : string) (w d : Q) :
  (is_Some (buildAdjacency nodes edges !! x) <-> x ∈ ids nodes)
  /\ (x ∈ ids nodes -> y ∈ ids nodes ->
      (Neighbor.mk y w d ∈ default [] (buildAdjacency nodes edges !! x)
       <-> Neighbor.mk x w d ∈ default [] (buildAdjacency nodes edges !! y))).
Proof.
  split.
  - rewrite buildAdjacency_lookup. case_decide; split; try done.
  - intros Hx Hy. rewrite !adjacency_neighbor by done.
    split; intros (e & He & Hw & Hd & Hends); exists e; tauto.
Qed.

(** ** The search computes shortest distances *)

Section Exact.
Variable graph : gmap string (list Neighbor.t).
Hypothesis weights_positive :
  forall x l n, graph !! x = Some l -> n ∈ l -> (0 < Neighbor.weight n)%Q.
Hypothesis ids_nonempty :
  forall x l n, graph !! x = Some l -> n ∈ l -> Neighbor.nodeId n <> ""%string.
Hypothesis source_no_loop :
  forall l n, graph !! "source"%string = Some l -> n ∈ l ->
    Neighbor.nodeId n <> "source"%string.

Lemma relax_walked u qu st n l :
  (0 <= qu)%Q ->
  graph !! u = Some l -> n ∈ l ->
  processing graph u qu st ->
  (u = "source"%string -> qu = 0%Q \/ closedAt graph st "source" 0) ->
  walked graph st -> walked graph (relax u st n).
Proof.
  intros Hqu Hl Hn [Hb Hs Halt Hd] Hsrc Hwalk.
  assert (Halt' : altDistanceOf st u n = Fin (qu + Neighbor.weight n)).
  { unfold altDistanceOf. rewrite Halt. reflexivity. }
  destruct (relax_cases u st n) as [[_ ->]|[Hlt ->]]; [done|].
  rewrite Halt' in *.
  intros x q Hx. simpl. destruct (decide (x = Neighbor.nodeId n)) as [->|Hne].
  2:{ rewrite lookup_insert_ne by done. by apply Hwalk. }
  rewrite lookup_insert_eq. intros [= <-].
  destruct (decide (u = "source"%string)) as [Hus|Hus].
  - destruct (Hsrc Hus) as [->|Hclosed].
    + exists (Neighbor.weight n). split; [|lra].
      subst u. by eapply reach_first.
    + exfalso. subst u.
      rewrite (orNumber_dval st _ Hb Hx) in Hlt.
      apply nlt_true_inv in Hlt as (_ & _ & _ & Hnot). apply Hnot.
      eapply nle_trans; [by eapply Hclosed|]. simpl. lra.
  - destruct (Hwalk u qu Hus (Hd Hus)) as (c & Hc & Heq).
    exists (c + Neighbor.weight n)%Q. split; [by eapply reach_step | lra].
Qed.

Lemma fold_walked u qu (l l' : list Neighbor.t) st :
  (0 <= qu)%Q -> u <> ""%string ->
  graph !! u = Some l -> (forall n, n ∈ l' -> n ∈ l) ->
  processing graph u qu st ->
  (u = "source"%string -> qu = 0%Q \/ closedAt graph st "source" 0) ->
  walked graph st -> walked graph (fold_left (relax u) l' st).
Proof.
  intros Hqu Hu Hl. revert st. induction l' as [|n l' IH]; intros st Hsub Hp Hsrc Hwalk.
  - done.
  - simpl.
    assert (Hn : n ∈ l) by (apply Hsub, elem_of_cons; by left).
    assert (Hloop : u = "source"%string -> Neighbor.nodeId n <> "source"%string).
    { intros Hus. rewrite Hus in Hl. by eapply source_no_loop. }
    destruct (relax_processing graph u qu st n Hqu Hu
                (weights_positive _ _ _ Hl Hn) (ids_nonempty _ _ _ Hl Hn) Hloop Hp)
      as (Hp1 & _ & Hmono).
    apply IH; [| done | |].
    + intros n' Hn'. apply Hsub, elem_of_cons. by right.
    + intros Hus. destruct (Hsrc Hus) as [?|Hclosed]; [by left|].
      right. by eapply closedAt_mono.
    + by eapply relax_walked.
Qed.

Lemma step_walked st it rest :
  fullInv graph st -> walked graph st -> Solver.pq st = it :: rest ->
  PriorityQueue.element it <> ""%string ->
  walked graph
    (fold_left (relax (PriorityQueue.element it))
       (default [] (graph !! PriorityQueue.element it))
       (Solver.mk (Solver.distances st) (Solver.previous st) rest)).
Proof.
  intros [Hb Hs Ha] Hwalk Hpq Hu.
  destruct (pop_processing graph st it rest Hb Hs Hpq) as (qu & Hqu & Hp).
  assert (Hcase : (exists l, graph !! PriorityQueue.element it = Some l)
                  \/ graph !! PriorityQueue.element it = None).
  { destruct (graph !! PriorityQueue.element it) as [l|]; [left; by exists l | by right]. }
  destruct Hcase as [[l Hl]|Hl]; rewrite Hl; [|done].
  cbn [default]. eapply fold_walked; [exact Hqu|exact Hu|exact Hl|done|exact Hp| |done].
  intros _. right. exact Ha.
Qed.

Lemma dijkstraLoop_walked fuel st st' :
  fullInv graph st -> walked graph st ->
  dijkstraLoop fuel graph st = Returned st' -> walked graph st'.
Proof.
  revert st. induction fuel as [|fuel IH]; intros st Hinv Hwalk;
    rewrite dijkstraLoop_unfold; destruct (Solver.pq st) as [|it rest] eqn:Hpq;
    try discriminate; try (by intros [= <-]).
  cbv zeta. repeat case_decide; try (by intros [= <-]).
  intros Hloop. eapply IH; [| |exact Hloop].
  - by apply step_fullInv.
  - by apply step_walked.
Qed.

Lemma first_walked nodes :
  walked graph
    (fold_left (relax "source")
       (default [] (graph !! "source"%string))
       (Solver.mk (Solver.distances (initialize nodes))
                  (Solver.previous (initialize nodes)) [])).
Proof.
  assert (Hcase : (exists l, graph !! "source"%string = Some l)
                  \/ graph !! "source"%string = None).
  { destruct (graph !! "source"%string) as [l|]; [left; by exists l | by right]. }
  destruct Hcase as [[l Hl]|Hl]; rewrite Hl; cbn [default].
  2:{ intros x q Hx. simpl. destruct (initialize_spec nodes) as (Hd & _ & _).
      rewrite Hd. repeat case_decide; discriminate || done. }
  eapply (fold_walked "source" 0 l l); [lra|done|exact Hl|done| |by left|].
  - pose proof (initialize_baseInv nodes) as Hb.
    pose proof (initialize_settled graph nodes) as Hs.
    destruct (initialize_spec nodes) as (_ & _ & Hq).
    split; [| |apply initialize_source_zero|done].
    + split; simpl.
      * apply (inv_source _ Hb).
      * apply (inv_positive _ Hb).
      * intros x p Hin. by apply elem_of_nil in Hin.
      * done.
    + intros x q Hx _ Hd. simpl in Hd. destruct (Hs x q Hx Hx Hd) as [Hopen|Hclosed].
      * rewrite Hq in Hopen. apply list_elem_of_singleton in Hopen. congruence.
      * by right.
  - intros x q Hx. simpl. destruct (initialize_spec nodes) as (Hd & _ & _).
    rewrite Hd. repeat case_decide; discriminate || done.
Qed.

Lemma search_exact nodes fuel st q :
  dijkstraLoop fuel graph (initialize nodes) = Returned st ->
  Solver.distances st !! "destination"%string = Some (Fin q) ->
  (exists c, reachCost graph "destination" c /\ (c == q)%Q)
  /\ (forall c, reachCost graph "destination" c -> (q <= c)%Q).
Proof.
  intros Hloop Hq.
  destruct fuel as [|fuel].
  { rewrite dijkstraLoop_unfold in Hloop.
    destruct (initialize_spec nodes) as (_ & _ & Hpq). by rewrite Hpq in Hloop. }
  rewrite dijkstraLoop_unfold in Hloop.
  destruct (initialize_spec nodes) as (_ & _ & Hpq). rewrite Hpq in Hloop.
  cbv zeta in Hloop. cbn [PriorityQueue.element fst] in Hloop.
  rewrite decide_False, decide_False in Hloop by done.
  pose proof (first_fullInv graph weights_positive ids_nonempty source_no_loop
                (initialize nodes) (initialize_baseInv _) (initialize_settled _ _)
                Hpq (initialize_source_zero _)) as Hfull.
  split.
  - apply (dijkstraLoop_walked _ _ _ Hfull (first_walked nodes) Hloop); done.
  - intros c Hc.
    destruct (dijkstraLoop_bound graph weights_positive ids_nonempty source_no_loop
                _ _ _ c Hfull Hloop Hc) as (q' & Hq' & Hle).
    rewrite Hq in Hq'. by injection Hq' as <-.
Qed.

End Exact.

Lemma adjacency_entry nodes edges x l n :
  buildAdjacency nodes edges !! x = Some l -> n ∈ l ->
  exists e, e ∈ edges
    /\ Neighbor.weight n = GraphEdge.weight e
    /\ ((GraphEdge.from e = x /\ Neighbor.nodeId n = GraphEdge.to e)
        \/ (GraphEdge.to e = x /\ Neighbor.nodeId n = GraphEdge.from e)).
Proof.
  rewrite buildAdjacency_lookup. case_decide; [|discriminate].
  intros [= <-] Hn. apply elem_of_flat_map in Hn as (e & He & Hn).
  exists e. split; [done|]. unfold entriesOf in Hn.
  apply elem_of_app in Hn as [Hn|Hn]; case_decide;
    try (by apply elem_of_nil in Hn);
    apply list_elem_of_singleton in Hn as ->; simpl; tauto.
Qed.

(** X10. On a graph whose edges have positive weights, non-empty end
    ids and two different ends, the distance the loop leaves at the
    destination, when finite, is the weight of a walk from the source to
    the destination, and no such walk is lighter. *)
Theorem search_distance_exact (nodes : list GraphNode.t) (edges : list GraphEdge.t)
    (fuel : nat) (st : Solver.t) (q : Q) :
  (forall e, e ∈ edges ->
     (0 < GraphEdge.weight e)%Q
     /\ GraphEdge.from e <> ""%string /\ GraphEdge.to e <> ""%string
     /\ GraphEdge.from e <> GraphEdge.to e) ->
  dijkstraLoop fuel (buildAdjacency nodes edges) (initialize nodes) = Returned st ->
  Solver.distances st !! "destination"%string = Some (Fin q) ->
  (exists c, reachCost (buildAdjacency nodes edges) "destination" c /\ (c == q)%Q)
  /\ (forall c, reachCost (buildAdjacency nodes edges) "destination" c -> (q <= c)%Q).
Proof.
  intros Hedges. apply search_exact.
  - intros x l n Hl Hn. destruct (adjacency_entry _ _ _ _ _ Hl Hn) as (e & He & -> & _).
    by destruct (Hedges e He).
  - intros x l n Hl Hn. destruct (adjacency_entry _ _ _ _ _ Hl Hn) as (e & He & _ & Hends).
    destruct (Hedges e He) as (_ & ? & ? & _).
    destruct Hends as [[_ ->]|[_ ->]]; done.
  - intros l n Hl Hn. destruct (adjacency_entry _ _ _ _ _ Hl Hn) as (e & He & _ & Hends).
    destruct (Hedges e He) as (_ & _ & _ & Hne).
    destruct Hends as [[Hf ->]|[Ht ->]]; congruence.
Qed.

Lemma search_distance_exact_witness :
  (exists c, reachCost (buildAdjacency [nodeA; nodeB] [edgeAB]) "destination" c
             /\ (c == 0 + 111)%Q)
  /\ (forall c, reachCost (buildAdjacency [nodeA; nodeB] [edgeAB]) "destination" c ->
        (0 + 111 <= c)%Q).
Proof.
  apply (search_distance_exact [nodeA; nodeB] [edgeAB] 2 edgeState (0 + 111)).
  - intros e He. apply list_elem_of_singleton in He as ->.
    repeat split; discriminate.
  - vm_compute. reflexivity.
  - vm_compute. reflexivity.
Defined.

(** ** The search loop stops *)

Lemma fold_quiet (u : string) (l : list Neighbor.t) (st : Solver.t) :
  (forall n, n ∈ l -> relax u st n = st) -> fold_left (relax u) l st = st.
Proof.
  induction l as [|n l IH]; intros H; [done|]. simpl.
  rewrite (H n) by (apply elem_of_cons; by left).
  apply IH. intros n' Hn'. apply H, elem_of_cons. by right.
Qed.

Lemma relax_queue u st n y p :
  (y, p) ∈ Solver.pq (relax u st n) ->
  (y, p) ∈ Solver.pq st \/ (y, p) = (Neighbor.nodeId n, altDistanceOf st u n).
Proof.
  destruct (relax_cases u st n) as [[_ ->]|[_ ->]]; [by left|].
  simpl. intros H. apply enqueue_elem in H as [H|H]; [by right | by left].
Qed.

Section Termination.
Variable graph : gmap string (list Neighbor.t).
Hypothesis weights_positive :
  forall x l n, graph !! x = Some l -> n ∈ l -> (0 < Neighbor.weight n)%Q.
Hypothesis ids_nonempty :
  forall x l n, graph !! x = Some l -> n ∈ l -> Neighbor.nodeId n <> ""%string.
Hypothesis source_no_loop :
  forall l n, graph !! "source"%string = Some l -> n ∈ l ->
    Neighbor.nodeId n <> "source"%string.
Hypothesis graph_closed :
  forall x l n, graph !! x = Some l -> n ∈ l -> is_Some (graph !! Neighbor.nodeId n).

Lemma backClosedAt_lowered st st' x q :
  sourceLowered st st' -> backClosedAt graph st x q -> backClosedAt graph st' x q.
Proof.
  intros Hlow Hback l n Hl Hn Hs.
  destruct (Hback l n Hl Hn Hs) as (q0 & Hq0 & Hpos & Hle).
  destruct (Hlow q0 Hq0 Hpos) as (q1 & Hq1 & Hpos1 & Hle1).
  exists q1. split; [done|]. split; [done | lra].
Qed.

Lemma processing_alt u qu st n :
  processing graph u qu st ->
  altDistanceOf st u n = Fin (qu + Neighbor.weight n).
Proof. intros [_ _ Halt _]. unfold altDistanceOf. by rewrite Halt. Qed.

Lemma relax_sourceLowered u qu st n :
  (0 <= qu)%Q -> (0 < Neighbor.weight n)%Q ->
  processing graph u qu st -> sourceLowered st (relax u st n).
Proof.
  intros Hqu Hw Hp q0 Hq0 Hpos.
  pose proof (processing_alt u qu st n Hp) as Halt.
  destruct (relax_cases u st n) as [[_ ->]|[Hlt ->]];
    [exists q0; split; [done|]; split; [done|lra]|].
  rewrite Halt in *. simpl.
  destruct (decide (Neighbor.nodeId n = "source"%string)) as [Hs|Hs].
  - rewrite Hs, lookup_insert_eq. rewrite Hs, Hq0 in Hlt. cbn [orNumber] in Hlt.
    rewrite (truthy_pos q0 Hpos) in Hlt.
    apply nlt_true_inv in Hlt as (_ & _ & Hle & _). simpl in Hle.
    eexists. split; [done|]. split; lra.
  - rewrite lookup_insert_ne by done. exists q0. split; [done|]. split; [done|lra].
Qed.

(** After the edge back to the source has been relaxed, the source is no
    farther than through that edge. *)
Lemma relax_back u qu st n :
  (0 <= qu)%Q -> (0 < Neighbor.weight n)%Q ->
  processing graph u qu st -> Neighbor.nodeId n = "source"%string ->
  exists q0, Solver.distances (relax u st n) !! "source"%string = Some (Fin q0)
             /\ (0 < q0)%Q /\ (q0 <= qu + Neighbor.weight n)%Q.
Proof.
  intros Hqu Hw Hp Hs.
  pose proof (processing_alt u qu st n Hp) as Halt.
  destruct (relax_cases u st n) as [[Hlt ->]|[Hlt ->]]; rewrite Halt in *.
  - rewrite Hs in Hlt. apply nlt_false_nle in Hlt.
    destruct (inv_source st (proc_base _ _ _ _ Hp)) as (q' & Hq' & Hge).
    destruct (Solver.distances st !! "source"%string) as [[q0|]|] eqn:Hd;
      cbn [orNumber] in Hlt, Hq'; try done.
    destruct (truthy (Fin q0)) eqn:Ht; [|done].
    injection Hq' as <-. simpl in Hlt. exists q0. split; [done|]. split; [|done].
    simpl in Ht. destruct (Qeq_bool q0 0) eqn:Hz; [done|].
    apply Qeq_bool_neq in Hz. destruct (Qlt_le_dec 0 q0) as [?|Hle]; [done|].
    exfalso. apply Hz. by apply Qle_antisym.
  - simpl. rewrite Hs, lookup_insert_eq. eexists. split; [done|]. split; lra.
Qed.

Lemma relax_expanding seen u qu st n l :
  (0 <= qu)%Q -> u <> ""%string -> u <> "source"%string ->
  "source"%string ∉ seen ->
  graph !! u = Some l -> n ∈ l ->
  expanding graph seen u qu st ->
  expanding graph seen u qu (relax u st n)
  /\ sourceLowered st (relax u st n).
Proof.
  intros Hqu Hu Hus HS Hl Hn [Hp Hfloor Hkeys Hexp Hqueued].
  pose proof (weights_positive _ _ _ Hl Hn) as Hw.
  pose proof (ids_nonempty _ _ _ Hl Hn) as Hv.
  pose proof (graph_closed _ _ _ Hl Hn) as Hkey.
  destruct (relax_processing graph u qu st n Hqu Hu Hw Hv ltac:(done) Hp)
    as (Hp1 & _ & Hmono).
  pose proof (relax_sourceLowered u qu st n Hqu Hw Hp) as Hlow.
  pose proof (processing_alt u qu st n Hp) as Halt.
  split; [|done]. split; [done| | | |].
  - intros y p Hin. apply relax_queue in Hin as [Hin|[= _ ->]]; [by eapply Hfloor|].
    rewrite Halt. simpl. lra.
  - intros y p Hin. apply relax_queue in Hin as [Hin|[= -> _]]; [by eapply Hkeys|].
    by right.
  - intros x Hx. destruct (Hexp x Hx) as (q & Hq & Hle & Hc & Hb).
    assert (Hxs : x <> "source"%string) by (by intros ->).
    exists q. split; [|split; [done|split]].
    + destruct (relax_cases u st n) as [[_ ->]|[Hlt ->]]; [done|].
      simpl. destruct (decide (x = Neighbor.nodeId n)) as [Hxv|Hxv].
      * exfalso. rewrite <- Hxv, Hq, Halt in Hlt. cbn [orNumber] in Hlt.
        rewrite (truthy_pos q (inv_positive st (proc_base _ _ _ _ Hp) x q Hxs Hq)) in Hlt.
        apply nlt_true_inv in Hlt as (_ & _ & Hle' & _). simpl in Hle, Hle'. lra.
      * by rewrite lookup_insert_ne.
    + by eapply closedAt_mono.
    + by eapply backClosedAt_lowered.
  - intros x q Hx. destruct (relax_cases u st n) as [[_ ->]|[_ ->]]; [by apply Hqueued|].
    simpl. destruct (decide (x = Neighbor.nodeId n)) as [->|Hxv].
    + rewrite lookup_insert_eq. intros [= <-]. left. apply enqueue_elem. by left.
    + rewrite lookup_insert_ne by done. intros Hd.
      destruct (Hqueued x q Hx Hd) as [Hin|Hin]; [|by right].
      left. apply enqueue_elem. by right.
Qed.

Lemma sourceLowered_refl st : sourceLowered st st.
Proof. intros q0 ? ?. exists q0. split; [done|]. split; [done|lra]. Qed.

Lemma sourceLowered_trans st1 st2 st3 :
  sourceLowered st1 st2 -> sourceLowered st2 st3 -> sourceLowered st1 st3.
Proof.
  intros H12 H23 q0 Hq0 Hpos. destruct (H12 q0 Hq0 Hpos) as (q1 & Hq1 & Hpos1 & Hle1).
  destruct (H23 q1 Hq1 Hpos1) as (q2 & Hq2 & Hpos2 & Hle2).
  exists q2. split; [done|]. split; [done|lra].
Qed.

Lemma fold_expanding seen u qu (l l' : list Neighbor.t) st :
  (0 <= qu)%Q -> u <> ""%string -> u <> "source"%string ->
  "source"%string ∉ seen ->
  graph !! u = Some l -> (forall n, n ∈ l' -> n ∈ l) ->
  expanding graph seen u qu st ->
  expanding graph seen u qu (fold_left (relax u) l' st)
  /\ sourceLowered st (fold_left (relax u) l' st)
  /\ (forall n, n ∈ l' -> Neighbor.nodeId n = "source"%string ->
        exists q0, Solver.distances (fold_left (relax u) l' st) !! "source"%string
                   = Some (Fin q0)
                   /\ (0 < q0)%Q /\ (q0 <= qu + Neighbor.weight n)%Q).
Proof.
  intros Hqu Hu Hus HS Hl. revert st. induction l' as [|n l' IH]; intros st Hsub Hexp.
  - simpl. split; [done|]. split; [apply sourceLowered_refl|].
    intros n Hn. by apply elem_of_nil in Hn.
  - simpl. assert (Hn : n ∈ l) by (apply Hsub, elem_of_cons; by left).
    destruct (relax_expanding seen u qu st n l Hqu Hu Hus HS Hl Hn Hexp) as [Hexp1 Hlow1].
    destruct (IH (relax u st n)) as (Hexp2 & Hlow2 & Hback2); [|done|].
    { intros n' Hn'. apply Hsub, elem_of_cons. by right. }
    split; [done|]. split; [by eapply sourceLowered_trans|].
    intros n' Hn' Hs. apply elem_of_cons in Hn' as [->|Hn']; [|by apply Hback2].
    destruct (relax_back u qu st n Hqu (weights_positive _ _ _ Hl Hn)
                (exp_processing _ _ _ _ _ Hexp) Hs) as (q0 & Hq0 & Hpos & Hle).
    destruct (Hlow2 q0 Hq0 Hpos) as (q1 & Hq1 & Hpos1 & Hle1).
    exists q1. split; [done|]. split; [done|lra].
Qed.

Lemma frontPriority_floor st (b : number) :
  (forall y p, (y, p) ∈ Solver.pq st -> nle b p) -> nle b (frontPriority st).
Proof.
  unfold frontPriority. intros H. destruct (Solver.pq st) as [|[y p] rest].
  - by destruct b.
  - apply (H y p). apply elem_of_cons. by left.
Qed.

Lemma expandedBelow_weaken st (b b' : number) x :
  nle b b' -> expandedBelow graph st b x -> expandedBelow graph st b' x.
Proof.
  intros Hb (q & Hq & Hle & Hc & Hk). exists q. split; [done|].
  split; [by eapply nle_trans|]. done.
Qed.

(** Dequeuing a node that has not been relaxed yet starts its relaxation. *)
Lemma pop_expanding seen st u p rest :
  searchInv graph seen st -> Solver.pq st = (u, p) :: rest ->
  u <> "source"%string -> u ∉ seen ->
  exists qu, (0 <= qu)%Q
    /\ is_Some (graph !! u)
    /\ expanding graph seen u qu
         (Solver.mk (Solver.distances st) (Solver.previous st) rest).
Proof.
  intros [Hfull Hnodes Hsrc Hexp Hqueued Hkeys] Hpq Hus HuS.
  destruct Hfull as [Hb Hs Ha].
  destruct (pop_processing graph st (u, p) rest Hb Hs Hpq) as (qu & Hqu & Hp).
  cbn [PriorityQueue.element fst] in Hp.
  pose proof (proc_dist _ _ _ _ Hp Hus) as Hdu. simpl in Hdu.
  assert (Hfresh : (u, Fin qu) ∈ Solver.pq st).
  { destruct (Hqueued u qu Hus Hdu) as [?|?]; done. }
  pose proof (inv_ordered st Hb) as Hord. rewrite Hpq in Hord. destruct Hord as [Hhead Hord].
  assert (Hple : nle p (Fin qu)).
  { rewrite Hpq in Hfresh. apply elem_of_cons in Hfresh as [[= <-]|Hin]; [apply nle_refl|].
    apply (Hhead _ Hin). }
  assert (Hqle : nle (Fin qu) p).
  { destruct (inv_entries st Hb u p) as (_ & _ & Hle).
    { rewrite Hpq. apply elem_of_cons. by left. }
    specialize (Hle Hus). unfold dval in Hle. by rewrite Hdu in Hle. }
  exists qu. split; [done|]. split.
  { destruct (Hkeys u p) as [?|?]; [rewrite Hpq; apply elem_of_cons; by left|done..]. }
  split; [done| | | |].
  - intros y p' Hin. simpl in Hin. eapply nle_trans; [exact Hqle|]. apply (Hhead _ Hin).
  - intros y p' Hin. simpl in Hin. apply (Hkeys y p'). rewrite Hpq.
    apply elem_of_cons. by right.
  - intros x Hx. specialize (Hexp x Hx). unfold frontPriority in Hexp.
    rewrite Hpq in Hexp. cbn [PriorityQueue.priority snd] in Hexp.
    destruct Hexp as (q & Hq & Hle & Hc & Hk). exists q. split; [done|].
    split; [by eapply nle_trans|]. done.
  - intros x q Hx Hd. simpl in Hd. destruct (Hqueued x q Hx Hd) as [Hin|Hin].
    + rewrite Hpq in Hin. apply elem_of_cons in Hin as [[= -> _]|Hin].
      * right. apply elem_of_union. left. by apply elem_of_singleton.
      * by left.
    + right. apply elem_of_union. by right.
Qed.

(** Relaxing a node for the first time adds it to the set. *)
Lemma step_search seen st u p rest :
  searchInv graph seen st -> Solver.pq st = (u, p) :: rest ->
  u <> ""%string -> u <> "source"%string -> u ∉ seen ->
  searchInv graph ({[u]} ∪ seen)
    (fold_left (relax u) (default [] (graph !! u))
       (Solver.mk (Solver.distances st) (Solver.previous st) rest)).
Proof.
  intros Hinv Hpq Hu Hus HuS.
  destruct (pop_expanding seen st u p rest Hinv Hpq Hus HuS) as (qu & Hqu & [l Hl] & Hexp).
  pose proof (step_fullInv graph weights_positive ids_nonempty source_no_loop
                st (u, p) rest (search_full _ _ _ Hinv) Hpq Hu) as Hfull.
  cbn [PriorityQueue.element fst] in Hfull.
  assert (Hentries : forall n, n ∈ l ->
            (0 < Neighbor.weight n)%Q /\ Neighbor.nodeId n <> ""%string
            /\ (u = "source"%string -> Neighbor.nodeId n <> "source"%string)).
  { intros n Hn. split; [by eapply weights_positive|]. split; [by eapply ids_nonempty|done]. }
  destruct (fold_processing graph u qu l _ Hqu Hu Hentries
              (exp_processing _ _ _ _ _ Hexp)) as (_ & Hclosure & _).
  destruct (fold_expanding seen u qu l l _ Hqu Hu Hus (search_source _ _ _ Hinv) Hl
              ltac:(done) Hexp) as (Hexp2 & _ & Hback).
  rewrite Hl in *. cbn [default] in *.
  set (st2 := fold_left (relax u) l _) in *.
  pose proof (frontPriority_floor st2 (Fin qu) (exp_floor _ _ _ _ _ Hexp2)) as Hfront.
  split; [done| | | | |].
  - intros x Hx. apply elem_of_union in Hx as [Hx|Hx]; [|by apply (search_nodes _ _ _ Hinv)].
    apply elem_of_singleton in Hx as ->. by exists l.
  - intros Hin. apply elem_of_union in Hin as [Hin|Hin].
    + apply elem_of_singleton in Hin. done.
    + by apply (search_source _ _ _ Hinv).
  - intros x Hx. apply elem_of_union in Hx as [Hx|Hx].
    + apply elem_of_singleton in Hx as ->. exists qu.
      split; [apply (proc_dist _ _ _ _ (exp_processing _ _ _ _ _ Hexp2) Hus)|].
      split; [done|]. split.
      * intros l' n Hl' Hn Hns. assert (l' = l) by congruence. subst l'.
        by apply Hclosure.
      * intros l' n Hl' Hn Hns. assert (l' = l) by congruence. subst l'.
        by apply Hback.
    + eapply expandedBelow_weaken; [exact Hfront|]. by apply (exp_expanded _ _ _ _ _ Hexp2).
  - apply (exp_queued _ _ _ _ _ Hexp2).
  - apply (exp_keys _ _ _ _ _ Hexp2).
Qed.

(** A node of the set, or the source after the first iteration, changes
    nothing when it is dequeued again. *)
Lemma quiet_again seen st u :
  searchInv graph seen st -> u = "source"%string \/ u ∈ seen ->
  forall rest,
    fold_left (relax u) (default [] (graph !! u))
      (Solver.mk (Solver.distances st) (Solver.previous st) rest)
    = Solver.mk (Solver.distances st) (Solver.previous st) rest.
Proof.
  intros [Hfull Hnodes Hsrc Hexp Hqueued Hkeys] Hu rest.
  destruct Hfull as [Hb Hs Ha].
  assert (Hcase : (exists l, graph !! u = Some l) \/ graph !! u = None).
  { destruct (graph !! u) as [l|]; [left; by exists l | by right]. }
  destruct Hcase as [[l Hl]|Hl]; rewrite Hl; [|done]. cbn [default].
  apply fold_quiet. intros n Hn.
  set (st1 := Solver.mk (Solver.distances st) (Solver.previous st) rest).
  assert (Hb1 : forall x, x <> "source"%string ->
            orNumber (Solver.distances st1 !! x) Infinity = dval st x).
  { intros x Hx. apply (orNumber_dval st x Hb Hx). }
  pose proof (weights_positive _ _ _ Hl Hn) as Hw.
  destruct (relax_cases u st1 n) as [[_ ->]|[Hlt _]]; [done|]. exfalso.
  unfold altDistanceOf in Hlt. cbn [Solver.distances st1] in Hlt.
  destruct Hu as [->|HuS].
  - destruct (inv_source st Hb) as (q0 & Hq0 & Hge). rewrite Hq0 in Hlt.
    assert (Hns : Neighbor.nodeId n <> "source"%string) by (by eapply source_no_loop).
    rewrite (orNumber_dval st _ Hb Hns) in Hlt.
    apply nlt_true_inv in Hlt as (_ & _ & _ & Hnot). apply Hnot.
    eapply nle_trans; [by eapply Ha|]. simpl. lra.
  - destruct (Hexp u HuS) as (q & Hq & _ & Hc & Hk).
    assert (Hus : u <> "source"%string) by (by intros ->).
    pose proof (inv_positive st Hb u q Hus Hq) as Hpos.
    rewrite Hq in Hlt. cbn [orNumber] in Hlt. rewrite (truthy_pos q Hpos) in Hlt.
    destruct (decide (Neighbor.nodeId n = "source"%string)) as [Hns|Hns].
    + destruct (Hk l n Hl Hn Hns) as (q0 & Hq0 & Hpos0 & Hle).
      rewrite Hns, Hq0 in Hlt. cbn [orNumber] in Hlt.
      rewrite (truthy_pos q0 Hpos0) in Hlt.
      apply nlt_true_inv in Hlt as (_ & _ & _ & Hnot). by apply Hnot.
    + rewrite (orNumber_dval st _ Hb Hns) in Hlt.
      apply nlt_true_inv in Hlt as (_ & _ & _ & Hnot). apply Hnot.
      by eapply Hc.
Qed.

Lemma step_quiet seen st u p rest :
  searchInv graph seen st -> Solver.pq st = (u, p) :: rest ->
  u <> ""%string -> u = "source"%string \/ u ∈ seen ->
  searchInv graph seen (Solver.mk (Solver.distances st) (Solver.previous st) rest).
Proof.
  intros Hinv Hpq Hu Hcase.
  pose proof (step_fullInv graph weights_positive ids_nonempty source_no_loop
                st (u, p) rest (search_full _ _ _ Hinv) Hpq Hu) as Hfull.
  cbn [PriorityQueue.element fst] in Hfull.
  rewrite (quiet_again seen st u Hinv Hcase rest) in Hfull.
  destruct Hinv as [[Hb Hs Ha] Hnodes Hsrc Hexp Hqueued Hkeys].
  pose proof (inv_ordered st Hb) as Hord. rewrite Hpq in Hord. destruct Hord as [Hhead Hord].
  split; [done|done|done| | |].
  - intros x Hx. destruct (Hexp x Hx) as (q & Hq & Hle & Hc & Hk).
    exists q. split; [done|]. split; [|done].
    unfold frontPriority in Hle. rewrite Hpq in Hle.
    unfold frontPriority. cbn [Solver.pq].
    destruct rest as [|it' rest']; [done|].
    apply (nle_trans _ (PriorityQueue.priority (u, p))); [exact Hle|].
    apply Hhead. apply elem_of_cons. by left.
  - intros x q Hx Hd. simpl in Hd. destruct (Hqueued x q Hx Hd) as [Hin|Hin]; [|by right].
    rewrite Hpq in Hin. apply elem_of_cons in Hin as [[= -> _]|Hin]; [|by left].
    destruct Hcase as [?|?]; [done | by right].
  - intros y p' Hin. simpl in Hin. apply (Hkeys y p'). rewrite Hpq.
    apply elem_of_cons. by right.
Qed.

Lemma searchInv_size seen st : searchInv graph seen st -> size seen <= size (dom graph).
Proof.
  intros Hinv. apply subseteq_size. intros x Hx. apply elem_of_dom.
  by apply (search_nodes _ _ _ Hinv).
Qed.

(** The loop stops: each iteration either adds a node to the set or shortens
    the queue. *)
Lemma searchInv_terminates k :
  forall m seen st,
    searchInv graph seen st -> size (dom graph) <= size seen + k ->
    length (Solver.pq st) <= m ->
    exists fuel st', dijkstraLoop fuel graph st = Returned st'.
Proof.
  induction k as [|k IHk]; (induction m as [|m IHm]; intros seen st Hinv Hsize Hlen;
    (destruct (Solver.pq st) as [|[u p] rest] eqn:Hpq;
     [exists 0%nat, st; by rewrite dijkstraLoop_unfold, Hpq|])); try (simpl in Hlen; lia).
  all: destruct (decide (u = ""%string)) as [Hu|Hu];
    [exists 1%nat; eexists; rewrite dijkstraLoop_unfold, Hpq; cbv zeta;
     cbn [PriorityQueue.element fst]; by rewrite decide_True by done|].
  all: destruct (decide (u = "destination"%string)) as [Hd|Hd];
    [exists 1%nat; eexists; rewrite dijkstraLoop_unfold, Hpq; cbv zeta;
     cbn [PriorityQueue.element fst];
     by rewrite decide_False, decide_True by done|].
  all: assert (Hstep : forall fuel, dijkstraLoop (S fuel) graph st
         = dijkstraLoop fuel graph
             (fold_left (relax u) (default [] (graph !! u))
                (Solver.mk (Solver.distances st) (Solver.previous st) rest)))
    by (intros fuel; rewrite dijkstraLoop_unfold, Hpq; cbv zeta;
        cbn [PriorityQueue.element fst]; by rewrite !decide_False by done).
  all: destruct (decide (u = "source"%string \/ u ∈ seen)) as [Hq|Hq].
  - (* k = 0, quiet *)
    destruct (IHm seen (Solver.mk (Solver.distances st) (Solver.previous st) rest))
      as (fuel & st' & Hret); [by eapply step_quiet|done|simpl in *; lia|].
    exists (S fuel), st'.
    by rewrite Hstep, (quiet_again seen st u Hinv Hq rest).
  - (* k = 0, a new node: impossible *)
    exfalso. assert (Hus : u <> "source"%string) by tauto. assert (HuS : u ∉ seen) by tauto.
    pose proof (searchInv_size _ _ (step_search seen st u p rest Hinv Hpq Hu Hus HuS)) as Hle.
    rewrite size_union, size_singleton in Hle by set_solver. lia.
  - destruct (IHm seen (Solver.mk (Solver.distances st) (Solver.previous st) rest))
      as (fuel & st' & Hret); [by eapply step_quiet|done|simpl in *; lia|].
    exists (S fuel), st'.
    by rewrite Hstep, (quiet_again seen st u Hinv Hq rest).
  - assert (Hus : u <> "source"%string) by tauto. assert (HuS : u ∉ seen) by tauto.
    pose proof (step_search seen st u p rest Hinv Hpq Hu Hus HuS) as Hinv2.
    destruct (IHk (length (Solver.pq (fold_left (relax u)
                 (default [] (graph !! u))
                 (Solver.mk (Solver.distances st) (Solver.previous st) rest))))
                _ _ Hinv2)
      as (fuel & st' & Hret).
    + rewrite size_union, size_singleton by set_solver. lia.
    + done.
    + exists (S fuel), st'. by rewrite Hstep.
Qed.

End Termination.

Lemma relax_queuedOrIn seen u st n :
  queuedOrIn seen st -> queuedOrIn seen (relax u st n).
Proof.
  intros Hq x q Hx. destruct (relax_cases u st n) as [[_ ->]|[_ ->]]; [by apply Hq|].
  simpl. destruct (decide (x = Neighbor.nodeId n)) as [->|Hxv].
  - rewrite lookup_insert_eq. intros [= <-]. left. apply enqueue_elem. by left.
  - rewrite lookup_insert_ne by done. intros Hd.
    destruct (Hq x q Hx Hd) as [Hin|Hin]; [|by right].
    left. apply enqueue_elem. by right.
Qed.

Lemma initialize_searchInv graph nodes :
  (forall x l n, graph !! x = Some l -> n ∈ l -> (0 < Neighbor.weight n)%Q) ->
  (forall x l n, graph !! x = Some l -> n ∈ l -> Neighbor.nodeId n <> ""%string) ->
  (forall l n, graph !! "source"%string = Some l -> n ∈ l ->
     Neighbor.nodeId n <> "source"%string) ->
  (forall x l n, graph !! x = Some l -> n ∈ l -> is_Some (graph !! Neighbor.nodeId n)) ->
  searchInv graph ∅
    (fold_left (relax "source")
       (default [] (graph !! "source"%string))
       (Solver.mk (Solver.distances (initialize nodes))
                  (Solver.previous (initialize nodes)) [])).
Proof.
  intros Hw Hne Hloop Hclosed.
  destruct (initialize_spec nodes) as (Hd & _ & Hpq).
  split.
  - by apply (first_fullInv graph Hw Hne Hloop (initialize nodes)
                (initialize_baseInv _) (initialize_settled _ _) Hpq
                (initialize_source_zero _)).
  - intros x Hx. by apply elem_of_empty in Hx.
  - apply not_elem_of_empty.
  - intros x Hx. by apply elem_of_empty in Hx.
  - apply fold_left_invariant.
    + intros x q Hx. simpl. rewrite Hd. repeat case_decide; discriminate || done.
    + intros st n _. apply relax_queuedOrIn.
  - apply (fold_left_invariant (relax "source")
             (fun st => forall y p, (y, p) ∈ Solver.pq st ->
                          y = "source"%string \/ is_Some (graph !! y))).
    + intros y p Hin. by apply elem_of_nil in Hin.
    + intros st n Hn Hkeys y p Hin.
      apply relax_queue in Hin as [Hin|[= -> _]]; [by eapply Hkeys|]. right.
      destruct (graph !! "source"%string) as [l|] eqn:Hl; [|by apply elem_of_nil in Hn].
      by eapply Hclosed.
Qed.

(** X11. On a graph whose edges have positive weights and join two
    different nodes of the graph with non-empty ids, the search loop stops:
    some amount of fuel lets it return. *)
Theorem search_loop_terminates (nodes : list GraphNode.t) (edges : list GraphEdge.t) :
  (forall e, e ∈ edges ->
     (0 < GraphEdge.weight e)%Q
     /\ GraphEdge.from e <> ""%string /\ GraphEdge.to e <> ""%string
     /\ GraphEdge.from e <> GraphEdge.to e
     /\ GraphEdge.from e ∈ ids nodes /\ GraphEdge.to e ∈ ids nodes) ->
  exists fuel st,
    dijkstraLoop fuel (buildAdjacency nodes edges) (initialize nodes) = Returned st.
Proof.
  intros Hedges. set (graph := buildAdjacency nodes edges).
  assert (Hw : forall x l n, graph !! x = Some l -> n ∈ l -> (0 < Neighbor.weight n)%Q).
  { intros x l n Hl Hn. destruct (adjacency_entry _ _ _ _ _ Hl Hn) as (e & He & -> & _).
    by destruct (Hedges e He). }
  assert (Hne : forall x l n, graph !! x = Some l -> n ∈ l ->
                  Neighbor.nodeId n <> ""%string).
  { intros x l n Hl Hn. destruct (adjacency_entry _ _ _ _ _ Hl Hn) as (e & He & _ & Hends).
    destruct (Hedges e He) as (_ & ? & ? & _).
    destruct Hends as [[_ ->]|[_ ->]]; done. }
  assert (Hloop : forall l n, graph !! "source"%string = Some l -> n ∈ l ->
                    Neighbor.nodeId n <> "source"%string).
  { intros l n Hl Hn. destruct (adjacency_entry _ _ _ _ _ Hl Hn) as (e & He & _ & Hends).
    destruct (Hedges e He) as (_ & _ & _ & Hdiff & _).
    destruct Hends as [[Hf ->]|[Ht ->]]; congruence. }
  assert (Hclosed : forall x l n, graph !! x = Some l -> n ∈ l ->
                      is_Some (graph !! Neighbor.nodeId n)).
  { intros x l n Hl Hn. destruct (adjacency_entry _ _ _ _ _ Hl Hn) as (e & He & _ & Hends).
    destruct (Hedges e He) as (_ & _ & _ & _ & Hf & Ht).
    unfold graph. rewrite buildAdjacency_lookup.
    destruct Hends as [[_ ->]|[_ ->]]; rewrite decide_True by done; by eexists. }
  pose proof (initialize_searchInv graph nodes Hw Hne Hloop Hclosed) as Hinv.
  destruct (searchInv_terminates graph Hw Hne Hloop Hclosed (size (dom graph)) _ _ _ Hinv
              ltac:(lia) (Nat.le_refl _)) as (fuel & st' & Hret).
  exists (S fuel), st'. rewrite dijkstraLoop_unfold.
  destruct (initialize_spec nodes) as (_ & _ & ->). cbv zeta.
  cbn [PriorityQueue.element fst]. by rewrite !decide_False by done.
Qed.

Lemma search_loop_terminates_witness :
  exists fuel st,
    dijkstraLoop fuel
      (buildAdjacency (fst (generateGraph RefMath.lib rndHalf newYork newark shortest))
                      (snd (generateGraph RefMath.lib rndHalf newYork newark shortest)))
      (initialize (fst (generateGraph RefMath.lib rndHalf newYork newark shortest)))
    = Returned st.
Proof.
  apply (search_loop_terminates
           (fst (generateGraph RefMath.lib rndHalf newYork newark shortest))
           (snd (generateGraph RefMath.lib rndHalf newYork newark shortest))).
  intros e He. vm_compute in He.
  repeat (apply elem_of_cons in He as [->|He];
          [repeat split; try reflexivity; try discriminate;
           vm_compute; repeat constructor|]).
  by apply elem_of_nil in He.
Defined.

(** ** Returned routes *)



(** X13. In the shortest mode [findShortestPath] returns, for some amount of
    fuel, exactly when no waypoint is strictly closer to the source than the
    destination is. *)
Theorem shortest_returns_iff (M : MathLib) (rnd : nat -> Q)
    (source destination : Location.t) :
  (exists fuel r, findShortestPath M rnd fuel source destination shortest = Returned r)
  <-> (forall w, w ∈ waypointsOf M rnd source destination ->
         (distanceBetween M (nodeOf "source" source) (nodeOf "destination" destination)
          <= distanceBetween M (nodeOf "source" source) w)%Q).
Proof.
  split.
  - intros (fuel & r & Hr) w Hw.
    destruct (Qlt_le_dec (distanceBetween M (nodeOf "source" source) w)
                (distanceBetween M (nodeOf "source" source)
                   (nodeOf "destination" destination))) as [Hlt|Hle]; [|done].
    rewrite (findShortestPath_diverges M rnd source destination w fuel Hw Hlt) in Hr.
    discriminate.
  - intros Hfar. exists 2%nat. eexists.
    by apply findShortestPath_returns.
Qed.

(** X14. The time a returned route reports is the rendering of a whole
    number of minutes within half a minute of 1.2 times the sum of the
    great-circle distances between consecutive path nodes, and the algorithm
    it names is Dijkstra's. *)
Theorem total_time_rounding (M : MathLib) (fuel : nat)
    (nodes : list GraphNode.t) (edges : list GraphEdge.t) (r : RouteResult.t) :
  solve M fuel nodes edges = Returned r ->
  exists t : Z,
    RouteResult.totalTime r = (string_of_Z t ++ " min")%string
    /\ (Qabs (inject_Z t - 1.2 * greatCircleSum M (RouteResult.path r)) <= 1 # 2)%Q
    /\ RouteResult.algorithm r = "Dijkstra's"%string.
Proof.
  intros Hr. apply solve_Returned in Hr as (st & path & ds & _ & _ & _ & ->).
  cbn [RouteResult.totalTime RouteResult.path RouteResult.algorithm].
  exists (Math_round (sumDistances M path * 1.2)). split; [done|]. split; [|done].
  pose proof (sumDistances_greatCircleSum M path) as Hsum.
  unfold Math_round.
  pose proof (Qfloor_le (sumDistances M path * 1.2 + (1 # 2))) as Hlo.
  pose proof (Qlt_floor (sumDistances M path * 1.2 + (1 # 2))) as Hhi.
  rewrite inject_Z_plus in Hhi. change (inject_Z 1) with 1%Q in Hhi.
  set (k := inject_Z (Qfloor (sumDistances M path * 1.2 + (1 # 2)))) in *. clearbody k.
  rewrite Hsum in Hlo, Hhi.
  apply Qabs_Qle_condition. split; lra.
Qed.

Lemma total_time_rounding_witness :
  exists t : Z,
    RouteResult.totalTime (directRoute RefMath.lib nodeA nodeB)
    = (string_of_Z t ++ " min")%string
    /\ (Qabs (inject_Z t
              - 1.2 * greatCircleSum RefMath.lib
                        (RouteResult.path (directRoute RefMath.lib nodeA nodeB)))
        <= 1 # 2)%Q
    /\ RouteResult.algorithm (directRoute RefMath.lib nodeA nodeB) = "Dijkstra's"%string.
Proof.
  apply (total_time_rounding RefMath.lib 2 [nodeA; nodeB] [edgeAB]).
  vm_compute. reflexivity.
Defined.

Lemma relax_predecessorsAdjacent graph u st n l :
  graph !! u = Some l -> n ∈ l ->
  predecessorsAdjacent graph (Solver.previous st) ->
  predecessorsAdjacent graph (Solver.previous (relax u st n)).
Proof.
  intros Hl Hn Hinv. destruct (relax_cases u st n) as [[_ ->]|[_ ->]]; [done|].
  intros x v. simpl. destruct (decide (x = Neighbor.nodeId n)) as [->|Hne].
  - rewrite lookup_insert_eq. intros [= <-]. by exists l, n.
  - rewrite lookup_insert_ne by done. apply Hinv.
Qed.

Lemma dijkstraLoop_predecessorsAdjacent fuel graph st st' :
  predecessorsAdjacent graph (Solver.previous st) ->
  dijkstraLoop fuel graph st = Returned st' ->
  predecessorsAdjacent graph (Solver.previous st').
Proof.
  revert st. induction fuel as [|fuel IH]; intros st Hinv;
    rewrite dijkstraLoop_unfold; destruct (Solver.pq st) as [|it rest];
    try discriminate; try (by intros [= <-]).
  cbv zeta. repeat case_decide; try (by intros [= <-]).
  apply IH.
  destruct (graph !! PriorityQueue.element it) as [l|] eqn:Hl; [|done].
  cbn [default]. apply fold_left_invariant; [done|].
  intros a n Hn Ha. by eapply relax_predecessorsAdjacent.
Qed.

Lemma initialize_predecessorsAdjacent graph nodes :
  predecessorsAdjacent graph (Solver.previous (initialize nodes)).
Proof.
  destruct (initialize_spec nodes) as (_ & Hp & _).
  intros x u. rewrite Hp. by case_decide.
Qed.

Lemma find_id nodes x :
  x ∈ ids nodes ->
  exists d, List.find (fun n => bool_decide (GraphNode.id n = x)) nodes = Some d
            /\ GraphNode.id d = x /\ d ∈ nodes.
Proof.
  induction nodes as [|n nodes IH]; intros Hx.
  - by apply elem_of_nil in Hx.
  - simpl. destruct (decide (GraphNode.id n = x)) as [Heq|Hne].
    + rewrite bool_decide_eq_true_2 by done. exists n.
      split; [done|]. split; [done|]. apply elem_of_cons. by left.
    + rewrite bool_decide_eq_false_2 by done.
      unfold ids in Hx. simpl in Hx. apply elem_of_cons in Hx as [->|Hx]; [done|].
      destruct (IH Hx) as (d & ? & ? & ?). exists d.
      split; [done|]. split; [done|]. apply elem_of_cons. by right.
Qed.

Lemma find_in nodes x d :
  List.find (fun n => bool_decide (GraphNode.id n = x)) nodes = Some d ->
  GraphNode.id d = x /\ d ∈ nodes.
Proof.
  intros H. apply find_some in H as [Hin Hid].
  apply bool_decide_eq_true_1 in Hid. split; [done|]. by apply list_elem_of_In.
Qed.

Lemma orNull_Some v c : orNull v = Some c -> v = Some (Some c).
Proof.
  destruct v as [[s|]|]; simpl; try discriminate.
  case_decide; [discriminate|]. by intros [= ->].
Qed.

Lemma reconstructPath_linked fuel nodes graph previous cid path path' :
  predecessorsAdjacent graph previous ->
  (forall u l, graph !! u = Some l -> u ∈ ids nodes) ->
  linkedPath previous path ->
  (forall x, x ∈ path -> x ∈ nodes) ->
  match path with
  | [] => True
  | h :: _ => orNull (previous !! GraphNode.id h) = cid
  end ->
  reconstructPath fuel nodes previous cid path = Returned path' ->
  linkedPath previous path' /\ (forall x, x ∈ path' -> x ∈ nodes)
  /\ exists front, path' = front ++ path.
Proof.
  intros Hadj Hkeys. revert cid path.
  induction fuel as [|fuel IH]; intros cid path Hlinked Hnodes Hhead.
  - destruct cid; simpl; [discriminate|]. intros [= <-].
    split; [done|]. split; [done|]. by exists [].
  - destruct cid as [c|]; simpl.
    2:{ intros [= <-]. split; [done|]. split; [done|]. by exists []. }
    intros Hrec.
    destruct (List.find (fun n => bool_decide (GraphNode.id n = c)) nodes) as [nc|] eqn:Hfind.
    + apply find_in in Hfind as [Hid Hin].
      apply IH in Hrec as (Hl & Hn & front & ->).
      * split; [done|]. split; [done|]. exists (front ++ [nc]).
        by rewrite <- app_assoc.
      * intros a b Hab. destruct path as [|h t].
        { by apply elem_of_nil in Hab. }
        cbn [legs] in Hab. apply elem_of_cons in Hab as [[= -> ->]|Hab].
        -- apply orNull_Some in Hhead. by rewrite Hid.
        -- by apply Hlinked.
      * intros x Hx. apply elem_of_cons in Hx as [->|Hx]; [done | by apply Hnodes].
      * by rewrite Hid.
    + destruct path as [|h t].
      * apply IH in Hrec as (Hl & Hn & front & ->); [|done..].
        split; [done|]. split; [done|]. by exists front.
      * exfalso. apply orNull_Some in Hhead.
        destruct (Hadj _ _ Hhead) as (l & n & Hl & _).
        apply Hkeys in Hl. apply find_id in Hl as (d & Hd & _).
        rewrite Hd in Hfind. discriminate.
Qed.

Lemma adjacency_keys nodes edges u l :
  buildAdjacency nodes edges !! u = Some l -> u ∈ ids nodes.
Proof. rewrite buildAdjacency_lookup. by case_decide. Qed.

Lemma adjacency_joined nodes edges u l n :
  buildAdjacency nodes edges !! u = Some l -> n ∈ l ->
  joined edges u (Neighbor.nodeId n).
Proof.
  rewrite buildAdjacency_lookup. case_decide; [|discriminate].
  intros [= <-] Hn. apply elem_of_flat_map in Hn as (e & He & Hn).
  exists e. split; [done|]. unfold entriesOf in Hn.
  apply elem_of_app in Hn as [Hn|Hn]; case_decide;
    try (by apply elem_of_nil in Hn);
    apply list_elem_of_singleton in Hn as ->; simpl; tauto.
Qed.

(** X15. On any lists of nodes and edges, two consecutive nodes of a
    returned path are nodes of the graph joined by an edge. *)
Theorem path_follows_edges (M : MathLib) (fuel : nat) (nodes : list GraphNode.t)
    (edges : list GraphEdge.t) (r : RouteResult.t) (a b : GraphNode.t) :
  solve M fuel nodes edges = Returned r ->
  (a, b) ∈ legs (RouteResult.path r) ->
  a ∈ nodes /\ b ∈ nodes /\ joined edges (GraphNode.id a) (GraphNode.id b).
Proof.
  intros Hr Hab. apply solve_Returned in Hr as (st & path & ds & Hloop & Hpath & _ & ->).
  cbn [RouteResult.path] in Hab.
  pose proof (dijkstraLoop_predecessorsAdjacent _ _ _ _
                (initialize_predecessorsAdjacent _ nodes) Hloop) as Hadj.
  eapply reconstructPath_linked in Hpath as (Hlinked & Hnodes & _);
    [|exact Hadj|apply adjacency_keys| | |done].
  2:{ intros ? ? H. by apply elem_of_nil in H. }
  2:{ intros ? H. by apply elem_of_nil in H. }
  assert (Hin : a ∈ path /\ b ∈ path).
  { clear -Hab. induction path as [|x [|y rest] IH]; cbn [legs] in Hab.
    - by apply elem_of_nil in Hab.
    - by apply elem_of_nil in Hab.
    - apply elem_of_cons in Hab as [[= -> ->]|Hab].
      + split; [apply elem_of_cons; by left|].
        apply elem_of_cons; right. apply elem_of_cons; by left.
      + destruct (IH Hab). split; apply elem_of_cons; by right. }
  destruct Hin as [Ha Hb]. split; [by apply Hnodes|]. split; [by apply Hnodes|].
  specialize (Hlinked a b Hab).
  destruct (Hadj _ _ Hlinked) as (l & n & Hl & Hn & Hid).
  rewrite <- Hid. by eapply adjacency_joined.
Qed.

Lemma path_follows_edges_witness :
  nodeA ∈ [nodeA; nodeB] /\ nodeB ∈ [nodeA; nodeB]
  /\ joined [edgeAB] (GraphNode.id nodeA) (GraphNode.id nodeB).
Proof.
  apply (path_follows_edges RefMath.lib 2 [nodeA; nodeB] [edgeAB]
           (directRoute RefMath.lib nodeA nodeB) nodeA nodeB).
  - vm_compute. reflexivity.
  - simpl. apply elem_of_cons. by left.
Defined.

(** ** Nearby places, the route page and the map *)

Lemma placeTypes_get_cases (type : string) :
  (type ∈ objectPrototype /\ placeTypes_get type = Inherited)
  \/ ((type ∉ objectPrototype)
      /\ ((exists names, (type, names) ∈ placeTypes
                         /\ placeTypes_get type = OwnNames names)
          \/ (ownProperty type placeTypes = None
              /\ placeTypes_get type = Undefined))).
Proof.
  destruct (decide (type ∈ objectPrototype)) as [Hin|Hnin].
  - left. split; [done|].
    unfold objectPrototype in Hin.
    repeat (apply elem_of_cons in Hin as [->|Hin]; [reflexivity|]).
    by apply elem_of_nil in Hin.
  - right. split; [done|]. unfold placeTypes_get.
    destruct (ownProperty type placeTypes) as [names|] eqn:Hown.
    + left. exists names. split; [|done].
      unfold ownProperty in Hown.
      destruct (List.find _ placeTypes) as [[k v]|] eqn:Hfind; [|discriminate].
      injection Hown as <-. apply find_some in Hfind as [Hin Hk].
      apply bool_decide_eq_true_1 in Hk. simpl in Hk. subst k.
      by apply list_elem_of_In.
    + right. split; [done|]. by rewrite bool_decide_eq_false_2.
Qed.

Lemma imap_elem {A B : Type} (f : nat -> A -> B) (l : list A) (y : B) :
  y ∈ imap f l -> exists i x, l !! i = Some x /\ y = f i x.
Proof.
  intros Hy. apply list_elem_of_lookup in Hy as [i Hi].
  rewrite list_lookup_imap in Hi.
  destruct (l !! i) as [x|] eqn:Hx; [|discriminate].
  injection Hi as <-. by exists i, x.
Qed.

Lemma searchNearbyPlaces_elem rnd location type p :
  p ∈ searchNearbyPlaces rnd location type ->
  exists index name key names,
    (key, names) ∈ placeTypes /\ name ∈ names
    /\ p = nearbyPlace rnd location type index name.
Proof.
  unfold searchNearbyPlaces, nearbyPlaces_try.
  destruct (placeTypes_get_cases type)
    as [[_ ->]|[_ [(names & Hin & ->)|[_ ->]]]];
    cbn [mbind outcome_bind mret outcome_ret].
  - intros H. by apply elem_of_nil in H.
  - intros H. apply imap_elem in H as (i & x & Hx & ->).
    exists i, x, type, names. split; [done|]. split; [|done].
    by eapply list_elem_of_lookup_2.
  - intros H. apply imap_elem in H as (i & x & Hx & ->).
    exists i, x, "all"%string, (default [] (ownProperty "all" placeTypes)).
    split; [|split; [|done]].
    + vm_compute. do 5 (constructor 2). constructor 1.
    + by eapply list_elem_of_lookup_2.
Qed.

(** X16. With a [Math.random()] in [0, 1), every place
    [searchNearbyPlaces] returns lies within 0.01 degrees of the location, in
    latitude and in longitude. *)
Theorem nearby_places_within_bounds (rnd : nat -> Q) (location : Location.t)
    (type : string) (p : Location.t) :
  (forall k, (0 <= rnd k < 1)%Q) ->
  p ∈ searchNearbyPlaces rnd location type ->
  (Location.lat location - 0.01 <= Location.lat p < Location.lat location + 0.01)%Q
  /\ (Location.lng location - 0.01 <= Location.lng p < Location.lng location + 0.01)%Q.
Proof.
  intros Hrnd Hp.
  apply searchNearbyPlaces_elem in Hp as (i & name & _ & _ & _ & _ & ->).
  unfold nearbyPlace. cbn [Location.lat Location.lng].
  destruct (Hrnd (2 * i)%nat), (Hrnd (2 * i + 1)%nat).
  repeat split; lra.
Qed.

Lemma nearby_places_within_bounds_witness :
  (Location.lat newYork - 0.01
   <= Location.lat (nearbyPlace rndNine newYork "hotel" 0 "Grand Hotel")
   < Location.lat newYork + 0.01)%Q
  /\ (Location.lng newYork - 0.01
      <= Location.lng (nearbyPlace rndNine newYork "hotel" 0 "Grand Hotel")
      < Location.lng newYork + 0.01)%Q.
Proof.
  apply (nearby_places_within_bounds rndNine newYork "hotel"
           (nearbyPlace rndNine newYork "hotel" 0 "Grand Hotel")).
  - intros k. unfold rndNine. split; [discriminate | reflexivity].
  - vm_compute. constructor.
Defined.

(** X17. [searchNearbyPlaces] returns no place when the type names a
    property inherited from [Object.prototype], and 3 to 5 places otherwise;
    every place has the category ["place"] for the type ["all"] and the type
    itself otherwise; a type that is no key of [placeTypes] gets the places
    of ["all"], at the same coordinates and with the same names. *)
Theorem nearby_places_by_type (rnd : nat -> Q) (location : Location.t) (type : string) :
  let places := searchNearbyPlaces rnd location type in
  (type ∈ objectPrototype -> places = [])
  /\ (type ∉ objectPrototype -> (3 <= length places <= 5)%nat)
  /\ (forall p, p ∈ places ->
        Location.category p
        = Some (if decide (type = "all"%string) then "place"%string else type))
  /\ (ownProperty type placeTypes = None -> type ∉ objectPrototype ->
        List.map (fun p => (Location.lat p, Location.lng p, Location.name p)) places
        = List.map (fun p => (Location.lat p, Location.lng p, Location.name p))
                   (searchNearbyPlaces rnd location "all")).
Proof.
  cbv zeta. split; [|split; [|split]].
  - intros Hin. unfold searchNearbyPlaces, nearbyPlaces_try.
    destruct (placeTypes_get_cases type) as [[_ ->]|[Hnin _]]; done.
  - intros Hnin. unfold searchNearbyPlaces, nearbyPlaces_try.
    destruct (placeTypes_get_cases type)
      as [[Hin _]|[_ [(names & Hin & ->)|[_ ->]]]]; [done| |].
    + simpl. rewrite length_imap. unfold placeTypes in Hin.
      repeat (apply elem_of_cons in Hin as [[= _ ->]|Hin]; [simpl; lia|]).
      by apply elem_of_nil in Hin.
    + simpl. lia.
  - intros p Hp.
    by apply searchNearbyPlaces_elem in Hp as (i & name & _ & _ & _ & _ & ->).
  - intros Hown Hnin. unfold searchNearbyPlaces, nearbyPlaces_try, placeTypes_get.
    rewrite Hown, bool_decide_eq_false_2 by done. reflexivity.
Qed.

Lemma beforeComma_spec (s : string) :
  exists rest,
    s = (beforeComma s ++ rest)%string
    /\ (forall c, In c (list_ascii_of_string (beforeComma s)) -> c <> ","%char)
    /\ (rest = EmptyString \/ exists r, rest = String "," r).
Proof.
  induction s as [|c s (rest & Heq & Hno & Hrest)]; simpl.
  - exists EmptyString. split; [done|]. split; [by intros c []|by left].
  - destruct (Ascii.eqb c ",") eqn:Hc.
    + apply Ascii.eqb_eq in Hc as ->. exists (String "," s).
      split; [done|]. split; [by intros c []|]. right. by exists s.
    + apply Ascii.eqb_neq in Hc. exists rest. split; [rewrite Heq at 1; reflexivity|].
      split; [|done]. intros c' [<-|Hin]; [done | by apply Hno].
Qed.

(** X18. The name of every place [searchNearbyPlaces] returns is one of
    the names of [placeTypes], followed by [" Near "] and the part of the
    location's name in front of its first comma. *)
Theorem nearby_place_names (rnd : nat -> Q) (location : Location.t) (type : string)
    (p : Location.t) :
  p ∈ searchNearbyPlaces rnd location type ->
  exists label key names prefix rest,
    (key, names) ∈ placeTypes /\ label ∈ names
    /\ Location.name p = (label ++ " Near " ++ prefix)%string
    /\ Location.name location = (prefix ++ rest)%string
    /\ (forall c, In c (list_ascii_of_string prefix) -> c <> ","%char)
    /\ (rest = EmptyString \/ exists r, rest = String "," r).
Proof.
  intros Hp.
  apply searchNearbyPlaces_elem in Hp as (i & name & key & names & Hk & Hn & ->).
  destruct (beforeComma_spec (Location.name location)) as (rest & Heq & Hno & Hrest).
  exists name, key, names, (beforeComma (Location.name location)), rest.
  done.
Qed.

Lemma nearby_place_names_witness :
  exists label key names prefix rest,
    (key, names) ∈ placeTypes /\ label ∈ names
    /\ Location.name (nearbyPlace rndNine
                        (Location.mk 40.7128 (-74.0060) "New York City, USA" None)
                        "cafe" 1 "Bank")
       = (label ++ " Near " ++ prefix)%string
    /\ Location.name (Location.mk 40.7128 (-74.0060) "New York City, USA" None)
       = (prefix ++ rest)%string
    /\ (forall c, In c (list_ascii_of_string prefix) -> c <> ","%char)
    /\ (rest = EmptyString \/ exists r, rest = String "," r).
Proof.
  apply (nearby_place_names rndNine
           (Location.mk 40.7128 (-74.0060) "New York City, USA" None) "cafe").
  vm_compute. apply elem_of_cons. right. constructor.
Defined.




(** X20. Whenever [handleCalculateRoute] completes it has added exactly
    one toast, never the one titled "Route Calculation Failed"; the toast is
    "Missing Locations" exactly when a location is missing, and then the
    route and the calculating flag are unchanged. *)
Theorem completed_handler_toast (M : MathLib) (rnd : nat -> Q) (fuel : nat)
    (page page' : Page.t) :
  handleCalculateRoute M rnd fuel page = Returned page' ->
  exists toast,
    Page.toasts page' = Page.toasts page ++ [toast]
    /\ Toast.title toast <> "Route Calculation Failed"%string
    /\ (Toast.title toast = "Missing Locations"%string
        <-> Page.source page = None \/ Page.destination page = None)
    /\ (Toast.title toast = "Missing Locations"%string ->
        Page.route page' = Page.route page
        /\ Page.isCalculating page' = Page.isCalculating page).
Proof.
  unfold handleCalculateRoute.
  destruct (Page.source page) as [s|], (Page.destination page) as [d|];
    try (intros [= <-]; eexists; split; [reflexivity|]; simpl;
         split; [discriminate|]; split; [split; intros; eauto|done]).
  destruct (findShortestPath_dichotomy M rnd fuel s d (Page.routeType page))
    as [->| ->]; [discriminate|].
  intros [= <-]. eexists. split; [reflexivity|]. simpl.
  split; [discriminate|]. split; [|discriminate].
  split; [discriminate|]. intros [?|?]; discriminate.
Qed.

Lemma completed_handler_toast_witness :
  exists toast,
    Page.toasts
      (Page.mk None (Some cornerB) None shortest false
         [Toast.mk "Missing Locations"
            "Please select both source and destination locations."
            (Some "destructive"%string)])
    = Page.toasts (Page.mk None (Some cornerB) None shortest false []) ++ [toast]
    /\ Toast.title toast <> "Route Calculation Failed"%string
    /\ (Toast.title toast = "Missing Locations"%string
        <-> Page.source (Page.mk None (Some cornerB) None shortest false []) = None
            \/ Page.destination (Page.mk None (Some cornerB) None shortest false []) = None)
    /\ (Toast.title toast = "Missing Locations"%string ->
        Page.route
          (Page.mk None (Some cornerB) None shortest false
             [Toast.mk "Missing Locations"
                "Please select both source and destination locations."
                (Some "destructive"%string)])
        = Page.route (Page.mk None (Some cornerB) None shortest false [])
        /\ Page.isCalculating
             (Page.mk None (Some cornerB) None shortest false
                [Toast.mk "Missing Locations"
                   "Please select both source and destination locations."
                   (Some "destructive"%string)])
           = Page.isCalculating (Page.mk None (Some cornerB) None shortest false [])).
Proof.
  apply (completed_handler_toast RefMath.lib rndZero 2
           (Page.mk None (Some cornerB) None shortest false [])).
  reflexivity.
Defined.

Lemma slice_interior {A : Type} (a b : A) (middle : list A) :
  slice 1 (-1) (a :: middle ++ [b]) = middle.
Proof.
  unfold slice. cbv zeta.
  assert (Hlen : length (a :: middle ++ [b]) = S (S (length middle))).
  { simpl. rewrite length_app. simpl. lia. }
  rewrite Hlen.
  replace (1 <? 0)%Z with false by done. replace (-1 <? 0)%Z with true by done.
  replace (Z.to_nat (Z.min 1 (Z.of_nat (S (S (length middle)))))) with 1%nat by lia.
  replace (Z.to_nat (Z.max (Z.of_nat (S (S (length middle))) + -1) 0
                     - Z.min 1 (Z.of_nat (S (S (length middle))))))
    with (length middle) by lia.
  change (skipn 1 (a :: middle ++ [b])) with (middle ++ [b]).
  rewrite firstn_app, Nat.sub_diag, firstn_all. simpl. by rewrite app_nil_r.
Qed.

(** X21. The nodes that get a waypoint marker are the path without its
    first and last node: none for a path of at most two nodes; the polyline
    has one position per path node. *)
Theorem markers_are_interior_nodes (r : RouteResult.t) :
  ((2 <= length (RouteResult.path r))%nat ->
     exists first final,
       RouteResult.path r = first :: waypointMarkers (Some r) ++ [final])
  /\ ((length (RouteResult.path r) <= 2)%nat -> waypointMarkers (Some r) = [])
  /\ length (routeCoordinates (Some r)) = length (RouteResult.path r).
Proof.
  unfold waypointMarkers, routeCoordinates. split; [|split].
  - intros Hlen. destruct (RouteResult.path r) as [|a rest]; [simpl in Hlen; lia|].
    destruct (rev rest) as [|b mid] eqn:Hrev.
    { apply (f_equal (@length _)) in Hrev. rewrite length_rev in Hrev.
      simpl in *. lia. }
    assert (Hrest : rest = rev mid ++ [b]).
    { rewrite <- (rev_involutive rest), Hrev. done. }
    exists a, b. by rewrite Hrest, slice_interior.
  - intros Hlen. destruct (RouteResult.path r) as [|a [|b [|c rest]]];
      [done..|simpl in Hlen; lia].
  - by rewrite length_map.
Qed.




(** ** The fallback of the location search *)






(** ** No exception escapes the route computation *)

Lemma bearing_index_range (M : MathLib) (theta : Q) :
  (0 < Math_PI M)%Q -> (- Math_PI M <= theta <= Math_PI M)%Q ->
  (0 <= Z.rem (Math_round (number_rem (theta * 180 / Math_PI M + 360) 360 / 45)) 8 < 8)%Z.
Proof.
  intros Hpi [Hlo Hhi].
  assert (Ht : (0 <= theta * 180 / Math_PI M + 360)%Q).
  { assert (H : (-(180) <= theta * 180 / Math_PI M)%Q).
    { apply Qle_shift_div_l; [done|]. lra. }
    lra. }
  pose proof (number_rem_nonneg _ Ht) as [Hr0 Hr1].
  set (r := number_rem _ 360) in *. clearbody r.
  assert (Hround : (0 <= Math_round (r / 45) <= 8)%Z).
  { assert (Hq : (r / 45 == r * (1 # 45))%Q) by (field; discriminate).
    apply Math_round_range; rewrite Hq.
    - change (inject_Z 0) with 0%Q. lra.
    - change (inject_Z 8) with 8%Q. lra. }
  destruct (Z.eq_dec (Math_round (r / 45)) 8%Z) as [->|Hne]; [done|].
  rewrite Z.rem_small by lia. lia.
Qed.

Lemma directionAt_no_TypeError (M : MathLib) (n i : nat) (current next : GraphNode.t) :
  MathAngle M -> directionAt M n i current next <> TypeError.
Proof.
  intros [Hpi Hrange]. unfold directionAt. cbv zeta.
  destruct (calculateBearing M (GraphNode.lat current) (GraphNode.lng current)
              (GraphNode.lat next) (GraphNode.lng next)) as [b|] eqn:Hb.
  - by repeat case_match.
  - exfalso. unfold calculateBearing in Hb. cbv zeta in Hb.
    match type of Hb with
    | compass_at (Z.rem (Math_round (number_rem (Math_atan2 M ?y ?x * _ / _ + _) _ / _)) _)
      = None =>
        destruct (compass_at_range _ (bearing_index_range M _ Hpi (Hrange y x)))
          as (s & Hs & _)
    end.
    rewrite Hs in Hb. discriminate.
Qed.

Lemma directionsFrom_no_TypeError (M : MathLib) (n i : nat)
    (ls : list (GraphNode.t * GraphNode.t)) :
  MathAngle M -> directionsFrom M n i ls <> TypeError.
Proof.
  intros HM. revert i. induction ls as [|leg ls IH]; intros i; [done|].
  cbn [directionsFrom].
  pose proof (directionAt_no_TypeError M n i (fst leg) (snd leg) HM) as Hd.
  destruct (directionAt M n i (fst leg) (snd leg)) as [d| |]; [|done|done].
  rewrite bind_Returned_eq. specialize (IH (S i)).
  destruct (directionsFrom M n (S i) ls) as [ds| |]; done.
Qed.

Lemma reconstructPath_no_TypeError fuel nodes previous cid path :
  reconstructPath fuel nodes previous cid path <> TypeError.
Proof.
  revert cid path. induction fuel as [|fuel IH]; intros [c|] path; simpl; try done.
Qed.

(** X24. With a [Math] whose [PI] is positive and whose [atan2] stays within
    [-PI, PI], the computation on any lists of nodes and edges throws no
    [TypeError]: every bearing it lower-cases is a compass name. *)
Theorem solve_never_throws (M : MathLib) (fuel : nat) (nodes : list GraphNode.t)
    (edges : list GraphEdge.t) :
  MathAngle M -> solve M fuel nodes edges <> TypeError.
Proof.
  intros HM. unfold solve.
  pose proof (dijkstraLoop_no_TypeError fuel (buildAdjacency nodes edges)
                (initialize nodes)) as Hloop.
  destruct (dijkstraLoop fuel (buildAdjacency nodes edges) (initialize nodes))
    as [st| |]; [|done|done].
  rewrite bind_Returned_eq.
  pose proof (reconstructPath_no_TypeError fuel nodes (Solver.previous st)
                (Some "destination"%string) []) as Hpath.
  destruct (reconstructPath fuel nodes (Solver.previous st) (Some "destination"%string) [])
    as [path| |]; [|done|done].
  rewrite bind_Returned_eq.
  pose proof (directionsFrom_no_TypeError M (length path) 0 (legs path) HM) as Hds.
  unfold generateDirections.
  destruct (directionsFrom M (length path) 0 (legs path)) as [ds| |]; done.
Qed.

Lemma solve_never_throws_witness :
  solve clippedMath 2 [nodeA; nodeB] [edgeAB] <> TypeError.
Proof.
  apply (solve_never_throws clippedMath 2 [nodeA; nodeB] [edgeAB]).
  exact clippedMath_angle.
Defined.
